(** * BoilingML nucleation model: sciml/op_lib/nucleation.py

    A shallow embedding of the nucleation-site routines [heater_init],
    [dfun_init], [tag_renucleation] and [renucleate].

    Numbers are IEEE-754 binary64 values, the [float64] of NumPy and the
    [float] of Python; they are Rocq's primitive floats, so every definition
    below evaluates on concrete inputs.  One-dimensional arrays are lists,
    two-dimensional arrays are lists of rows, indexed [a[row, column]] as the
    source does with [dfun[y_i, x_i]].  An exception raised by the source
    ([IndexError]) is the value [None]. *)

From Stdlib Require Import ZArith List Bool Lia Floats Zpower.
Import ListNotations.

Set Warnings "-inexact-float".

Local Open Scope float_scope.

(** ** The error monad of the embedding *)

Definition bind {A B : Type} (m : option A) (k : A -> option B) : option B :=
  match m with
  | Some a => k a
  | None => None
  end.

Notation "x <- m ;; k" := (bind m (fun x => k))
  (at level 61, m at next level, right associativity).

(** ** NumPy primitives used by the module *)

Module np.

Definition array1 := list float.
Definition array2 := list (list float).

(** [np.pi], the binary64 value nearest to pi. *)
Definition pi : float := 0x1.921fb54442d18p+1.

(** [np.inf]. *)
Definition inf : float := infinity.

(** Elementwise application of a unary operation. *)
Definition amap (f : float -> float) (a : array2) : array2 :=
  map (map f) a.

(** Elementwise pairing of two lists; the result stops with the shorter
    one.  NumPy applies it to arrays of one shape, the only case the
    routines below are used in (the grids and the field share a shape). *)
Fixpoint zip_with {A B C : Type} (f : A -> B -> C)
    (a : list A) (b : list B) : list C :=
  match a, b with
  | x :: a', y :: b' => f x y :: zip_with f a' b'
  | _, _ => []
  end.

(** Elementwise application of a binary operation to two arrays. *)
Definition amap2 (f : float -> float -> float) (a b : array2) : array2 :=
  zip_with (zip_with f) a b.

(** [np.zeros_like]. *)
Definition zeros_like (a : array2) : array2 := amap (fun _ => 0) a.
Definition zeros_like1 (a : array1) : array1 := map (fun _ => 0) a.

(** [np.maximum] on two scalars: NumPy's loop computes
    [(a >= b || isnan(a)) ? a : b], so a NaN on either side is returned. *)
Definition maximum (a b : float) : float :=
  if (b <=? a) || is_nan a then a else b.

(** [x ** 2] on a float64 array squares each entry. *)
Definition square (x : float) : float := x * x.

(** Python indexing of an axis of length [n]: an index in [0, n) is used as
    it is, an index in [-n, 0) counts from the end, anything else raises
    [IndexError]. *)
Definition norm_index (n : nat) (i : Z) : option nat :=
  if ((0 <=? i) && (i <? Z.of_nat n))%Z then Some (Z.to_nat i)
  else if ((- Z.of_nat n <=? i) && (i <? 0))%Z
       then Some (Z.to_nat (i + Z.of_nat n))
       else None.

Definition getitem {A : Type} (a : list A) (i : Z) : option A :=
  k <- norm_index (length a) i ;; nth_error a k.

(** [a[i, j]] on a two-dimensional array. *)
Definition getitem2 (a : array2) (i j : Z) : option float :=
  row <- getitem a i ;; getitem row j.

(** Replacement of the entry at position [k] (no bound check). *)
Fixpoint update {A : Type} (a : list A) (k : nat) (v : A) : list A :=
  match a, k with
  | [], _ => []
  | _ :: a', O => v :: a'
  | x :: a', S k' => x :: update a' k' v
  end.

(** [a[i] = v]: the array with entry [i] replaced, [IndexError] when [i]
    is outside the axis. *)
Definition setitem {A : Type} (a : list A) (i : Z) (v : A)
    : option (list A) :=
  k <- norm_index (length a) i ;; Some (update a k v).

(** The order [np.searchsorted] compares float64 values with: NaN is
    larger than every number. *)
Definition less (a b : float) : bool :=
  (a <? b) || (is_nan b && negb (is_nan a)).

(** The binary search of [np.searchsorted(..., side='left')] for one key,
    between the bounds [min_idx] and [max_idx]; [fuel] bounds the number of
    halvings. *)
Fixpoint binsearch (fuel : nat) (arr : array1) (key : float)
    (min_idx max_idx : nat) : nat :=
  match fuel with
  | O => min_idx
  | S fuel' =>
      if (min_idx <? max_idx)%nat then
        let mid_idx := (min_idx + Nat.div2 (max_idx - min_idx))%nat in
        let mid_val := nth mid_idx arr nan in
        if less mid_val key
        then binsearch fuel' arr key (S mid_idx) max_idx
        else binsearch fuel' arr key min_idx mid_idx
      else min_idx
  end.

(** [np.searchsorted(arr, key, side='left')]: the search starts from the
    whole axis; the interval shrinks at every halving, so [length arr]
    halvings are enough (see [binsearch_fuel]). *)
Definition searchsorted (arr : array1) (key : float) : Z :=
  Z.of_nat (binsearch (length arr) arr key 0 (length arr)).

End np.

(** [np.ndarray(n, dtype=float)]: a fresh array of [n] entries.  NumPy leaves
    the contents unspecified; [heater_init] overwrites every entry before it
    returns the arrays. *)
Definition np_ndarray (n : nat) : np.array1 := repeat 0 n.

(** [a[:] = v] for an array [v] of the length of [a]. *)
Definition assign_all (a v : np.array1) : np.array1 :=
  np.zip_with (fun _ y => y) a v.

(** [a[:] = c] for a scalar [c]. *)
Definition fill (a : np.array1) (c : float) : np.array1 :=
  map (fun _ => c) a.

(** ** scipy.stats.qmc: the Halton engine

    The engine is an object with state: [random(n)] returns the next [n]
    points of its sequence and advances [num_generated].  The points
    themselves are computed by SciPy from the dimension, the seed and the
    index; that computation is the parameter [halton_coord] of the section
    below.  Engines live in a heap, as Python objects do. *)

Module qmc.

Record engine : Type := mk_engine {
  eng_d : nat;
  eng_seed : Z;
  num_generated : nat
}.

Definition heap := list engine.

End qmc.

Section Nucleation.

(** [np.cos], computed by the platform's C library. *)
Variable np_cos : float -> float.

(** Coordinate [j] of point number [k] of the scrambled Halton sequence of
    dimension [d] built from [seed]. *)
Variable halton_coord : Z -> nat -> nat -> nat -> float.

(** [qmc.Halton(d=d, seed=seed)]: a new engine, at a fresh heap address. *)
Definition qmc_Halton (d : nat) (seed : Z) (h : qmc.heap) : nat * qmc.heap :=
  (length h, h ++ [qmc.mk_engine d seed 0]).

(** The points [first, first + n) of an engine's sequence, one row each. *)
Definition halton_points (e : qmc.engine) (n : nat) : np.array2 :=
  map (fun k =>
         map (halton_coord (qmc.eng_seed e) (qmc.eng_d e) k)
             (seq 0 (qmc.eng_d e)))
      (seq (qmc.num_generated e) n).

(** [engine.random(n)] on the engine at address [ref]. *)
Definition qmc_random (ref : nat) (n : nat) (h : qmc.heap)
    : option (np.array2 * qmc.heap) :=
  e <- nth_error h ref ;;
  Some (halton_points e n,
        np.update h ref
          (qmc.mk_engine (qmc.eng_d e) (qmc.eng_seed e)
                         (qmc.num_generated e + n))).

(** [a[:, j]]: column [j] of a two-dimensional array. *)
Fixpoint column (a : np.array2) (j : Z) : option np.array1 :=
  match a with
  | [] => Some []
  | row :: a' =>
      v <- np.getitem row j ;;
      c <- column a' j ;;
      Some (v :: c)
  end.

(** ** heater_init (lines 8-30) *)

Definition heater_init (xmin xmax : float) (num_sites : nat) (h : qmc.heap)
    : option ((np.array1 * np.array1) * qmc.heap) :=
  let x_sites := np_ndarray num_sites in
  let y_sites := np_ndarray num_sites in
  let '(halton_sequence, h1) := qmc_Halton 2 1 h in
  r <- qmc_random halton_sequence num_sites h1 ;;
  let '(halton_sample, h2) := r in
  c0 <- column halton_sample 0 ;;
  let x_sites := assign_all x_sites
                   (map (fun u => xmin + u * (xmax - xmin)) c0) in
  let y_sites := fill y_sites 1e-13 in
  Some ((x_sites, y_sites), h2).

(** ** dfun_init (lines 32-54) *)

(** [seed_radius * np.cos(np.pi/4)]. *)
Definition seed_height (seed_radius : float) : float :=
  seed_radius * np_cos (np.pi / 4).

(** [seed_radius - np.sqrt((x_grid - seed_x)**2 + (y_grid - seed_y)**2)],
    array operation by array operation. *)
Definition interim_dfun (x_grid y_grid : np.array2)
    (seed_x seed_y seed_radius : float) : np.array2 :=
  let dx2 := np.amap np.square (np.amap (fun x => x - seed_x) x_grid) in
  let dy2 := np.amap np.square (np.amap (fun y => y - seed_y) y_grid) in
  let dist := np.amap sqrt (np.amap2 add dx2 dy2) in
  np.amap (fun d => seed_radius - d) dist.

Definition dfun_init (x_grid y_grid : np.array2) (x_sites y_sites : np.array1)
    (seed_radius : float) : np.array2 :=
  let dfun := np.amap (fun z => z - np.inf) (np.zeros_like x_grid) in
  let seed_height := seed_height seed_radius in
  fold_left
    (fun dfun htr_points_xy =>
       let seed_x := fst htr_points_xy in
       let seed_y := snd htr_points_xy + seed_height in
       let interim_dfun :=
         interim_dfun x_grid y_grid seed_x seed_y seed_radius in
       np.amap2 np.maximum dfun interim_dfun)
    (combine x_sites y_sites) dfun.

(** ** tag_renucleation (lines 56-88) *)

(** Lines 75-80: the value sampled at one site. *)
Definition sample_site (dfun : np.array2) (coordx coordy : np.array1)
    (seed_height : float) (htr_points_xy : float * float) : option float :=
  let seed_x := fst htr_points_xy in
  let seed_y := snd htr_points_xy + seed_height in
  let x_i := np.searchsorted coordx seed_x in
  let y_i := np.searchsorted coordy seed_y in
  v11 <- np.getitem2 dfun y_i x_i ;;
  v01 <- np.getitem2 dfun (y_i - 1) x_i ;;
  v10 <- np.getitem2 dfun y_i (x_i - 1) ;;
  v00 <- np.getitem2 dfun (y_i - 1) (x_i - 1) ;;
  Some ((v11 + v01 + v10 + v00) / 4).

(** Lines 83-86: the counter update of site [i]. *)
Definition tag_counter (liquid_cover_iters : np.array1) (i : nat)
    (dfun_site : float) : option np.array1 :=
  if dfun_site <? 0 then
    c <- np.getitem liquid_cover_iters (Z.of_nat i) ;;
    np.setitem liquid_cover_iters (Z.of_nat i) (c + 1)
  else
    np.setitem liquid_cover_iters (Z.of_nat i) 0.

(** The loop of lines 74-86 from site number [i] on; the state is the pair
    of [dfun_sites] and [liquid_cover_iters]. *)
Fixpoint tag_loop (dfun : np.array2) (coordx coordy : np.array1)
    (seed_height : float) (i : nat) (sites : list (float * float))
    (dfun_sites liquid_cover_iters : np.array1)
    : option (np.array1 * np.array1) :=
  match sites with
  | [] => Some (dfun_sites, liquid_cover_iters)
  | htr_points_xy :: sites' =>
      dfun_site <- sample_site dfun coordx coordy seed_height htr_points_xy ;;
      dfun_sites' <- np.setitem dfun_sites (Z.of_nat i) dfun_site ;;
      liquid_cover_iters' <- tag_counter liquid_cover_iters i dfun_site ;;
      tag_loop dfun coordx coordy seed_height (S i) sites'
               dfun_sites' liquid_cover_iters'
  end.

Definition tag_renucleation (x_sites y_sites : np.array1) (dfun : np.array2)
    (coordx coordy : np.array1) (seed_radius : float)
    (liquid_cover_iters : np.array1) : option (np.array1 * np.array1) :=
  let dfun_sites := np.zeros_like1 x_sites in
  let seed_height := seed_height seed_radius in
  tag_loop dfun coordx coordy seed_height 0 (combine x_sites y_sites)
           dfun_sites liquid_cover_iters.

(** ** renucleate (lines 90-119) *)

(** Line 110: [dfun_sites[i] < 0 and liquid_cover_iters[i] >= 4]; the second
    read happens only when the first test succeeds. *)
Definition trigger (dfun_sites liquid_cover_iters : np.array1) (i : nat)
    : option bool :=
  d <- np.getitem dfun_sites (Z.of_nat i) ;;
  if d <? 0 then
    c <- np.getitem liquid_cover_iters (Z.of_nat i) ;;
    Some (4 <=? c)
  else Some false.

(** Lines 111-115: the seed of one site, divided by [dfun_scale]. *)
Definition scaled_seed (x_grid y_grid : np.array2)
    (seed_height dfun_scale seed_radius : float)
    (htr_points_xy : float * float) : np.array2 :=
  let seed_x := fst htr_points_xy in
  let seed_y := snd htr_points_xy + seed_height in
  let interim_dfun := interim_dfun x_grid y_grid seed_x seed_y seed_radius in
  np.amap (fun v => v / dfun_scale) interim_dfun.

(** The loop of lines 109-117 from site number [i] on; the state is the pair
    of [curr_dfun] and [liquid_cover_iters]. *)
Fixpoint renucleate_loop (x_grid y_grid : np.array2)
    (dfun_sites : np.array1) (seed_height dfun_scale seed_radius : float)
    (i : nat) (sites : list (float * float))
    (curr_dfun : np.array2) (liquid_cover_iters : np.array1)
    : option (np.array2 * np.array1) :=
  match sites with
  | [] => Some (curr_dfun, liquid_cover_iters)
  | htr_points_xy :: sites' =>
      t <- trigger dfun_sites liquid_cover_iters i ;;
      if (t : bool) then
        let interim_dfun :=
          scaled_seed x_grid y_grid seed_height dfun_scale seed_radius
                      htr_points_xy in
        let curr_dfun' := np.amap2 np.maximum curr_dfun interim_dfun in
        liquid_cover_iters' <- np.setitem liquid_cover_iters (Z.of_nat i) 0 ;;
        renucleate_loop x_grid y_grid dfun_sites seed_height dfun_scale
                        seed_radius (S i) sites' curr_dfun'
                        liquid_cover_iters'
      else
        renucleate_loop x_grid y_grid dfun_sites seed_height dfun_scale
                        seed_radius (S i) sites' curr_dfun liquid_cover_iters
  end.

Definition renucleate (x_grid y_grid : np.array2) (x_sites y_sites : np.array1)
    (dfun_sites liquid_cover_iters : np.array1) (curr_dfun : np.array2)
    (dfun_scale seed_radius : float) : option (np.array2 * np.array1) :=
  let seed_height := seed_height seed_radius in
  renucleate_loop x_grid y_grid dfun_sites seed_height dfun_scale seed_radius
                  0 (combine x_sites y_sites) curr_dfun liquid_cover_iters.

(** ** A time-stepping driver

    The source leaves the loop over time steps to its caller, which owns the
    field and the counters: at every step the solver supplies the current
    field, the Tagger samples it and the Trigger re-seeds it.  [simulate]
    runs one such step per supplied field and records, for each step, the
    counters after the Tagger, whether each site met the condition of line
    110, and the field and counters after the Trigger. *)

Record step_record : Type := mk_step {
  tagged_iters : np.array1;
  fired : list bool;
  out_dfun : np.array2;
  out_iters : np.array1
}.

(** The condition of line 110 for the sites [i, i + n). *)
Fixpoint trigger_flags (dfun_sites liquid_cover_iters : np.array1)
    (i n : nat) : option (list bool) :=
  match n with
  | O => Some []
  | S n' =>
      t <- trigger dfun_sites liquid_cover_iters i ;;
      ts <- trigger_flags dfun_sites liquid_cover_iters (S i) n' ;;
      Some (t :: ts)
  end.

Definition simulate_step (x_grid y_grid : np.array2)
    (x_sites y_sites coordx coordy : np.array1)
    (dfun_scale seed_radius : float)
    (dfun : np.array2) (liquid_cover_iters : np.array1)
    : option step_record :=
  r <- tag_renucleation x_sites y_sites dfun coordx coordy seed_radius
                        liquid_cover_iters ;;
  let '(dfun_sites, iters1) := r in
  flags <- trigger_flags dfun_sites iters1 0
                         (length (combine x_sites y_sites)) ;;
  r' <- renucleate x_grid y_grid x_sites y_sites dfun_sites iters1 dfun
                   dfun_scale seed_radius ;;
  let '(dfun', iters2) := r' in
  Some (mk_step iters1 flags dfun' iters2).

Fixpoint simulate (x_grid y_grid : np.array2)
    (x_sites y_sites coordx coordy : np.array1)
    (dfun_scale seed_radius : float)
    (fields : list np.array2) (liquid_cover_iters : np.array1)
    : option (list step_record) :=
  match fields with
  | [] => Some []
  | dfun :: fields' =>
      s <- simulate_step x_grid y_grid x_sites y_sites coordx coordy
                         dfun_scale seed_radius dfun liquid_cover_iters ;;
      rest <- simulate x_grid y_grid x_sites y_sites coordx coordy
                       dfun_scale seed_radius fields' (out_iters s) ;;
      Some (s :: rest)
  end.

End Nucleation.

(** ** Concrete data used to evaluate the definitions *)

Module Example.

(** The value of [cos(pi/4)] in binary64. *)
Definition cos (_ : float) : float := 0x1.6a09e667f3bcdp-1.

(** A stand-in for SciPy's point generator: the radical inverse in base 2
    of the index for the first coordinate, one half for the others. *)
Definition halton (seed : Z) (d k j : nat) : float :=
  match j with
  | O => nth k [0.5; 0.25; 0.75; 0.125; 0.625; 0.375; 0.875] 0.0625
  | _ => 0.5
  end.

(** A 4 x 4 uniform mesh on [-1.5, 1.5] x [0, 0.75]. *)
Definition coordx : np.array1 := [-1.5; -0.5; 0.5; 1.5].
Definition coordy : np.array1 := [0; 0.25; 0.5; 0.75].
Definition x_grid : np.array2 := map (fun _ => coordx) coordy.
Definition y_grid : np.array2 := map (fun y => map (fun _ => y) coordx) coordy.

(** A one-point grid whose point is the seed centre of the site
    [(0, 1e-13)] for the radius [0.2]. *)
Definition centre_x_grid : np.array2 := [[0]].
Definition centre_y_grid : np.array2 :=
  [[1e-13 + seed_height cos 0.2]].

(** A field that is negative everywhere. *)
Definition wet : np.array2 := np.amap (fun _ => -1) x_grid.

End Example.


(** ** Reading an array at natural-number positions *)

(** Entry [(r, c)] of a two-dimensional array, when it exists. *)
Definition at2 (a : np.array2) (r c : nat) : option float :=
  row <- nth_error a r ;; nth_error row c.

(** The shape of a two-dimensional array: the length of every row. *)
Definition shape (a : np.array2) : list nat := map (@length float) a.

(** An array of [ny] rows of [nx] entries each. *)
Definition rectangular (a : np.array2) (ny nx : nat) : Prop :=
  length a = ny /\ Forall (fun row => length row = nx) a.

(** ** Pointwise descriptions the array code is compared with *)

(** The value of one seed at the grid point [(x, y)]: the radius minus the
    distance to the seed centre [(seed_x, seed_y)]. *)
Definition seed_value (seed_radius seed_x seed_y x y : float) : float :=
  seed_radius - sqrt (np.square (x - seed_x) + np.square (y - seed_y)).

(** The centre of the seed of a site, for the offset [sh]. *)
Definition seed_centre (sh : float) (site : float * float) : float * float :=
  (fst site, snd site + sh).

(** The values of the seeds of [sites] at the grid point [(x, y)]. *)
Definition seed_values (seed_radius sh : float) (sites : list (float * float))
    (x y : float) : list float :=
  map (fun site => seed_value seed_radius (fst site) (snd site + sh) x y)
      sites.

(** The running [np.maximum] of a list of values, from [start] on. *)
Definition max_over (start : float) (vs : list float) : float :=
  fold_left np.maximum vs start.

(** [np.max] of a two-dimensional array (minus infinity when it is empty). *)
Definition array_max (a : np.array2) : float :=
  max_over neg_infinity (concat a).

(** An array all of whose entries are finite. *)
Definition finite_array (a : np.array2) : Prop :=
  Forall (fun v => is_finite v = true) (concat a).

(** Site [i] meets the condition of line 110. *)
Definition trigger_at (dfun_sites liquid_cover_iters : np.array1) (i : nat)
    : bool :=
  match nth_error dfun_sites i, nth_error liquid_cover_iters i with
  | Some d, Some c => (d <? 0) && (4 <=? c)
  | _, _ => false
  end.

(** The sites, numbered from [i] on, that meet it. *)
Fixpoint triggered (dfun_sites liquid_cover_iters : np.array1) (i : nat)
    (sites : list (float * float)) : list (float * float) :=
  match sites with
  | [] => []
  | site :: sites' =>
      if trigger_at dfun_sites liquid_cover_iters i
      then site :: triggered dfun_sites liquid_cover_iters (S i) sites'
      else triggered dfun_sites liquid_cover_iters (S i) sites'
  end.

(** The counter of a site after the Tagger sampled the value [m] there:
    one more when the value is negative, zero otherwise. *)
Definition tagged_count (m c : float) : float :=
  if m <? 0 then c + 1 else 0.

(** The field after the scaled seeds of the sites [l] were max-composed
    into [curr_dfun], one after the other (lines 114-116). *)
Definition max_compose (x_grid y_grid : np.array2)
    (sh dfun_scale seed_radius : float)
    (l : list (float * float)) (curr_dfun : np.array2) : np.array2 :=
  fold_left
    (fun f site =>
       np.amap2 np.maximum f
         (scaled_seed x_grid y_grid sh dfun_scale seed_radius site))
    l curr_dfun.

(** The x-sites computed from the points [0, n) of the Halton sequence of
    dimension 2 and seed 1, for the point generator [hc]. *)
Definition heater_x_sites (hc : Z -> nat -> nat -> nat -> float)
    (xmin xmax : float) (n : nat) : np.array1 :=
  map (fun k => xmin + hc 1%Z 2%nat k 0%nat * (xmax - xmin)) (seq 0 n).

(** [xmin <= x <= xmax], the interval the specification places the sites
    in. *)
Definition in_interval (xmin xmax x : float) : bool :=
  (xmin <=? x) && (x <=? xmax).

(** The specification's bound on the sites, for a point generator [hc]:
    for [xmin <= xmax] every x-site that [heater_init] returns is in
    [[xmin, xmax]] and every y-site is [1e-13]. *)
Definition sites_within_heater (hc : Z -> nat -> nat -> nat -> float) : Prop :=
  forall xmin xmax n h x_sites y_sites h',
    (xmin <=? xmax) = true ->
    heater_init hc xmin xmax n h = Some ((x_sites, y_sites), h') ->
    Forall (fun x => in_interval xmin xmax x = true) x_sites /\
    Forall (fun y => y = 1e-13) y_sites.

(** ** Descriptions used by the further properties *)

(** The binary64 distance from the grid point [(x, y)] to the point
    [(cx, cy)], as lines 52 and 114 compute it. *)
Definition distance (x y cx cy : float) : float :=
  sqrt (np.square (x - cx) + np.square (y - cy)).

(** An axis in ascending order, without NaN. *)
Definition ascending (arr : np.array1) : Prop :=
  forall i j, (i <= j < length arr)%nat ->
    (nth i arr nan <=? nth j arr nan) = true.

(** The four corner reads of a site (line 80). *)
Definition corner_reads (dfun : np.array2) (coordx coordy : np.array1)
    (sh : float) (site : float * float) : list (option float) :=
  let x_i := np.searchsorted coordx (fst site) in
  let y_i := np.searchsorted coordy (snd site + sh) in
  [np.getitem2 dfun y_i x_i; np.getitem2 dfun (y_i - 1) x_i;
   np.getitem2 dfun y_i (x_i - 1); np.getitem2 dfun (y_i - 1) (x_i - 1)].

(** Line 110 can be evaluated for site [i]: [dfun_sites[i]] exists, and so
    does [liquid_cover_iters[i]] when [dfun_sites[i]] is negative (the
    [and] of Python reads its second operand only then). *)
Definition readable (dfun_sites liquid_cover_iters : np.array1) (i : nat)
    : Prop :=
  exists d, nth_error dfun_sites i = Some d /\
            ((d <? 0) = true -> (i < length liquid_cover_iters)%nat).

(** The counter of a site that has been covered by liquid for [k] steps in
    a row under the Tagger and the Trigger: it counts up to 3 and starts
    again. *)
Definition covered_count (k : nat) : float :=
  nth (k mod 4) [0; 1; 2; 3] 0.

(** ** Binary64 floats as scaled integers *)

Module binary64.

Local Open Scope Z_scope.

(** The last step of [binary_round_aux]: the float of a sign, a mantissa
    and an exponent. *)
Definition finish (s : bool) (m e : Z) : spec_float :=
  match m with
  | 0 => S754_zero s
  | Z.pos p => if e <=? emax - prec then S754_finite s p e else S754_infinity s
  | Z.neg _ => S754_nan
  end.

(** The magnitude of [x] is at most, or at least, that of the float with
    mantissa [mr] and exponent [er]. *)
Definition mag_le (x : spec_float) (mr : positive) (er : Z) : Prop :=
  match x with
  | S754_zero _ => True
  | S754_finite _ m e => e < er \/ (e = er /\ (m <= mr)%positive)
  | _ => False
  end.

Definition mag_ge (x : spec_float) (mr : positive) (er : Z) : Prop :=
  match x with
  | S754_infinity _ => True
  | S754_finite _ m e => er < e \/ (e = er /\ (mr <= m)%positive)
  | _ => False
  end.

(** A finite float as an integer, in units of the smallest positive float
    [2^-1074]; zero for the others. *)
Definition SFvalue (x : spec_float) : Z :=
  match x with
  | S754_finite s m e => cond_Zopp s (Z.pos m * 2 ^ (e + 1074))
  | _ => 0
  end.

(** A zero or a finite float. *)
Definition SFfinite (x : spec_float) : bool :=
  match x with
  | S754_zero _ | S754_finite _ _ _ => true
  | _ => false
  end.

(** The float 1. *)
Definition SFone : spec_float := S754_finite false 4503599627370496 (-52).

(** A float that is a number of positive sign: [+0], a positive float or
    [+inf]. *)
Definition SFpositive_sign (x : spec_float) : Prop :=
  match x with
  | S754_zero s | S754_infinity s | S754_finite s _ _ => s = false
  | S754_nan => False
  end.

End binary64.

(** * Facts about the NumPy primitives *)

Module np_facts.

Lemma bind_some {A B : Type} (m : option A) (k : A -> option B) (b : B) :
  bind m k = Some b <-> exists a, m = Some a /\ k a = Some b.
Proof.
  destruct m as [a|]; simpl; split.
  - intros H. exists a. auto.
  - intros (a' & E & H). now injection E as ->.
  - discriminate.
  - intros (a' & E & _). discriminate.
Qed.

Lemma norm_index_nat (n i : nat) :
  (i < n)%nat -> np.norm_index n (Z.of_nat i) = Some i.
Proof.
  intros H. unfold np.norm_index.
  replace (0 <=? Z.of_nat i)%Z with true by (symmetry; apply Z.leb_le; lia).
  replace (Z.of_nat i <? Z.of_nat n)%Z with true
    by (symmetry; apply Z.ltb_lt; lia).
  simpl. now rewrite Nat2Z.id.
Qed.

Lemma norm_index_nat_out (n i : nat) :
  (n <= i)%nat -> np.norm_index n (Z.of_nat i) = None.
Proof.
  intros H. unfold np.norm_index.
  replace (Z.of_nat i <? Z.of_nat n)%Z with false
    by (symmetry; apply Z.ltb_ge; lia).
  replace (Z.of_nat i <? 0)%Z with false by (symmetry; apply Z.ltb_ge; lia).
  now rewrite !andb_false_r.
Qed.

Lemma norm_index_inside (n : nat) (i : Z) :
  (0 <= i < Z.of_nat n)%Z -> np.norm_index n i = Some (Z.to_nat i).
Proof.
  intros H. unfold np.norm_index.
  replace (0 <=? i)%Z with true by (symmetry; apply Z.leb_le; lia).
  replace (i <? Z.of_nat n)%Z with true by (symmetry; apply Z.ltb_lt; lia).
  reflexivity.
Qed.

(** The index [-1] on a non-empty axis is its last position. *)
Lemma norm_index_minus_one (n : nat) :
  (0 < n)%nat -> np.norm_index n (-1) = Some (n - 1)%nat.
Proof.
  intros H. unfold np.norm_index.
  replace (- Z.of_nat n <=? -1)%Z with true by (symmetry; apply Z.leb_le; lia).
  change ((0 <=? -1)%Z && (-1 <? Z.of_nat n)%Z) with false.
  change (true && (-1 <? 0)%Z) with true.
  cbv iota. f_equal. lia.
Qed.

Lemma norm_index_bound (n : nat) (i : Z) (k : nat) :
  np.norm_index n i = Some k -> (k < n)%nat.
Proof.
  unfold np.norm_index.
  destruct ((0 <=? i) && (i <? Z.of_nat n))%Z eqn:E1.
  - apply andb_true_iff in E1 as [H1 H2].
    apply Z.leb_le in H1. apply Z.ltb_lt in H2.
    intros [= <-]. lia.
  - destruct ((- Z.of_nat n <=? i) && (i <? 0))%Z eqn:E2; [|discriminate].
    apply andb_true_iff in E2 as [H1 H2].
    apply Z.leb_le in H1. apply Z.ltb_lt in H2.
    intros [= <-]. lia.
Qed.

Lemma getitem_nat {A : Type} (a : list A) (i : nat) :
  np.getitem a (Z.of_nat i) = nth_error a i.
Proof.
  unfold np.getitem.
  destruct (Nat.lt_ge_cases i (length a)) as [H|H].
  - now rewrite norm_index_nat.
  - rewrite norm_index_nat_out by assumption. simpl.
    symmetry. now apply nth_error_None.
Qed.

Lemma length_update {A : Type} (a : list A) (k : nat) (v : A) :
  length (np.update a k v) = length a.
Proof.
  revert k. induction a as [|x a IH]; intros [|k]; simpl; auto.
Qed.

Lemma nth_error_update_same {A : Type} (a : list A) (k : nat) (v : A) :
  (k < length a)%nat -> nth_error (np.update a k v) k = Some v.
Proof.
  revert k. induction a as [|x a IH]; intros [|k] H; simpl in *;
    try lia; auto.
  apply IH. lia.
Qed.

Lemma nth_error_update_other {A : Type} (a : list A) (k j : nat) (v : A) :
  j <> k -> nth_error (np.update a k v) j = nth_error a j.
Proof.
  revert k j. induction a as [|x a IH]; intros [|k] [|j] H; simpl;
    try congruence; auto.
Qed.

Lemma setitem_nat {A : Type} (a : list A) (i : nat) (v : A) :
  (i < length a)%nat ->
  np.setitem a (Z.of_nat i) v = Some (np.update a i v).
Proof.
  intros H. unfold np.setitem. now rewrite norm_index_nat.
Qed.

Lemma length_zip_with {A B C : Type} (f : A -> B -> C) a b :
  length (np.zip_with f a b) = Nat.min (length a) (length b).
Proof.
  revert b. induction a as [|x a IH]; intros [|y b]; simpl; auto.
Qed.

Lemma nth_error_zip_with {A B C : Type} (f : A -> B -> C) a b k x y :
  nth_error a k = Some x -> nth_error b k = Some y ->
  nth_error (np.zip_with f a b) k = Some (f x y).
Proof.
  revert b k. induction a as [|x0 a IH]; intros [|y0 b] [|k]; simpl;
    try discriminate.
  - now intros [= ->] [= ->].
  - intros Ha Hb. now apply IH.
Qed.

Lemma zip_with_ext {A B C : Type} (f g : A -> B -> C) a b :
  (forall x y, f x y = g x y) -> np.zip_with f a b = np.zip_with g a b.
Proof.
  intros H. revert b. induction a as [|x a IH]; intros [|y b]; simpl; auto.
  now rewrite H, IH.
Qed.

Lemma zip_with_zip_with {A B C D E : Type}
    (f : C -> D -> E) (g : A -> B -> C) (h : A -> B -> D) a b :
  np.zip_with f (np.zip_with g a b) (np.zip_with h a b)
  = np.zip_with (fun x y => f (g x y) (h x y)) a b.
Proof.
  revert b. induction a as [|x a IH]; intros [|y b]; simpl; auto.
  now rewrite IH.
Qed.

Lemma map_zip_with {A B C D : Type} (f : C -> D) (g : A -> B -> C) a b :
  map f (np.zip_with g a b) = np.zip_with (fun x y => f (g x y)) a b.
Proof.
  revert b. induction a as [|x a IH]; intros [|y b]; simpl; auto.
  now rewrite IH.
Qed.

Lemma zip_with_map {A A' B B' C : Type}
    (f : A' -> B' -> C) (g : A -> A') (h : B -> B') a b :
  np.zip_with f (map g a) (map h b)
  = np.zip_with (fun x y => f (g x) (h y)) a b.
Proof.
  revert b. induction a as [|x a IH]; intros [|y b]; simpl; auto.
  now rewrite IH.
Qed.

Lemma map_as_zip_with {A B C : Type} (f : A -> C) (a : list A) (b : list B) :
  length a = length b -> map f a = np.zip_with (fun x _ => f x) a b.
Proof.
  revert b. induction a as [|x a IH]; intros [|y b]; simpl;
    try discriminate; auto.
  intros [= H]. now rewrite (IH b).
Qed.

End np_facts.

(** * Facts about binary64 comparison and arithmetic *)

Module float_facts.

(** The comparison of two specification floats, read backwards. *)
Lemma SFcompare_antisym (x y : spec_float) :
  SFcompare y x = option_map CompOpp (SFcompare x y).
Proof.
  destruct x as [sx|sx| |sx mx ex], y as [sy|sy| |sy my ey]; simpl;
    try reflexivity;
    try (destruct sx; reflexivity);
    try (destruct sy; reflexivity);
    try (destruct sx, sy; reflexivity).
  destruct sx, sy; simpl; try reflexivity;
    rewrite (Z.compare_antisym ex ey);
    destruct (ex ?= ey)%Z; simpl; try reflexivity;
    change (PosDef.Pos.compare_cont Eq) with Pos.compare;
    rewrite (Pos.compare_antisym mx my);
    destruct (mx ?= my)%positive; reflexivity.
Qed.

Lemma ltb_leb_false (a b : float) : (a <? b) = true -> (b <=? a) = false.
Proof.
  rewrite ltb_spec, leb_spec. unfold SFltb, SFleb.
  rewrite (SFcompare_antisym (Prim2SF a) (Prim2SF b)).
  destruct (SFcompare (Prim2SF a) (Prim2SF b)) as [[]|]; simpl;
    congruence.
Qed.

Lemma leb_ltb_false (a b : float) : (a <=? b) = true -> (b <? a) = false.
Proof.
  rewrite ltb_spec, leb_spec. unfold SFltb, SFleb.
  rewrite (SFcompare_antisym (Prim2SF a) (Prim2SF b)).
  destruct (SFcompare (Prim2SF a) (Prim2SF b)) as [[]|]; simpl;
    congruence.
Qed.

Lemma is_nan_spec (a : float) : is_nan a = true <-> Prim2SF a = S754_nan.
Proof.
  unfold is_nan. rewrite eqb_spec. unfold SFeqb.
  destruct (Prim2SF a) as [s|s| |s m e]; simpl.
  - split; discriminate.
  - destruct s; split; discriminate.
  - split; reflexivity.
  - destruct s; rewrite Z.compare_refl, Pos.compare_cont_refl; simpl;
      split; discriminate.
Qed.

Lemma is_nan_nan (a : float) : is_nan a = true -> a = nan.
Proof.
  intros H. apply is_nan_spec in H. apply Prim2SF_inj. now rewrite H.
Qed.

Lemma SFcompare_refl (x : spec_float) :
  x <> S754_nan -> SFcompare x x = Some Eq.
Proof.
  destruct x as [s|s| |s m e]; simpl; try congruence.
  - now destruct s.
  - intros _. rewrite Z.compare_refl.
    change (PosDef.Pos.compare_cont Eq) with Pos.compare.
    rewrite Pos.compare_refl. now destruct s.
Qed.

Lemma leb_refl (a : float) : is_nan a = false -> (a <=? a) = true.
Proof.
  intros H. rewrite leb_spec. unfold SFleb.
  rewrite SFcompare_refl; [reflexivity|].
  intros E. apply is_nan_spec in E. congruence.
Qed.

Lemma SFcompare_None (x y : spec_float) :
  SFcompare x y = None -> x = S754_nan \/ y = S754_nan.
Proof.
  destruct x as [s|s| |s m e], y as [s'|s'| |s' m' e']; simpl;
    try discriminate; auto.
Qed.

(** Two floats that are not NaN are comparable. *)
Lemma leb_total (a b : float) :
  is_nan a = false -> is_nan b = false -> (a <=? b) = false -> (b <=? a) = true.
Proof.
  intros Ha Hb. rewrite !leb_spec. unfold SFleb.
  rewrite (SFcompare_antisym (Prim2SF a) (Prim2SF b)).
  destruct (SFcompare (Prim2SF a) (Prim2SF b)) as [[]|] eqn:E; simpl;
    try congruence.
  apply SFcompare_None in E as [E|E]; apply is_nan_spec in E; congruence.
Qed.

Lemma SFleb_trans (x y z : spec_float) :
  SFleb x y = true -> SFleb y z = true -> SFleb x z = true.
Proof.
  unfold SFleb.
  destruct x as [sx|sx| |sx mx ex], y as [sy|sy| |sy my ey],
           z as [sz|sz| |sz mz ez]; simpl;
    try discriminate; try reflexivity;
    try (destruct sx; simpl; try discriminate; try reflexivity);
    try (destruct sy; simpl; try discriminate; try reflexivity);
    try (destruct sz; simpl; try discriminate; try reflexivity).
  all: change (PosDef.Pos.compare_cont Eq) with Pos.compare.
  all: destruct (Z.compare_spec ex ey), (Z.compare_spec ey ez),
         (Z.compare_spec ex ez); simpl; try discriminate; try reflexivity;
       try lia; subst.
  all: destruct (Pos.compare_spec mx my), (Pos.compare_spec my mz),
         (Pos.compare_spec mx mz); simpl; try discriminate;
       try reflexivity; try lia.
Qed.

Lemma leb_trans (a b c : float) :
  (a <=? b) = true -> (b <=? c) = true -> (a <=? c) = true.
Proof. rewrite !leb_spec. apply SFleb_trans. Qed.

(** A float below or equal to anything, or above or equal to anything, is
    not NaN. *)
Lemma leb_not_nan (a b : float) :
  (a <=? b) = true -> is_nan a = false /\ is_nan b = false.
Proof.
  rewrite leb_spec. unfold SFleb. intros H.
  split; apply not_true_is_false; intros E; apply is_nan_spec in E;
    rewrite E in H; simpl in H.
  - discriminate.
  - destruct (Prim2SF a); discriminate.
Qed.

(** Only minus infinity is below or equal to minus infinity. *)
Lemma leb_neg_infinity (c : float) :
  (c <=? neg_infinity) = true -> c = neg_infinity.
Proof.
  rewrite leb_spec. unfold SFleb. intros H. apply Prim2SF_inj.
  change (Prim2SF neg_infinity) with (S754_infinity true) in *.
  destruct (Prim2SF c) as [s|s| |s m e]; simpl in H; try discriminate;
    destruct s; try discriminate; reflexivity.
Qed.

Lemma neg_infinity_leb (c : float) :
  is_nan c = false -> (neg_infinity <=? c) = true.
Proof.
  intros H. rewrite leb_spec. unfold SFleb.
  change (Prim2SF neg_infinity) with (S754_infinity true).
  assert (Prim2SF c <> S754_nan) as N
    by (intros E; apply is_nan_spec in E; congruence).
  destruct (Prim2SF c) as [s|s| |s m e]; simpl; try congruence.
  now destruct s.
Qed.

(** Subtracting zero changes nothing, NaN and the sign of zero included. *)
Lemma sub_zero (r : float) : r - 0 = r.
Proof.
  apply Prim2SF_inj. rewrite sub_spec.
  change (Prim2SF 0) with (S754_zero false).
  destruct (Prim2SF r) as [s|s| |s m e]; simpl; try reflexivity.
  now destruct s.
Qed.

(** A finite float is a zero or a signed mantissa with an exponent. *)
Lemma is_finite_spec (x : float) :
  is_finite x = true ->
  match Prim2SF x with
  | S754_zero _ | S754_finite _ _ _ => True
  | _ => False
  end.
Proof.
  unfold is_finite, is_infinity. rewrite negb_true_iff, orb_false_iff.
  intros [Hn Hi]. rewrite eqb_spec, abs_spec in Hi.
  change (Prim2SF infinity) with (S754_infinity false) in Hi.
  destruct (Prim2SF x) as [s|s| |s m e] eqn:E; simpl in *; auto.
  - discriminate.
  - assert (is_nan x = true) by now apply is_nan_spec. congruence.
Qed.

(** A finite float minus itself is zero. *)
Lemma sub_diag (x : float) : is_finite x = true -> x - x = 0.
Proof.
  intros H. apply is_finite_spec in H. apply Prim2SF_inj. rewrite sub_spec.
  change (Prim2SF 0) with (S754_zero false).
  destruct (Prim2SF x) as [s|s| |s m e]; try contradiction.
  - now destruct s.
  - cbv beta iota delta [SF64sub SFsub].
    cbv zeta. change IntDef.Z.sub with Z.sub.
    rewrite Z.sub_diag. reflexivity.
Qed.

(** What the rounding of a positive mantissa returns carries the sign it
    was given. *)
Lemma binary_round_aux_sign (s : bool) (m e : Z) (l : location) :
  match binary_round_aux prec emax s m e l with
  | S754_zero s' | S754_infinity s' | S754_finite s' _ _ => s' = s
  | S754_nan => True
  end.
Proof.
  unfold binary_round_aux.
  destruct (shr_fexp prec emax m e l) as [mrs' e'].
  destruct (shr_fexp prec emax _ e' loc_Exact) as [mrs'' e''].
  destruct (shr_m mrs''); [reflexivity| |exact I].
  now destruct (e'' <=? emax - prec)%Z.
Qed.

(** A square root is NaN or at least zero. *)
Lemma sqrt_nonneg (v : float) :
  is_nan (sqrt v) = true \/ (0 <=? sqrt v) = true.
Proof.
  rewrite is_nan_spec, leb_spec, sqrt_spec.
  change (Prim2SF 0) with (S754_zero false).
  unfold SF64sqrt, SFsqrt, SFleb.
  destruct (Prim2SF v) as [s|s| |s m e]; simpl; auto.
  - destruct s; auto.
  - destruct s; auto.
    destruct (SFsqrt_core_binary prec emax (Z.pos m) e) as [[mz ez] lz].
    pose proof (binary_round_aux_sign false mz ez lz) as H.
    destruct (binary_round_aux prec emax false mz ez lz); subst; auto.
Qed.

End float_facts.

(** * Rounding to binary64

    The operations of binary64 round an exact result, a mantissa and an
    exponent, to the nearest float.  The facts below describe that rounding
    well enough to compare its result with a float that bounds the exact
    result. *)

Module rounding_facts.

Import binary64 float_facts.

Local Open Scope Z_scope.

(** ** Digits *)

Lemma digits2_pos_bounds (p : positive) :
  2 ^ (Z.pos (digits2_pos p) - 1) <= Z.pos p < 2 ^ Z.pos (digits2_pos p).
Proof.
  induction p as [p IH|p IH|]; cbn [digits2_pos].
  - rewrite Pos2Z.inj_succ.
    replace (Z.succ (Z.pos (digits2_pos p)) - 1)
      with (Z.succ (Z.pos (digits2_pos p) - 1)) by lia.
    rewrite !Z.pow_succ_r by lia. lia.
  - rewrite Pos2Z.inj_succ.
    replace (Z.succ (Z.pos (digits2_pos p)) - 1)
      with (Z.succ (Z.pos (digits2_pos p) - 1)) by lia.
    rewrite !Z.pow_succ_r by lia. lia.
  - simpl. lia.
Qed.

Lemma digits2_pos_unique (p : positive) (d : Z) :
  2 ^ (d - 1) <= Z.pos p < 2 ^ d -> Z.pos (digits2_pos p) = d.
Proof.
  intros [Hl Hu]. pose proof (digits2_pos_bounds p) as [Bl Bu].
  assert (0 < d) as Hd.
  { destruct (Z.lt_ge_cases 0 d) as [|N]; [assumption|].
    assert (2 ^ d <= 2 ^ 0)
      by (destruct (Z.eq_dec d 0) as [->|];
          [lia|rewrite Z.pow_neg_r by lia; simpl; lia]).
    simpl in *. lia. }
  destruct (Z.lt_trichotomy (Z.pos (digits2_pos p)) d) as [L|[E|G]];
    [|assumption|].
  - assert (2 ^ Z.pos (digits2_pos p) <= 2 ^ (d - 1))
      by (apply Z.pow_le_mono_r; lia). lia.
  - assert (2 ^ d <= 2 ^ (Z.pos (digits2_pos p) - 1))
      by (apply Z.pow_le_mono_r; lia). lia.
Qed.

Lemma digits2_pos_le (p q : positive) :
  (p <= q)%positive -> Z.pos (digits2_pos p) <= Z.pos (digits2_pos q).
Proof.
  intros H. pose proof (digits2_pos_bounds p) as [Pl Pu].
  pose proof (digits2_pos_bounds q) as [Ql Qu].
  destruct (Z.le_gt_cases (Z.pos (digits2_pos p)) (Z.pos (digits2_pos q)))
    as [|G]; [assumption|].
  assert (2 ^ Z.pos (digits2_pos q) <= 2 ^ (Z.pos (digits2_pos p) - 1))
    by (apply Z.pow_le_mono_r; lia). lia.
Qed.

(** The digits of a mantissa shifted to the left. *)
Lemma digits2_pos_shift (p : positive) (k : positive) :
  Z.pos (digits2_pos (Pos.iter xO p k)) = Z.pos (digits2_pos p) + Z.pos k.
Proof.
  apply digits2_pos_unique.
  change (Pos.iter xO p k) with (shift_pos k p).
  rewrite shift_pos_correct, Z.pow_pos_fold.
  pose proof (digits2_pos_bounds p) as [Pl Pu].
  replace (Z.pos (digits2_pos p) + Z.pos k - 1)
    with ((Z.pos (digits2_pos p) - 1) + Z.pos k) by lia.
  rewrite !Z.pow_add_r by lia.
  assert (0 < 2 ^ Z.pos k) by (apply Z.pow_pos_nonneg; lia).
  nia.
Qed.


(** ** Shifting a mantissa to the right *)

Lemma nat_iter_plus {A : Type} (f : A -> A) (n m : nat) (x : A) :
  Nat.iter (n + m) f x = Nat.iter n f (Nat.iter m f x).
Proof. induction n as [|n IH]; simpl; [reflexivity|now rewrite IH]. Qed.

Lemma nat_iter_shift {A : Type} (f : A -> A) (n : nat) (x : A) :
  Nat.iter n f (f x) = f (Nat.iter n f x).
Proof. induction n as [|n IH]; simpl; [reflexivity|now rewrite IH]. Qed.

Lemma iter_pos_nat {A : Type} (f : A -> A) (p : positive) (x : A) :
  iter_pos f p x = Nat.iter (Pos.to_nat p) f x.
Proof.
  revert x. induction p as [p IH|p IH|]; intros x; cbn [iter_pos].
  - rewrite !IH, Pos2Nat.inj_xI.
    replace (S (2 * Pos.to_nat p))%nat
      with (Pos.to_nat p + S (Pos.to_nat p))%nat by lia.
    rewrite nat_iter_plus. cbn [Nat.iter]. now rewrite nat_iter_shift.
  - rewrite !IH, Pos2Nat.inj_xO.
    replace (2 * Pos.to_nat p)%nat
      with (Pos.to_nat p + Pos.to_nat p)%nat by lia.
    now rewrite nat_iter_plus.
  - reflexivity.
Qed.

Lemma shr_1_m (m : Z) (r s : bool) :
  0 <= m -> shr_m (shr_1 (Build_shr_record m r s)) = m / 2.
Proof.
  intros H. destruct m as [|[p|p|]|p]; try lia; cbn [shr_1 shr_m].
  - reflexivity.
  - rewrite Pos2Z.inj_xI. apply Z.div_unique with 1; lia.
  - rewrite Pos2Z.inj_xO. apply Z.div_unique with 0; lia.
  - reflexivity.
Qed.

(** After [k] shifts the mantissa is divided by [2^k]. *)
Lemma shr_iter_m (k : nat) (mrs : shr_record) :
  0 <= shr_m mrs ->
  shr_m (Nat.iter k shr_1 mrs) = shr_m mrs / 2 ^ Z.of_nat k.
Proof.
  intros H. induction k as [|k IH].
  - simpl. now rewrite Z.div_1_r.
  - change (Nat.iter (S k) shr_1 mrs) with (shr_1 (Nat.iter k shr_1 mrs)).
    destruct (Nat.iter k shr_1 mrs) as [m r s] eqn:E. cbn [shr_m] in IH.
    assert (0 <= m) by (rewrite IH; apply Z.div_pos; [assumption|];
                        apply Z.pow_pos_nonneg; lia).
    rewrite shr_1_m by assumption. rewrite IH.
    rewrite Nat2Z.inj_succ, Z.pow_succ_r by lia.
    rewrite Z.div_div by (try apply Z.pow_pos_nonneg; lia).
    f_equal. lia.
Qed.

(** Shifting out zeros only is exact. *)
Lemma shr_iter_exact (k : nat) (q : Z) :
  0 <= q ->
  Nat.iter k shr_1 (Build_shr_record (q * 2 ^ Z.of_nat k) false false)
  = Build_shr_record q false false.
Proof.
  revert q. induction k as [|k IH]; intros q Hq.
  - simpl. now rewrite Z.mul_1_r.
  - rewrite Nat2Z.inj_succ, Z.pow_succ_r by lia.
    replace (q * (2 * 2 ^ Z.of_nat k)) with ((2 * q) * 2 ^ Z.of_nat k) by lia.
    change (Nat.iter (S k) shr_1 ?x) with (shr_1 (Nat.iter k shr_1 x)).
    rewrite IH by lia.
    destruct q as [|q|q]; try lia; reflexivity.
Qed.

Lemma round_nearest_even_cases (q : Z) (l : location) :
  round_nearest_even q l = q \/ round_nearest_even q l = q + 1.
Proof.
  destruct l as [|[]]; simpl; auto. destruct (Z.even q); auto.
Qed.

Lemma shr_1_r (m : Z) (r s : bool) :
  0 <= m -> shr_r (shr_1 (Build_shr_record m r s)) = Z.odd m.
Proof.
  intros H. destruct m as [|[p|p|]|p]; try lia; reflexivity.
Qed.

(** The round bit after [k + 1] shifts is bit [k] of the mantissa. *)
Lemma shr_iter_r (k : nat) (mrs : shr_record) :
  0 <= shr_m mrs ->
  shr_r (Nat.iter (S k) shr_1 mrs) = Z.odd (shr_m mrs / 2 ^ Z.of_nat k).
Proof.
  intros H.
  change (Nat.iter (S k) shr_1 mrs) with (shr_1 (Nat.iter k shr_1 mrs)).
  pose proof (shr_iter_m k mrs H) as Hm.
  destruct (Nat.iter k shr_1 mrs) as [m r s]. cbn [shr_m] in Hm.
  rewrite shr_1_r; [now rewrite Hm|].
  rewrite Hm. apply Z.div_pos; [assumption|apply Z.pow_pos_nonneg; lia].
Qed.

(** A clear round bit rounds down. *)
Lemma round_nearest_even_down (mrs : shr_record) :
  shr_r mrs = false ->
  round_nearest_even (shr_m mrs) (loc_of_shr_record mrs) = shr_m mrs.
Proof. destruct mrs as [m r s]. simpl. intros ->. now destruct s. Qed.

(** ** The two stages of [binary_round_aux] *)

Lemma binary_round_aux_unfold (s : bool) (m e : Z) (l : location) :
  binary_round_aux prec emax s m e l
  = let '(mrs', e') := shr_fexp prec emax m e l in
    let '(mrs'', e'') :=
      shr_fexp prec emax
        (round_nearest_even (shr_m mrs') (loc_of_shr_record mrs')) e'
        loc_Exact in
    finish s (shr_m mrs'') e''.
Proof. reflexivity. Qed.

Lemma shr_fexp_noshift (m e : Z) (l : location) :
  fexp prec emax (Zdigits2 m + e) <= e ->
  shr_fexp prec emax m e l = (shr_record_of_loc m l, e).
Proof.
  intros H. unfold shr_fexp, shr.
  destruct (fexp prec emax (Zdigits2 m + e) - e) eqn:E; try reflexivity.
  lia.
Qed.

Lemma shr_fexp_shift (m e : Z) :
  e < fexp prec emax (Zdigits2 m + e) ->
  shr_fexp prec emax m e loc_Exact
  = (Nat.iter (Z.to_nat (fexp prec emax (Zdigits2 m + e) - e)) shr_1
       (Build_shr_record m false false),
     fexp prec emax (Zdigits2 m + e)).
Proof.
  intros H. unfold shr_fexp, shr.
  destruct (fexp prec emax (Zdigits2 m + e) - e) as [|n|n] eqn:E; try lia.
  rewrite iter_pos_nat. simpl shr_record_of_loc.
  f_equal. lia.
Qed.

(** The second stage: a rounded mantissa that reached [2^53] is halved. *)
Lemma second_stage (s : bool) (m1 E : Z) :
  -1074 <= E -> 0 <= m1 <= 2 ^ 53 ->
  (let '(mrs'', e'') := shr_fexp prec emax m1 E loc_Exact in
   finish s (shr_m mrs'') e'')
  = if m1 <? 2 ^ 53 then finish s m1 E else finish s (2 ^ 52) (E + 1).
Proof.
  intros HE Hm. destruct (m1 <? 2 ^ 53) eqn:L.
  - apply Z.ltb_lt in L. rewrite shr_fexp_noshift.
    + reflexivity.
    + destruct m1 as [|p|p]; try lia.
      * unfold fexp, emin, prec, emax. simpl Zdigits2. lia.
      * pose proof (digits2_pos_bounds p) as [Bl Bu].
        assert (Z.pos (digits2_pos p) <= 53).
        { destruct (Z.le_gt_cases (Z.pos (digits2_pos p)) 53); [assumption|].
          assert (2 ^ 53 <= 2 ^ (Z.pos (digits2_pos p) - 1))
            by (apply Z.pow_le_mono_r; lia). lia. }
        unfold fexp, emin, prec, emax. cbn [Zdigits2]. lia.
  - apply Z.ltb_ge in L. assert (m1 = 2 ^ 53) as -> by lia.
    unfold shr_fexp.
    replace (fexp prec emax (Zdigits2 (2 ^ 53) + E) - E) with 1
      by (change (Zdigits2 (2 ^ 53)) with 54;
          unfold fexp, emin, prec, emax; lia).
    reflexivity.
Qed.

(** [binary_round_aux] on an exact mantissa that needs no shift. *)
Lemma binary_round_aux_noshift (s : bool) (M : positive) (e : Z) :
  fexp prec emax (Z.pos (digits2_pos M) + e) <= e ->
  binary_round_aux prec emax s (Z.pos M) e loc_Exact = finish s (Z.pos M) e.
Proof.
  intros H. rewrite binary_round_aux_unfold.
  rewrite shr_fexp_noshift by exact H.
  cbn [shr_record_of_loc shr_m loc_of_shr_record round_nearest_even].
  pose proof (digits2_pos_bounds M) as [Bl Bu].
  assert (Z.pos (digits2_pos M) <= 53 /\ -1074 <= e) as [Hd He]
    by (unfold fexp, emin, prec, emax in H; lia).
  assert (Z.pos M < 2 ^ 53).
  { apply Z.lt_le_trans with (2 ^ Z.pos (digits2_pos M)); [assumption|].
    apply Z.pow_le_mono_r; lia. }
  rewrite second_stage by lia.
  replace (Z.pos M <? 2 ^ 53) with true by (symmetry; apply Z.ltb_lt; lia).
  reflexivity.
Qed.

(** [binary_round_aux] on an exact mantissa that is shifted to the right by
    [n] places: the quotient [q] is rounded to [q] or [q + 1], and to [q]
    when the remainder is below one half. *)
Lemma binary_round_aux_shift (s : bool) (M : positive) (e : Z) :
  let E := fexp prec emax (Z.pos (digits2_pos M) + e) in
  let q := Z.pos M / 2 ^ (E - e) in
  e < E ->
  exists m1,
    binary_round_aux prec emax s (Z.pos M) e loc_Exact
    = (if m1 <? 2 ^ 53 then finish s m1 E else finish s (2 ^ 52) (E + 1)) /\
    (m1 = q \/ m1 = q + 1) /\
    (Z.pos M = q * 2 ^ (E - e) -> m1 = q) /\
    (2 * (Z.pos M mod 2 ^ (E - e)) < 2 ^ (E - e) -> m1 = q) /\
    0 <= q < 2 ^ 53.
Proof.
  intros E q H. rewrite binary_round_aux_unfold.
  rewrite shr_fexp_shift by exact H.
  change (Zdigits2 (Z.pos M)) with (Z.pos (digits2_pos M)).
  fold E. cbv beta iota.
  set (mrs' := Nat.iter (Z.to_nat (E - e)) shr_1
                 (Build_shr_record (Z.pos M) false false)).
  assert (shr_m mrs' = q) as Hq.
  { unfold mrs'. rewrite shr_iter_m by (simpl; lia).
    cbn [shr_m]. unfold q. now rewrite Z2Nat.id by lia. }
  assert (0 < 2 ^ (E - e)) as Hpow by (apply Z.pow_pos_nonneg; lia).
  assert (0 <= q < 2 ^ 53) as Bq.
  { pose proof (digits2_pos_bounds M) as [Bl Bu].
    split; [apply Z.div_pos; lia|].
    apply Z.div_lt_upper_bound; [assumption|].
    rewrite <- Z.pow_add_r by lia.
    apply Z.lt_le_trans with (2 ^ Z.pos (digits2_pos M)); [assumption|].
    apply Z.pow_le_mono_r; [lia|].
    unfold E, fexp, emin, prec, emax. lia. }
  assert (2 * (Z.pos M mod 2 ^ (E - e)) < 2 ^ (E - e) ->
          round_nearest_even q (loc_of_shr_record mrs') = q) as Hdown.
  { intros Hrem. rewrite <- Hq. apply round_nearest_even_down.
    unfold mrs'.
    replace (Z.to_nat (E - e)) with (S (Z.to_nat (E - e - 1))) by lia.
    rewrite shr_iter_r by (simpl; lia). cbn [shr_m].
    rewrite Z2Nat.id by lia.
    replace (Z.pos M / 2 ^ (E - e - 1)) with (2 * q);
      [now rewrite Z.odd_mul|].
    pose proof (Z.div_mod (Z.pos M) (2 ^ (E - e)) ltac:(lia)) as D.
    fold q in D.
    pose proof (Z.mod_pos_bound (Z.pos M) (2 ^ (E - e)) Hpow) as B.
    assert (2 ^ (E - e) = 2 * 2 ^ (E - e - 1)) as P2
      by (rewrite <- Z.pow_succ_r by lia; f_equal; lia).
    apply Z.div_unique with (Z.pos M mod 2 ^ (E - e)); [lia|].
    rewrite P2 in D at 1. lia. }
  exists (round_nearest_even q (loc_of_shr_record mrs')).
  pose proof (round_nearest_even_cases q (loc_of_shr_record mrs')) as C.
  rewrite Hq.
  split; [|split; [exact C|split; [|split; [exact Hdown|exact Bq]]]].
  - apply second_stage; [unfold E, fexp, emin, prec, emax; lia|].
    destruct C as [-> | ->]; lia.
  - intros Hex. apply Hdown.
    rewrite Hex, Z.mod_mul by lia. lia.
Qed.

(** ** [binary_round] *)

Lemma binary_round_shl (s : bool) (M : positive) (e : Z) :
  let E := fexp prec emax (Z.pos (digits2_pos M) + e) in
  E < e ->
  exists mz,
    binary_round prec emax s M e = finish s (Z.pos mz) E /\
    Z.pos mz = Z.pos M * 2 ^ (e - E).
Proof.
  intros E H. unfold binary_round, shl_align. fold E.
  destruct (E - e) as [|d|d] eqn:D; try lia.
  exists (Pos.iter xO M d). split.
  - apply binary_round_aux_noshift.
    rewrite digits2_pos_shift.
    replace (Z.pos (digits2_pos M) + Z.pos d + E)
      with (Z.pos (digits2_pos M) + e) by lia.
    fold E. lia.
  - change (Pos.iter xO M d) with (shift_pos d M).
    rewrite shift_pos_correct, Z.pow_pos_fold.
    replace (e - E) with (Z.pos d) by lia. lia.
Qed.

Lemma binary_round_noshl (s : bool) (M : positive) (e : Z) :
  e <= fexp prec emax (Z.pos (digits2_pos M) + e) ->
  binary_round prec emax s M e
  = binary_round_aux prec emax s (Z.pos M) e loc_Exact.
Proof.
  intros H. unfold binary_round, shl_align.
  destruct (fexp prec emax (Z.pos (digits2_pos M) + e) - e) eqn:D;
    try reflexivity.
  lia.
Qed.

(** ** Rounding against a representable bound *)

Lemma bounded_spec (mr : positive) (er : Z) :
  bounded prec emax mr er = true ->
  fexp prec emax (Z.pos (digits2_pos mr) + er) = er /\ er <= 971.
Proof.
  unfold bounded, canonical_mantissa. intros H.
  apply andb_true_iff in H as [H1 H2].
  apply Z.eqb_eq in H1. apply Z.leb_le in H2.
  unfold emax, prec in H2. split; [assumption|lia].
Qed.

Lemma fexp_le (p p' : Z) : p <= p' -> fexp prec emax p <= fexp prec emax p'.
Proof. unfold fexp, emin, prec, emax. lia. Qed.

Lemma finish_pos (s : bool) (p : positive) (e : Z) :
  e <= 971 -> finish s (Z.pos p) e = S754_finite s p e.
Proof.
  intros H. unfold finish, emax, prec.
  replace (e <=? 1024 - 53) with true by (symmetry; apply Z.leb_le; lia).
  reflexivity.
Qed.

(** Cancelling a common power of two. *)
Lemma scaled_le (a b x y K : Z) :
  0 <= x + K -> 0 <= y + K -> y <= x ->
  (a * 2 ^ (x + K) <= b * 2 ^ (y + K) <-> a * 2 ^ (x - y) <= b).
Proof.
  intros Hx Hy Hxy.
  replace (x + K) with ((x - y) + (y + K)) by lia.
  rewrite (Z.pow_add_r 2 (x - y) (y + K)) by lia.
  assert (0 < 2 ^ (y + K)) by (apply Z.pow_pos_nonneg; lia).
  rewrite Z.mul_assoc. symmetry. now apply Z.mul_le_mono_pos_r.
Qed.

Lemma scaled_le' (a b x y K : Z) :
  0 <= x + K -> 0 <= y + K -> x <= y ->
  (a * 2 ^ (x + K) <= b * 2 ^ (y + K) <-> a <= b * 2 ^ (y - x)).
Proof.
  intros Hx Hy Hxy.
  replace (y + K) with ((y - x) + (x + K)) by lia.
  rewrite (Z.pow_add_r 2 (y - x) (x + K)) by lia.
  assert (0 < 2 ^ (x + K)) by (apply Z.pow_pos_nonneg; lia).
  rewrite Z.mul_assoc. symmetry. now apply Z.mul_le_mono_pos_r.
Qed.

Lemma scaled_lt (a b x y K : Z) :
  0 <= x + K -> 0 <= y + K -> y <= x ->
  (a * 2 ^ (x + K) < b * 2 ^ (y + K) <-> a * 2 ^ (x - y) < b).
Proof.
  intros Hx Hy Hxy.
  replace (x + K) with ((x - y) + (y + K)) by lia.
  rewrite (Z.pow_add_r 2 (x - y) (y + K)) by lia.
  assert (0 < 2 ^ (y + K)) by (apply Z.pow_pos_nonneg; lia).
  rewrite Z.mul_assoc. symmetry. now apply Z.mul_lt_mono_pos_r.
Qed.

Lemma scaled_lt' (a b x y K : Z) :
  0 <= x + K -> 0 <= y + K -> x <= y ->
  (a * 2 ^ (x + K) < b * 2 ^ (y + K) <-> a < b * 2 ^ (y - x)).
Proof.
  intros Hx Hy Hxy.
  replace (y + K) with ((y - x) + (x + K)) by lia.
  rewrite (Z.pow_add_r 2 (y - x) (x + K)) by lia.
  assert (0 < 2 ^ (x + K)) by (apply Z.pow_pos_nonneg; lia).
  rewrite Z.mul_assoc. symmetry. now apply Z.mul_lt_mono_pos_r.
Qed.

(** The exponents of two mantissas whose values are ordered. *)
Lemma digits_of_le (M mr : positive) (ez er K : Z) :
  0 <= ez + K -> 0 <= er + K ->
  Z.pos M * 2 ^ (ez + K) <= Z.pos mr * 2 ^ (er + K) ->
  Z.pos (digits2_pos M) + ez <= Z.pos (digits2_pos mr) + er.
Proof.
  intros Hz Hr H.
  pose proof (digits2_pos_bounds M) as [Ml Mu].
  pose proof (digits2_pos_bounds mr) as [Rl Ru].
  set (dM := Z.pos (digits2_pos M)) in *.
  set (dr := Z.pos (digits2_pos mr)) in *.
  assert (0 < dM /\ 0 < dr) as [? ?] by (unfold dM, dr; lia).
  assert (0 < 2 ^ (ez + K)) by (apply Z.pow_pos_nonneg; lia).
  assert (0 < 2 ^ (er + K)) by (apply Z.pow_pos_nonneg; lia).
  destruct (Z.le_gt_cases (dM + ez) (dr + er)) as [|G]; [assumption|].
  assert (2 ^ (dM - 1) * 2 ^ (ez + K) <= Z.pos M * 2 ^ (ez + K))
    by (apply Z.mul_le_mono_nonneg_r; lia).
  assert (Z.pos mr * 2 ^ (er + K) < 2 ^ dr * 2 ^ (er + K))
    by (apply Z.mul_lt_mono_pos_r; lia).
  assert (2 ^ dr * 2 ^ (er + K) <= 2 ^ (dM - 1) * 2 ^ (ez + K))
    by (rewrite <- !Z.pow_add_r by lia; apply Z.pow_le_mono_r; lia).
  lia.
Qed.

(** A mantissa whose value is at most that of a float rounds to a float
    that is not above it. *)
Lemma binary_round_le (s : bool) (M mr : positive) (ez er K : Z) :
  bounded prec emax mr er = true ->
  0 <= ez + K -> 0 <= er + K ->
  Z.pos M * 2 ^ (ez + K) <= Z.pos mr * 2 ^ (er + K) ->
  mag_le (binary_round prec emax s M ez) mr er.
Proof.
  intros Hb Kz Kr HM.
  pose proof (digits_of_le M mr ez er K Kz Kr HM) as Hp.
  apply bounded_spec in Hb as [Hc Hmax].
  pose proof (digits2_pos_bounds mr) as [Rl Ru].
  set (dM := Z.pos (digits2_pos M)) in *.
  set (dr := Z.pos (digits2_pos mr)) in *.
  pose proof (fexp_le _ _ Hp) as HE. rewrite Hc in HE.
  set (E := fexp prec emax (dM + ez)) in *.
  destruct (Z.lt_trichotomy E ez) as [L|[Eq|G]].
  - destruct (binary_round_shl s M ez L) as (mz & -> & Vz).
    fold dM in Vz |- *. fold E in Vz |- *.
    rewrite finish_pos by lia. simpl.
    destruct (Z.eq_dec E er) as [Eer|N]; [right|left; lia].
    split; [assumption|]. rewrite Eer in Vz.
    apply (scaled_le (Z.pos M) (Z.pos mr) ez er K) in HM; lia.
  - rewrite binary_round_noshl by (fold dM; fold E; lia).
    rewrite binary_round_aux_noshift by (fold dM; fold E; lia).
    rewrite finish_pos by lia. simpl.
    destruct (Z.eq_dec ez er) as [->|N]; [right|left; lia].
    split; [reflexivity|].
    apply (scaled_le (Z.pos M) (Z.pos mr) er er K) in HM; try lia.
    rewrite Z.sub_diag, Z.mul_1_r in HM. exact HM.
  - rewrite binary_round_noshl by (fold dM; fold E; lia).
    destruct (binary_round_aux_shift s M ez G)
      as (m1 & -> & C & Hex & _ & Bq).
    fold dM in C, Hex, Bq |- *. fold E in C, Hex, Bq |- *.
    set (q := Z.pos M / 2 ^ (E - ez)) in *.
    assert (0 < 2 ^ (E - ez)) as HpowE by (apply Z.pow_pos_nonneg; lia).
    destruct (Z.eq_dec E er) as [Eer|Ner].
    + apply (scaled_le' (Z.pos M) (Z.pos mr) ez er K) in HM; try lia.
      assert (q <= Z.pos mr) as Hq.
      { unfold q. apply Z.lt_succ_r. apply Z.div_lt_upper_bound;
          [assumption|]. rewrite Eer. nia. }
      assert (m1 <= Z.pos mr) as Hm1.
      { destruct (Z.eq_dec q (Z.pos mr)) as [Hqe|Hqn].
        - rewrite Hex; [lia|].
          pose proof (Z.mul_div_le (Z.pos M) (2 ^ (E - ez)) HpowE) as D.
          fold q in D. rewrite Eer in *. nia.
        - destruct C; lia. }
      assert (Z.pos mr < 2 ^ 53).
      { apply Z.lt_le_trans with (2 ^ dr); [assumption|].
        apply Z.pow_le_mono_r; [lia|].
        unfold fexp, emin, prec, emax in Hc. lia. }
      replace (m1 <? 2 ^ 53) with true by (symmetry; apply Z.ltb_lt; lia).
      destruct m1 as [|p1|p1]; try (destruct C; lia).
      * exact I.
      * rewrite finish_pos by lia. simpl. right. split; [assumption|].
        exact Hm1.
    + destruct (m1 <? 2 ^ 53) eqn:L.
      * destruct m1 as [|p1|p1]; try (destruct C; lia).
        -- exact I.
        -- rewrite finish_pos by lia. simpl. left. lia.
      * change (2 ^ 52) with (Z.pos 4503599627370496).
        rewrite finish_pos by lia. simpl.
        destruct (Z.eq_dec (E + 1) er) as [E1|N1]; [right|left; lia].
        split; [assumption|].
        assert (dr = 53)
          by (unfold E, fexp, emin, prec, emax in *; lia).
        assert (2 ^ 52 <= Z.pos mr) by (replace 52 with (dr - 1) by lia; lia).
        change (2 ^ 52) with (Z.pos 4503599627370496) in *. lia.
Qed.

(** A mantissa whose value is at least that of a float rounds to a float
    that is not below it, or overflows. *)
Lemma binary_round_ge (s : bool) (M mr : positive) (ez er K : Z) :
  bounded prec emax mr er = true ->
  0 <= ez + K -> 0 <= er + K ->
  Z.pos mr * 2 ^ (er + K) <= Z.pos M * 2 ^ (ez + K) ->
  mag_ge (binary_round prec emax s M ez) mr er.
Proof.
  intros Hb Kz Kr HM.
  pose proof (digits_of_le mr M er ez K Kr Kz HM) as Hp.
  apply bounded_spec in Hb as [Hc Hmax].
  pose proof (digits2_pos_bounds M) as [Ml Mu].
  set (dM := Z.pos (digits2_pos M)) in *.
  set (dr := Z.pos (digits2_pos mr)) in *.
  pose proof (fexp_le _ _ Hp) as HE. rewrite Hc in HE.
  set (E := fexp prec emax (dM + ez)) in *.
  destruct (Z.lt_trichotomy E ez) as [L|[Eq|G]].
  - destruct (binary_round_shl s M ez L) as (mz & -> & Vz).
    fold dM in Vz |- *. fold E in Vz |- *.
    unfold finish. destruct (E <=? emax - prec); simpl; auto.
    destruct (Z.eq_dec E er) as [Eer|N]; [right|left; lia].
    split; [assumption|]. rewrite Eer in Vz.
    apply (scaled_le' (Z.pos mr) (Z.pos M) er ez K) in HM; lia.
  - rewrite binary_round_noshl by (fold dM; fold E; lia).
    rewrite binary_round_aux_noshift by (fold dM; fold E; lia).
    unfold finish. destruct (ez <=? emax - prec); simpl; auto.
    destruct (Z.eq_dec ez er) as [->|N]; [right|left; lia].
    split; [reflexivity|].
    apply (scaled_le (Z.pos mr) (Z.pos M) er er K) in HM; try lia.
    rewrite Z.sub_diag, Z.mul_1_r in HM. exact HM.
  - rewrite binary_round_noshl by (fold dM; fold E; lia).
    destruct (binary_round_aux_shift s M ez G)
      as (m1 & -> & C & Hex & _ & Bq).
    fold dM in C, Hex, Bq |- *. fold E in C, Hex, Bq |- *.
    set (q := Z.pos M / 2 ^ (E - ez)) in *.
    assert (0 < 2 ^ (E - ez)) as HpowE by (apply Z.pow_pos_nonneg; lia).
    assert (0 < q /\ (E = er -> Z.pos mr <= q)) as [Hq0 Hq].
    { destruct (Z.eq_dec E er) as [Eer|Ner].
      - assert (Z.pos mr <= q); [|split; [lia|auto]].
        apply (scaled_le (Z.pos mr) (Z.pos M) er ez K) in HM; try lia.
        unfold q. apply Z.div_le_lower_bound; [assumption|].
        rewrite Eer. lia.
      - split; [|lia].
        assert (E = dM + ez - 53)
          by (unfold E, fexp, emin, prec, emax in *; lia).
        assert (2 ^ 52 <= q); [|lia].
        unfold q. apply Z.div_le_lower_bound; [assumption|].
        rewrite <- Z.pow_add_r by lia.
        replace (E - ez + 52) with (dM - 1) by lia. exact Ml. }
    destruct (m1 <? 2 ^ 53) eqn:L.
    + destruct m1 as [|p1|p1]; try (destruct C; lia).
      unfold finish. destruct (E <=? emax - prec); simpl; auto.
      destruct (Z.eq_dec E er) as [Eer|Ner]; [right|left; lia].
      split; [assumption|]. specialize (Hq Eer). destruct C; lia.
    + change (2 ^ 52) with (Z.pos 4503599627370496).
      unfold finish. destruct (E + 1 <=? emax - prec); simpl; auto.
      left. lia.
Qed.

(** ** Aligned mantissas *)

Lemma shl_align_value (m : positive) (e ez : Z) :
  ez <= e -> Z.pos (fst (shl_align m e ez)) = Z.pos m * 2 ^ (e - ez).
Proof.
  intros H. unfold shl_align.
  destruct (ez - e) as [|d|d] eqn:D; try lia; cbn [fst].
  - replace (e - ez) with 0 by lia. lia.
  - change (Pos.iter xO m d) with (shift_pos d m).
    rewrite shift_pos_correct, Z.pow_pos_fold.
    replace (e - ez) with (Z.pos d) by lia. lia.
Qed.

Lemma binary_round_sign (s : bool) (M : positive) (e : Z) :
  match binary_round prec emax s M e with
  | S754_zero s' | S754_infinity s' | S754_finite s' _ _ => s' = s
  | S754_nan => True
  end.
Proof.
  unfold binary_round.
  destruct (shl_align M e _) as [mz ez].
  unfold binary_round_aux.
  destruct (shr_fexp prec emax (Z.pos mz) ez loc_Exact) as [mrs' e'].
  destruct (shr_fexp prec emax _ e' loc_Exact) as [mrs'' e''].
  destruct (shr_m mrs''); [reflexivity| |exact I].
  now destruct (e'' <=? emax - prec).
Qed.

(** From magnitudes to the order of floats, sign by sign. *)
Lemma SFleb_mag_le_pos (x : spec_float) (mr : positive) (er : Z) :
  match x with
  | S754_zero s' | S754_infinity s' | S754_finite s' _ _ => s' = false
  | S754_nan => True
  end ->
  mag_le x mr er -> SFleb x (S754_finite false mr er) = true.
Proof.
  destruct x as [s|s| |s m e]; simpl; try contradiction; intros -> H;
    unfold SFleb; simpl; [reflexivity|].
  destruct H as [H|[-> H]].
  - now rewrite (proj2 (Z.compare_lt_iff e er) H).
  - rewrite Z.compare_refl.
    change (PosDef.Pos.compare_cont Eq m mr) with (m ?= mr)%positive.
    destruct (Pos.compare_spec m mr); try reflexivity. lia.
Qed.

Lemma SFleb_mag_ge_pos (x : spec_float) (mr : positive) (er : Z) :
  match x with
  | S754_zero s' | S754_infinity s' | S754_finite s' _ _ => s' = false
  | S754_nan => True
  end ->
  mag_ge x mr er -> SFleb (S754_finite false mr er) x = true.
Proof.
  destruct x as [s|s| |s m e]; simpl; try contradiction; intros -> H;
    unfold SFleb; simpl; [reflexivity|].
  destruct H as [H|[-> H]].
  - now rewrite (proj2 (Z.compare_lt_iff er e) H).
  - rewrite Z.compare_refl.
    change (PosDef.Pos.compare_cont Eq mr m) with (mr ?= m)%positive.
    destruct (Pos.compare_spec mr m); try reflexivity. lia.
Qed.

Lemma SFleb_mag_ge_neg (x : spec_float) (mr : positive) (er : Z) :
  match x with
  | S754_zero s' | S754_infinity s' | S754_finite s' _ _ => s' = true
  | S754_nan => True
  end ->
  mag_ge x mr er -> SFleb x (S754_finite true mr er) = true.
Proof.
  destruct x as [s|s| |s m e]; simpl; try contradiction; intros -> H;
    unfold SFleb; simpl; [reflexivity|].
  destruct H as [H|[-> H]].
  - now rewrite (proj2 (Z.compare_gt_iff e er) H).
  - rewrite Z.compare_refl.
    change (PosDef.Pos.compare_cont Eq m mr) with (m ?= mr)%positive.
    destruct (Pos.compare_spec m mr); try reflexivity. lia.
Qed.

Lemma SFleb_mag_le_neg (x : spec_float) (mr : positive) (er : Z) :
  match x with
  | S754_zero s' | S754_infinity s' | S754_finite s' _ _ => s' = true
  | S754_nan => True
  end ->
  mag_le x mr er -> SFleb (S754_finite true mr er) x = true.
Proof.
  destruct x as [s|s| |s m e]; simpl; try contradiction; intros -> H;
    unfold SFleb; simpl; [reflexivity|].
  destruct H as [H|[-> H]].
  - now rewrite (proj2 (Z.compare_gt_iff er e) H).
  - rewrite Z.compare_refl.
    change (PosDef.Pos.compare_cont Eq mr m) with (mr ?= m)%positive.
    destruct (Pos.compare_spec mr m); try reflexivity. lia.
Qed.

(** ** Canonical floats *)

Lemma bounded_mantissa (m : positive) (e : Z) :
  bounded prec emax m e = true ->
  Z.pos m < 2 ^ 53 /\ (-1074 < e -> 2 ^ 52 <= Z.pos m) /\ -1074 <= e <= 971.
Proof.
  intros H. apply bounded_spec in H as [Hc Hmax].
  pose proof (digits2_pos_bounds m) as [Bl Bu].
  unfold fexp, emin, prec, emax in Hc.
  assert (Z.pos (digits2_pos m) <= 53) as Hd by lia.
  split; [|split; [|lia]].
  - apply Z.lt_le_trans with (2 ^ Z.pos (digits2_pos m)); [assumption|].
    apply Z.pow_le_mono_r; lia.
  - intros He. assert (Z.pos (digits2_pos m) = 53) as E53 by lia.
    rewrite E53 in Bl. exact Bl.
Qed.

(** The mantissas of two floats, aligned to their smaller exponent and with
    their signs, compare as the floats do. *)
Lemma SFcompare_aligned (sa sb : bool) (ma mb : positive) (ea eb : Z) :
  bounded prec emax ma ea = true -> bounded prec emax mb eb = true ->
  let ez := Z.min ea eb in
  SFcompare (S754_finite sa ma ea) (S754_finite sb mb eb)
  = Some (cond_Zopp sa (Z.pos ma * 2 ^ (ea - ez))
          ?= cond_Zopp sb (Z.pos mb * 2 ^ (eb - ez))).
Proof.
  intros Ha Hb ez.
  apply bounded_mantissa in Ha as (Ua & La & Ra).
  apply bounded_mantissa in Hb as (Ub & Lb & Rb).
  assert (0 < 2 ^ (ea - ez)) by (apply Z.pow_pos_nonneg; lia).
  assert (0 < 2 ^ (eb - ez)) by (apply Z.pow_pos_nonneg; lia).
  assert (ea < eb -> Z.pos ma * 2 ^ (ea - ez) < Z.pos mb * 2 ^ (eb - ez))
    as Hlt.
  { intros L. replace (ea - ez) with 0 by lia.
    assert (2 ^ 1 <= 2 ^ (eb - ez)) by (apply Z.pow_le_mono_r; lia).
    change (2 ^ 1) with 2 in *. change (2 ^ 0) with 1.
    specialize (Lb ltac:(lia)). nia. }
  assert (eb < ea -> Z.pos mb * 2 ^ (eb - ez) < Z.pos ma * 2 ^ (ea - ez))
    as Hgt.
  { intros L. replace (eb - ez) with 0 by lia.
    assert (2 ^ 1 <= 2 ^ (ea - ez)) by (apply Z.pow_le_mono_r; lia).
    change (2 ^ 1) with 2 in *. change (2 ^ 0) with 1.
    specialize (La ltac:(lia)). nia. }
  unfold SFcompare. f_equal.
  change (PosDef.Pos.compare_cont Eq ma mb) with (Z.pos ma ?= Z.pos mb).
  destruct sa, sb; cbn [cond_Zopp]; symmetry.
  - destruct (Z.compare_spec ea eb) as [E|L|G].
    + replace (ea - ez) with 0 by lia. replace (eb - ez) with 0 by lia.
      rewrite !Z.pow_0_r, !Z.mul_1_r. rewrite <- Z.compare_opp.
      now rewrite Z.compare_antisym.
    + apply Z.compare_gt_iff. specialize (Hlt L). lia.
    + apply Z.compare_lt_iff. specialize (Hgt G). lia.
  - apply Z.compare_lt_iff. lia.
  - apply Z.compare_gt_iff. lia.
  - destruct (Z.compare_spec ea eb) as [E|L|G].
    + replace (ea - ez) with 0 by lia. replace (eb - ez) with 0 by lia.
      now rewrite !Z.pow_0_r, !Z.mul_1_r.
    + apply Z.compare_lt_iff. auto.
    + apply Z.compare_gt_iff. specialize (Hgt G). lia.
Qed.

(** A positive mantissa at an exponent of the format rounds to a float that
    is not zero and not NaN. *)
Lemma binary_round_nonzero (s : bool) (M : positive) (e : Z) :
  -1074 <= e ->
  match binary_round prec emax s M e with
  | S754_finite s' _ _ | S754_infinity s' => s' = s
  | _ => False
  end.
Proof.
  intros He.
  set (E := fexp prec emax (Z.pos (digits2_pos M) + e)).
  destruct (Z.lt_trichotomy E e) as [L|[Eq|G]].
  - destruct (binary_round_shl s M e L) as (mz & -> & _).
    unfold finish. now destruct (_ <=? _).
  - rewrite binary_round_noshl by (fold E; lia).
    rewrite binary_round_aux_noshift by (fold E; lia).
    unfold finish. now destruct (_ <=? _).
  - rewrite binary_round_noshl by (fold E; lia).
    destruct (binary_round_aux_shift s M e G) as (m1 & -> & C & _ & _ & Bq).
    fold E in C, Bq |- *.
    set (q := Z.pos M / 2 ^ (E - e)) in *.
    assert (2 ^ 52 <= q) as Hq.
    { pose proof (digits2_pos_bounds M) as [Bl Bu].
      assert (E = Z.pos (digits2_pos M) + e - 53)
        by (unfold E, fexp, emin, prec, emax in *; lia).
      unfold q. apply Z.div_le_lower_bound;
        [apply Z.pow_pos_nonneg; lia|].
      rewrite <- Z.pow_add_r by lia.
      replace (E - e + 52) with (Z.pos (digits2_pos M) - 1) by lia.
      exact Bl. }
    change (2 ^ 52) with 4503599627370496 in *.
    destruct (m1 <? 2 ^ 53).
    + destruct m1 as [|p1|p1]; try (destruct C; lia).
      unfold finish. now destruct (_ <=? _).
    + unfold finish. now destruct (_ <=? _).
Qed.


(** ** The sign of a difference *)

(** A difference is positive exactly when the subtrahend is below the
    minuend, and negative exactly when it is above: gradual underflow keeps
    the difference of two distinct floats away from zero. *)
Lemma SFsub_sign (r d : spec_float) :
  valid_binary r = true -> valid_binary d = true ->
  SFltb (S754_zero false) (SF64sub r d) = SFltb d r /\
  SFltb (SF64sub r d) (S754_zero false) = SFltb r d.
Proof.
  intros Vr Vd. unfold SF64sub, SFltb.
  destruct r as [sr|sr| |sr mr er], d as [sd|sd| |sd md ed];
    try (split; reflexivity);
    try (destruct sr; split; reflexivity);
    try (destruct sd; split; reflexivity);
    try (destruct sr, sd; split; reflexivity).
  simpl in Vr, Vd.
  rewrite (SFcompare_aligned sd sr md mr ed er Vd Vr).
  rewrite (SFcompare_aligned sr sd mr md er ed Vr Vd).
  rewrite (Z.min_comm ed er).
  unfold SFsub.
  change IntDef.Z.min with Z.min. change IntDef.Z.sub with Z.sub.
  set (ez := Z.min er ed).
  assert (ez <= er /\ ez <= ed) as [Hr Hd] by (unfold ez; lia).
  pose proof (bounded_mantissa _ _ Vr) as (_ & _ & Rr).
  pose proof (bounded_mantissa _ _ Vd) as (_ & _ & Rd).
  rewrite (shl_align_value mr er ez Hr), (shl_align_value md ed ez Hd).
  set (A := cond_Zopp sr (Z.pos mr * 2 ^ (er - ez))).
  set (B := cond_Zopp sd (Z.pos md * 2 ^ (ed - ez))).
  cbv zeta.
  destruct (A - B) as [|M|M] eqn:EM; cbn [binary_normalize].
  - replace (B ?= A) with Eq by (symmetry; apply Z.compare_eq_iff; lia).
    replace (A ?= B) with Eq by (symmetry; apply Z.compare_eq_iff; lia).
    split; reflexivity.
  - replace (B ?= A) with Lt by (symmetry; apply Z.compare_lt_iff; lia).
    replace (A ?= B) with Gt by (symmetry; apply Z.compare_gt_iff; lia).
    pose proof (binary_round_nonzero false M ez ltac:(lia)) as N.
    destruct (binary_round prec emax false M ez) as [s'|s'| |s' m' e'];
      try contradiction; subst; split; reflexivity.
  - replace (B ?= A) with Gt by (symmetry; apply Z.compare_gt_iff; lia).
    replace (A ?= B) with Lt by (symmetry; apply Z.compare_lt_iff; lia).
    pose proof (binary_round_nonzero true M ez ltac:(lia)) as N.
    destruct (binary_round prec emax true M ez) as [s'|s'| |s' m' e'];
      try contradiction; subst; split; reflexivity.
Qed.


(** ** Sums and products of floats that are at least zero *)

Lemma SFleb_refl_finite (s : bool) (m : positive) (e : Z) :
  SFleb (S754_finite s m e) (S754_finite s m e) = true.
Proof.
  unfold SFleb. simpl. rewrite Z.compare_refl.
  change (PosDef.Pos.compare_cont Eq m m) with (m ?= m)%positive.
  rewrite Pos.compare_refl. now destruct s.
Qed.

(** The product of two floats that are at least zero is at least zero. *)
Lemma SFmul_nonneg (u w : spec_float) :
  SFleb (S754_zero false) u = true -> SFleb (S754_zero false) w = true ->
  SF64mul u w = S754_nan \/ SFleb (S754_zero false) (SF64mul u w) = true.
Proof.
  intros Hu Hw. unfold SF64mul.
  destruct u as [su|su| |su mu eu]; try discriminate;
    destruct w as [sw|sw| |sw mw ew]; try discriminate;
    try (destruct su; try discriminate);
    try (destruct sw; try discriminate);
    simpl; auto.
  pose proof (binary_round_aux_sign false (Z.pos (mu * mw)) (eu + ew)
                loc_Exact) as H.
  change (IntDef.Z.add eu ew) with (eu + ew).
  destruct (binary_round_aux prec emax false (Z.pos (mu * mw)) (eu + ew)
              loc_Exact) as [s'|s'| |s' m' e']; subst; auto.
Qed.


(** [binary_round] never returns NaN, and what it returns has the sign it
    was given. *)
Lemma binary_round_signed (s : bool) (M : positive) (e : Z) :
  match binary_round prec emax s M e with
  | S754_zero s' | S754_infinity s' | S754_finite s' _ _ => s' = s
  | S754_nan => False
  end.
Proof.
  set (E := fexp prec emax (Z.pos (digits2_pos M) + e)).
  assert (forall m x, 0 <= m ->
            match finish s m x with
            | S754_zero s' | S754_infinity s' | S754_finite s' _ _ => s' = s
            | S754_nan => False
            end) as F.
  { intros m x Hm. unfold finish. destruct m; try lia; [reflexivity|].
    now destruct (_ <=? _). }
  destruct (Z.lt_trichotomy E e) as [L|[Eq|G]].
  - destruct (binary_round_shl s M e L) as (mz & -> & _). apply F. lia.
  - rewrite binary_round_noshl by (fold E; lia).
    rewrite binary_round_aux_noshift by (fold E; lia). apply F. lia.
  - rewrite binary_round_noshl by (fold E; lia).
    destruct (binary_round_aux_shift s M e G) as (m1 & -> & C & _ & _ & Bq).
    destruct (m1 <? 2 ^ 53); apply F; [destruct C; lia|].
    change (2 ^ 52) with 4503599627370496. lia.
Qed.

(** ** The value of a finite float

    A finite float with mantissa [m] and exponent [e] is worth [m * 2^e];
    every exponent is at least [-1074], so that [2^1074] times the value is
    an integer. *)

Lemma cond_Zopp_mul (s : bool) (a b : Z) :
  cond_Zopp s a * b = cond_Zopp s (a * b).
Proof. destruct s; cbn [cond_Zopp]; change IntDef.Z.opp with Z.opp; lia. Qed.

Lemma aligned_value (s : bool) (m : positive) (e ez : Z) :
  -1074 <= ez -> ez <= e ->
  cond_Zopp s (Z.pos m * 2 ^ (e - ez)) * 2 ^ (ez + 1074)
  = SFvalue (S754_finite s m e).
Proof.
  intros H1 H2. rewrite cond_Zopp_mul. cbn [SFvalue]. f_equal.
  rewrite <- Z.mul_assoc, <- Z.pow_add_r by lia. do 2 f_equal. lia.
Qed.

(** Finite floats compare as their values do. *)
Lemma SFcompare_value (a b : spec_float) :
  valid_binary a = true -> valid_binary b = true ->
  SFfinite a = true -> SFfinite b = true ->
  SFcompare a b = Some (SFvalue a ?= SFvalue b).
Proof.
  intros Va Vb Fa Fb.
  destruct a as [sa|sa| |sa ma ea], b as [sb|sb| |sb mb eb];
    try discriminate.
  - reflexivity.
  - simpl in Vb. apply bounded_mantissa in Vb as (_ & _ & Rb).
    assert (0 < Z.pos mb * 2 ^ (eb + 1074))
      by (apply Z.mul_pos_pos; [lia|apply Z.pow_pos_nonneg; lia]).
    cbn [SFcompare SFvalue]. f_equal. symmetry.
    destruct sb; cbn [cond_Zopp]; change IntDef.Z.opp with Z.opp.
    + apply Z.compare_gt_iff. lia.
    + apply Z.compare_lt_iff. lia.
  - simpl in Va. apply bounded_mantissa in Va as (_ & _ & Ra).
    assert (0 < Z.pos ma * 2 ^ (ea + 1074))
      by (apply Z.mul_pos_pos; [lia|apply Z.pow_pos_nonneg; lia]).
    cbn [SFcompare SFvalue]. f_equal. symmetry.
    destruct sa; cbn [cond_Zopp]; change IntDef.Z.opp with Z.opp.
    + apply Z.compare_lt_iff. lia.
    + apply Z.compare_gt_iff. lia.
  - simpl in Va, Vb. rewrite (SFcompare_aligned sa sb ma mb ea eb Va Vb).
    apply bounded_mantissa in Va as (_ & _ & Ra).
    apply bounded_mantissa in Vb as (_ & _ & Rb).
    set (ez := Z.min ea eb).
    rewrite <- (aligned_value sa ma ea ez), <- (aligned_value sb mb eb ez)
      by (unfold ez; lia).
    f_equal. apply Zmult_compare_compat_r. apply Z.lt_gt.
    apply Z.pow_pos_nonneg; unfold ez; lia.
Qed.

Lemma SFleb_value (a b : spec_float) :
  valid_binary a = true -> valid_binary b = true ->
  SFfinite a = true -> SFfinite b = true ->
  SFleb a b = (SFvalue a <=? SFvalue b).
Proof.
  intros Va Vb Fa Fb. unfold SFleb, Z.leb.
  rewrite (SFcompare_value a b Va Vb Fa Fb).
  now destruct (SFvalue a ?= SFvalue b).
Qed.

Lemma SFltb_value (a b : spec_float) :
  valid_binary a = true -> valid_binary b = true ->
  SFfinite a = true -> SFfinite b = true ->
  SFltb a b = (SFvalue a <? SFvalue b).
Proof.
  intros Va Vb Fa Fb. unfold SFltb, Z.ltb.
  rewrite (SFcompare_value a b Va Vb Fa Fb).
  now destruct (SFvalue a ?= SFvalue b).
Qed.

(** ** Rounding a signed mantissa against a bound *)

(** A signed mantissa [M] at exponent [ez], worth at most the finite float
    [c], rounds to a float that is at most [c].  The values are compared
    after scaling by [2^K]. *)
Lemma binary_normalize_le (M ez K : Z) (sz : bool) (c : spec_float) :
  valid_binary c = true -> SFfinite c = true ->
  1074 <= K -> 0 <= ez + K ->
  M * 2 ^ (ez + K) <= SFvalue c * 2 ^ (K - 1074) ->
  SFleb (binary_normalize prec emax M ez sz) c = true.
Proof.
  intros Vc Fc HK Hez H.
  assert (0 < 2 ^ (ez + K)) as Pz by (apply Z.pow_pos_nonneg; lia).
  assert (0 < 2 ^ (K - 1074)) as Pk by (apply Z.pow_pos_nonneg; lia).
  destruct c as [sc|sc| |sc mc ec]; try discriminate.
  - (* the bound is zero *)
    cbn [SFvalue] in H. rewrite Z.mul_0_l in H.
    destruct M as [|M|M]; cbn [binary_normalize]; [reflexivity|nia|].
    pose proof (binary_round_signed true M ez) as S.
    destruct (binary_round prec emax true M ez) as [s'|s'| |s' m' e'];
      try contradiction; subst; reflexivity.
  - simpl in Vc. pose proof (bounded_mantissa _ _ Vc) as (_ & _ & Rc).
    cbn [SFvalue] in H. rewrite cond_Zopp_mul in H.
    rewrite <- Z.mul_assoc, <- Z.pow_add_r in H by lia.
    replace (ec + 1074 + (K - 1074)) with (ec + K) in H by lia.
    assert (0 < 2 ^ (ec + K)) as Pc by (apply Z.pow_pos_nonneg; lia).
    destruct sc; cbn [cond_Zopp] in H; change IntDef.Z.opp with Z.opp in H.
    + (* a negative bound *)
      destruct M as [|M|M]; cbn [binary_normalize]; try nia.
      apply SFleb_mag_ge_neg; [apply binary_round_sign|].
      apply (binary_round_ge true M mc ez ec K); auto; lia.
    + (* a positive bound *)
      destruct M as [|M|M]; cbn [binary_normalize]; [reflexivity| |].
      * apply SFleb_mag_le_pos; [apply binary_round_sign|].
        apply (binary_round_le false M mc ez ec K); auto; lia.
      * pose proof (binary_round_signed true M ez) as S.
        destruct (binary_round prec emax true M ez) as [s'|s'| |s' m' e'];
          try contradiction; subst; reflexivity.
Qed.

(** The same from below. *)
Lemma binary_normalize_ge (M ez K : Z) (sz : bool) (c : spec_float) :
  valid_binary c = true -> SFfinite c = true ->
  1074 <= K -> 0 <= ez + K ->
  SFvalue c * 2 ^ (K - 1074) <= M * 2 ^ (ez + K) ->
  SFleb c (binary_normalize prec emax M ez sz) = true.
Proof.
  intros Vc Fc HK Hez H.
  assert (0 < 2 ^ (ez + K)) as Pz by (apply Z.pow_pos_nonneg; lia).
  assert (0 < 2 ^ (K - 1074)) as Pk by (apply Z.pow_pos_nonneg; lia).
  destruct c as [sc|sc| |sc mc ec]; try discriminate.
  - cbn [SFvalue] in H. rewrite Z.mul_0_l in H.
    destruct M as [|M|M]; cbn [binary_normalize]; [reflexivity| |nia].
    pose proof (binary_round_signed false M ez) as S.
    destruct (binary_round prec emax false M ez) as [s'|s'| |s' m' e'];
      try contradiction; subst; reflexivity.
  - simpl in Vc. pose proof (bounded_mantissa _ _ Vc) as (_ & _ & Rc).
    cbn [SFvalue] in H. rewrite cond_Zopp_mul in H.
    rewrite <- Z.mul_assoc, <- Z.pow_add_r in H by lia.
    replace (ec + 1074 + (K - 1074)) with (ec + K) in H by lia.
    assert (0 < 2 ^ (ec + K)) as Pc by (apply Z.pow_pos_nonneg; lia).
    destruct sc; cbn [cond_Zopp] in H; change IntDef.Z.opp with Z.opp in H.
    + destruct M as [|M|M]; cbn [binary_normalize]; [reflexivity| |].
      * pose proof (binary_round_signed false M ez) as S.
        destruct (binary_round prec emax false M ez) as [s'|s'| |s' m' e'];
          try contradiction; subst; reflexivity.
      * apply SFleb_mag_le_neg; [apply binary_round_sign|].
        apply (binary_round_le true M mc ez ec K); auto; lia.
    + destruct M as [|M|M]; cbn [binary_normalize]; try nia.
      apply SFleb_mag_ge_pos; [apply binary_round_sign|].
      apply (binary_round_ge false M mc ez ec K); auto; lia.
Qed.


(** ** Sums and differences against a bound *)

Lemma SFadd_finite (sa sb : bool) (ma mb : positive) (ea eb : Z) :
  bounded prec emax ma ea = true -> bounded prec emax mb eb = true ->
  let ez := Z.min ea eb in
  exists M,
    SF64add (S754_finite sa ma ea) (S754_finite sb mb eb)
    = binary_normalize prec emax M ez false /\
    M * 2 ^ (ez + 1074)
    = SFvalue (S754_finite sa ma ea) + SFvalue (S754_finite sb mb eb) /\
    -1074 <= ez.
Proof.
  intros Va Vb ez.
  pose proof (bounded_mantissa _ _ Va) as (_ & _ & Ra).
  pose proof (bounded_mantissa _ _ Vb) as (_ & _ & Rb).
  assert (ez <= ea /\ ez <= eb /\ -1074 <= ez) as (Ha & Hb & Hz)
    by (unfold ez; lia).
  eexists. split; [reflexivity|]. split; [|exact Hz].
  change IntDef.Z.min with Z.min. fold ez.
  change IntDef.Z.add with Z.add.
  rewrite (shl_align_value ma ea ez Ha), (shl_align_value mb eb ez Hb).
  rewrite Z.mul_add_distr_r.
  now rewrite !aligned_value by lia.
Qed.

Lemma SFsub_finite (sa sb : bool) (ma mb : positive) (ea eb : Z) :
  bounded prec emax ma ea = true -> bounded prec emax mb eb = true ->
  let ez := Z.min ea eb in
  exists M,
    SF64sub (S754_finite sa ma ea) (S754_finite sb mb eb)
    = binary_normalize prec emax M ez false /\
    M * 2 ^ (ez + 1074)
    = SFvalue (S754_finite sa ma ea) - SFvalue (S754_finite sb mb eb) /\
    -1074 <= ez.
Proof.
  intros Va Vb ez.
  pose proof (bounded_mantissa _ _ Va) as (_ & _ & Ra).
  pose proof (bounded_mantissa _ _ Vb) as (_ & _ & Rb).
  assert (ez <= ea /\ ez <= eb /\ -1074 <= ez) as (Ha & Hb & Hz)
    by (unfold ez; lia).
  eexists. split; [reflexivity|]. split; [|exact Hz].
  change IntDef.Z.min with Z.min. fold ez.
  change IntDef.Z.sub with Z.sub.
  rewrite (shl_align_value ma ea ez Ha), (shl_align_value mb eb ez Hb).
  rewrite Z.mul_sub_distr_r.
  now rewrite !aligned_value by lia.
Qed.

Lemma SFvalue_opp (s : bool) (m : positive) (e : Z) :
  SFvalue (S754_finite (negb s) m e) = - SFvalue (S754_finite s m e).
Proof.
  cbn [SFvalue]. destruct s; cbn [negb cond_Zopp];
    change IntDef.Z.opp with Z.opp; lia.
Qed.

(** A sum of finite floats whose exact value is at most a finite float is
    at most that float, and likewise from below and for differences. *)
Lemma SFadd_value_le (a b c : spec_float) :
  valid_binary a = true -> valid_binary b = true -> valid_binary c = true ->
  SFfinite a = true -> SFfinite b = true -> SFfinite c = true ->
  SFvalue a + SFvalue b <= SFvalue c ->
  SFleb (SF64add a b) c = true.
Proof.
  intros Va Vb Vc Fa Fb Fc H.
  destruct a as [sa|sa| |sa ma ea], b as [sb|sb| |sb mb eb];
    try discriminate.
  - assert (forall s, SFleb (S754_zero s) c = true) as Z0
      by (intros s; rewrite SFleb_value by auto; apply Z.leb_le; exact H).
    unfold SF64add, SFadd. destruct sa, sb; apply Z0.
  - unfold SF64add, SFadd. rewrite SFleb_value by auto.
    apply Z.leb_le. exact H.
  - unfold SF64add, SFadd. rewrite SFleb_value by auto.
    apply Z.leb_le. cbn [SFvalue] in H |- *. lia.
  - destruct (SFadd_finite sa sb ma mb ea eb Va Vb) as (M & -> & EM & Hz).
    apply (binary_normalize_le M _ 1074); auto; lia.
Qed.

Lemma SFadd_value_ge (a b c : spec_float) :
  valid_binary a = true -> valid_binary b = true -> valid_binary c = true ->
  SFfinite a = true -> SFfinite b = true -> SFfinite c = true ->
  SFvalue c <= SFvalue a + SFvalue b ->
  SFleb c (SF64add a b) = true.
Proof.
  intros Va Vb Vc Fa Fb Fc H.
  destruct a as [sa|sa| |sa ma ea], b as [sb|sb| |sb mb eb];
    try discriminate.
  - assert (forall s, SFleb c (S754_zero s) = true) as Z0
      by (intros s; rewrite SFleb_value by auto; apply Z.leb_le; exact H).
    unfold SF64add, SFadd. destruct sa, sb; apply Z0.
  - unfold SF64add, SFadd. rewrite SFleb_value by auto.
    apply Z.leb_le. exact H.
  - unfold SF64add, SFadd. rewrite SFleb_value by auto.
    apply Z.leb_le. cbn [SFvalue] in H |- *. lia.
  - destruct (SFadd_finite sa sb ma mb ea eb Va Vb) as (M & -> & EM & Hz).
    apply (binary_normalize_ge M _ 1074); auto; lia.
Qed.

Lemma SFsub_value_le (a b c : spec_float) :
  valid_binary a = true -> valid_binary b = true -> valid_binary c = true ->
  SFfinite a = true -> SFfinite b = true -> SFfinite c = true ->
  SFvalue a - SFvalue b <= SFvalue c ->
  SFleb (SF64sub a b) c = true.
Proof.
  intros Va Vb Vc Fa Fb Fc H.
  destruct a as [sa|sa| |sa ma ea], b as [sb|sb| |sb mb eb];
    try discriminate.
  - assert (forall s, SFleb (S754_zero s) c = true) as Z0
      by (intros s; rewrite SFleb_value by auto; apply Z.leb_le; exact H).
    unfold SF64sub, SFsub. destruct sa, sb; apply Z0.
  - unfold SF64sub, SFsub. rewrite SFleb_value by auto.
    apply Z.leb_le. rewrite SFvalue_opp. cbn [SFvalue] in H |- *. lia.
  - unfold SF64sub, SFsub. rewrite SFleb_value by auto.
    apply Z.leb_le. cbn [SFvalue] in H |- *. lia.
  - destruct (SFsub_finite sa sb ma mb ea eb Va Vb) as (M & -> & EM & Hz).
    apply (binary_normalize_le M _ 1074); auto; lia.
Qed.

Lemma SFsub_value_ge (a b c : spec_float) :
  valid_binary a = true -> valid_binary b = true -> valid_binary c = true ->
  SFfinite a = true -> SFfinite b = true -> SFfinite c = true ->
  SFvalue c <= SFvalue a - SFvalue b ->
  SFleb c (SF64sub a b) = true.
Proof.
  intros Va Vb Vc Fa Fb Fc H.
  destruct a as [sa|sa| |sa ma ea], b as [sb|sb| |sb mb eb];
    try discriminate.
  - assert (forall s, SFleb c (S754_zero s) = true) as Z0
      by (intros s; rewrite SFleb_value by auto; apply Z.leb_le; exact H).
    unfold SF64sub, SFsub. destruct sa, sb; apply Z0.
  - unfold SF64sub, SFsub. rewrite SFleb_value by auto.
    apply Z.leb_le. rewrite SFvalue_opp. cbn [SFvalue] in H |- *. lia.
  - unfold SF64sub, SFsub. rewrite SFleb_value by auto.
    apply Z.leb_le. cbn [SFvalue] in H |- *. lia.
  - destruct (SFsub_finite sa sb ma mb ea eb Va Vb) as (M & -> & EM & Hz).
    apply (binary_normalize_ge M _ 1074); auto; lia.
Qed.


(** ** Products against a bound *)

Lemma digits2_pos_mul (a b : positive) :
  Z.pos (digits2_pos a) + Z.pos (digits2_pos b) - 1
  <= Z.pos (digits2_pos (a * b)).
Proof.
  pose proof (digits2_pos_bounds a) as [Al Au].
  pose proof (digits2_pos_bounds b) as [Bl Bu].
  pose proof (digits2_pos_bounds (a * b)) as [Pl Pu].
  set (da := Z.pos (digits2_pos a)) in *.
  set (db := Z.pos (digits2_pos b)) in *.
  set (dp := Z.pos (digits2_pos (a * b))) in *.
  assert (0 < da /\ 0 < db /\ 0 < dp) as (? & ? & ?)
    by (unfold da, db, dp; lia).
  destruct (Z.le_gt_cases (da + db - 1) dp) as [|G]; [assumption|].
  assert (2 ^ dp <= 2 ^ ((da - 1) + (db - 1)))
    by (apply Z.pow_le_mono_r; lia).
  rewrite Z.pow_add_r in * by lia.
  rewrite Pos2Z.inj_mul in Pu.
  assert (2 ^ (da - 1) * 2 ^ (db - 1) <= Z.pos a * Z.pos b)
    by (apply Z.mul_le_mono_nonneg; lia).
  lia.
Qed.

(** The product of two mantissas is never shifted to the left. *)
Lemma SFmul_finite (su sw : bool) (mu mw : positive) (eu ew : Z) :
  bounded prec emax mu eu = true -> bounded prec emax mw ew = true ->
  SF64mul (S754_finite su mu eu) (S754_finite sw mw ew)
  = binary_round prec emax (xorb su sw) (mu * mw) (eu + ew) /\
  eu + ew <= fexp prec emax (Z.pos (digits2_pos (mu * mw)) + (eu + ew)).
Proof.
  intros Vu Vw.
  apply bounded_spec in Vu as [Cu _]. apply bounded_spec in Vw as [Cw _].
  pose proof (digits2_pos_mul mu mw) as D.
  assert (eu + ew
          <= fexp prec emax (Z.pos (digits2_pos (mu * mw)) + (eu + ew)))
    as H by (unfold fexp, emin, prec, emax in *; lia).
  split; [|exact H].
  rewrite binary_round_noshl by exact H. reflexivity.
Qed.

Lemma SFvalue_mul (su sw : bool) (mu mw : positive) (eu ew : Z) :
  -1074 <= eu -> -1074 <= ew ->
  SFvalue (S754_finite su mu eu) * SFvalue (S754_finite sw mw ew)
  = cond_Zopp (xorb su sw) (Z.pos (mu * mw)) * 2 ^ (eu + ew + 2148).
Proof.
  intros Hu Hw. cbn [SFvalue].
  replace (eu + ew + 2148) with ((eu + 1074) + (ew + 1074)) by lia.
  rewrite (Z.pow_add_r 2 (eu + 1074) (ew + 1074)) by lia.
  rewrite Pos2Z.inj_mul.
  destruct su, sw; cbn [xorb cond_Zopp];
    change IntDef.Z.opp with Z.opp; ring.
Qed.

Lemma binary_normalize_round (s : bool) (M : positive) (e : Z) (sz : bool) :
  binary_round prec emax s M e
  = binary_normalize prec emax (cond_Zopp s (Z.pos M)) e sz.
Proof. now destruct s. Qed.

(** A product of finite floats whose exact value is at most a finite float
    is at most that float. *)
Lemma SFmul_value_le (u w c : spec_float) :
  valid_binary u = true -> valid_binary w = true -> valid_binary c = true ->
  SFfinite u = true -> SFfinite w = true -> SFfinite c = true ->
  SFvalue u * SFvalue w <= SFvalue c * 2 ^ 1074 ->
  SFleb (SF64mul u w) c = true.
Proof.
  intros Vu Vw Vc Fu Fw Fc H.
  assert (0 <= SFvalue c ->
          forall s, SFleb (S754_zero s) c = true) as Z0.
  { intros Hc s. rewrite SFleb_value by auto. apply Z.leb_le. exact Hc. }
  destruct u as [su|su| |su mu eu], w as [sw|sw| |sw mw ew];
    try discriminate; unfold SF64mul, SFmul;
    try (apply Z0; cbn [SFvalue] in H; lia).
  simpl in Vu, Vw.
  destruct (SFmul_finite su sw mu mw eu ew Vu Vw) as [E _].
  unfold SF64mul, SFmul in E. rewrite E.
  pose proof (bounded_mantissa _ _ Vu) as (_ & _ & Ru).
  pose proof (bounded_mantissa _ _ Vw) as (_ & _ & Rw).
  rewrite (binary_normalize_round _ _ _ false).
  apply (binary_normalize_le _ _ 2148); auto; try lia.
  rewrite <- SFvalue_mul by lia.
  change (2148 - 1074) with 1074. exact H.
Qed.

(** A product that stays below the midpoint between the normal float
    [(q, E)] and its successor rounds to [(q, E)] at most. *)
Lemma SFmul_round_down (u w : spec_float) (q : positive) (E : Z) :
  valid_binary u = true -> valid_binary w = true ->
  SFfinite u = true -> SFfinite w = true ->
  0 <= SFvalue u -> 0 <= SFvalue w ->
  bounded prec emax q E = true -> 2 ^ 52 <= Z.pos q ->
  2 * (SFvalue u * SFvalue w) < (2 * Z.pos q + 1) * 2 ^ (E + 2148) ->
  SFleb (SF64mul u w) (S754_finite false q E) = true.
Proof.
  intros Vu Vw Fu Fw Pu Pw Vq Hq H.
  pose proof (bounded_mantissa _ _ Vq) as (Uq & _ & Rq).
  destruct (Z.le_gt_cases (SFvalue u * SFvalue w)
              (Z.pos q * 2 ^ (E + 2148))) as [Le|Gt].
  - apply SFmul_value_le; auto. cbn [SFvalue cond_Zopp].
    rewrite <- Z.mul_assoc, <- Z.pow_add_r by lia.
    replace (E + 1074 + 1074) with (E + 2148) by lia. exact Le.
  - destruct u as [su|su| |su mu eu], w as [sw|sw| |sw mw ew];
      try discriminate;
      try (cbn [SFvalue] in Gt;
           assert (0 < Z.pos q * 2 ^ (E + 2148))
             by (apply Z.mul_pos_pos; [lia|apply Z.pow_pos_nonneg; lia]);
           lia).
    simpl in Vu, Vw.
    pose proof (bounded_mantissa _ _ Vu) as (_ & _ & Ru).
    pose proof (bounded_mantissa _ _ Vw) as (_ & _ & Rw).
    assert (su = false) as ->.
    { destruct su; [|reflexivity]. cbn [SFvalue cond_Zopp] in Pu.
      change IntDef.Z.opp with Z.opp in Pu.
      assert (0 < Z.pos mu * 2 ^ (eu + 1074))
        by (apply Z.mul_pos_pos; [lia|apply Z.pow_pos_nonneg; lia]). lia. }
    assert (sw = false) as ->.
    { destruct sw; [|reflexivity]. cbn [SFvalue cond_Zopp] in Pw.
      change IntDef.Z.opp with Z.opp in Pw.
      assert (0 < Z.pos mw * 2 ^ (ew + 1074))
        by (apply Z.mul_pos_pos; [lia|apply Z.pow_pos_nonneg; lia]). lia. }
    rewrite SFvalue_mul in H, Gt by lia. cbn [xorb cond_Zopp] in H, Gt.
    set (M := (mu * mw)%positive) in *. set (e := eu + ew) in *.
    assert (0 <= e + 2148) as He by (unfold e; lia).
    (* the product sits strictly between [q] and [q + 1/2] at exponent E *)
    rewrite Z.mul_assoc in H.
    assert (e < E) as HeE.
    { destruct (Z.lt_ge_cases e E) as [|Ge]; [assumption|exfalso].
      apply (scaled_lt' (Z.pos q) (Z.pos M) E e 2148) in Gt; try lia.
      apply (scaled_lt (2 * Z.pos M) (2 * Z.pos q + 1) e E 2148) in H;
        lia. }
    assert (0 < 2 ^ (E - e)) as Pn by (apply Z.pow_pos_nonneg; lia).
    assert (Z.pos q * 2 ^ (E - e) < Z.pos M /\
            2 * Z.pos M < (2 * Z.pos q + 1) * 2 ^ (E - e)) as [Lo Hi].
    { apply (scaled_lt (Z.pos q) (Z.pos M) E e 2148) in Gt; try lia.
      apply (scaled_lt' (2 * Z.pos M) (2 * Z.pos q + 1) e E 2148) in H;
        lia. }
    assert (Z.pos (digits2_pos M) = 53 + (E - e)) as HdM.
    { apply digits2_pos_unique.
      replace (53 + (E - e) - 1) with (52 + (E - e)) by lia.
      rewrite !Z.pow_add_r by lia. nia. }
    destruct (SFmul_finite false false mu mw eu ew Vu Vw) as [EQ Hsh].
    fold M in EQ, Hsh. fold e in EQ, Hsh. rewrite EQ. cbn [xorb].
    assert (fexp prec emax (Z.pos (digits2_pos M) + e) = E) as HE
      by (rewrite HdM; unfold fexp, emin, prec, emax; lia).
    rewrite binary_round_noshl by lia.
    destruct (binary_round_aux_shift false M e ltac:(lia))
      as (m1 & -> & _ & _ & Down & _).
    rewrite HE in Down |- *.
    assert (Z.pos M / 2 ^ (E - e) = Z.pos q) as Hquot.
    { symmetry. apply Z.div_unique with (Z.pos M - Z.pos q * 2 ^ (E - e));
        lia. }
    assert (Z.pos M mod 2 ^ (E - e) = Z.pos M - Z.pos q * 2 ^ (E - e))
      as Hrem.
    { symmetry. apply Z.mod_unique with (Z.pos q); lia. }
    rewrite Hquot in Down. rewrite Down by lia.
    replace (Z.pos q <? 2 ^ 53) with true by (symmetry; apply Z.ltb_lt; lia).
    rewrite finish_pos by lia. apply SFleb_refl_finite.
Qed.


(** ** How far a rounded difference is from the exact one *)

Lemma bounded_normal (q E : Z) :
  2 ^ 52 <= q < 2 ^ 53 -> -1074 <= E <= 971 ->
  bounded prec emax (Z.to_pos q) E = true /\ Z.pos (Z.to_pos q) = q.
Proof.
  intros Hq HE.
  assert (0 < q) by (change (2 ^ 52) with 4503599627370496 in Hq; lia).
  assert (Z.pos (Z.to_pos q) = q) as Hid by (apply Z2Pos.id; lia).
  split; [|exact Hid].
  unfold bounded, canonical_mantissa.
  rewrite (digits2_pos_unique (Z.to_pos q) 53) by (rewrite Hid; simpl; lia).
  apply andb_true_iff. split.
  - apply Z.eqb_eq. unfold fexp, emin, prec, emax. lia.
  - apply Z.leb_le. unfold prec, emax. lia.
Qed.

(** A positive mantissa at an exponent of the format rounds to a float
    worth at most the mantissa, or to the successor of a normal float
    [(q, E)] that is worth at most the mantissa. *)
Lemma binary_round_value (M : positive) (ez : Z) :
  -1074 <= ez ->
  let w := binary_round prec emax false M ez in
  SFfinite w = true ->
  SFvalue w <= Z.pos M * 2 ^ (ez + 1074) \/
  exists q E,
    bounded prec emax q E = true /\ 2 ^ 52 <= Z.pos q /\
    Z.pos q * 2 ^ (E + 1074) <= Z.pos M * 2 ^ (ez + 1074) /\
    SFvalue w = (Z.pos q + 1) * 2 ^ (E + 1074).
Proof.
  intros Hez w Fw. unfold w in *. clear w.
  set (E := fexp prec emax (Z.pos (digits2_pos M) + ez)) in *.
  assert (-1074 <= E) as HE by (unfold E, fexp, emin, prec, emax; lia).
  assert (forall m x, -1074 <= x ->
            SFfinite (finish false (Z.pos m) x) = true ->
            SFvalue (finish false (Z.pos m) x) = Z.pos m * 2 ^ (x + 1074) /\
            x <= 971) as Fin.
  { intros m x Hx. unfold finish, emax, prec.
    destruct (x <=? 1024 - 53) eqn:L; [|discriminate].
    apply Z.leb_le in L. intros _. split; [reflexivity|lia]. }
  destruct (Z.lt_trichotomy E ez) as [L|[Eq|G]].
  - destruct (binary_round_shl false M ez L) as (mz & EQ & Vz).
    fold E in EQ, Vz. rewrite EQ in Fw |- *.
    destruct (Fin mz E HE Fw) as [-> _]. left.
    rewrite Vz, <- Z.mul_assoc, <- Z.pow_add_r by lia.
    replace (ez - E + (E + 1074)) with (ez + 1074) by lia. lia.
  - rewrite binary_round_noshl in Fw |- * by (fold E; lia).
    rewrite binary_round_aux_noshift in Fw |- * by (fold E; lia).
    destruct (Fin M ez Hez Fw) as [-> _]. left. lia.
  - rewrite binary_round_noshl in Fw |- * by (fold E; lia).
    destruct (binary_round_aux_shift false M ez G)
      as (m1 & EQ & C & _ & _ & Bq).
    fold E in EQ, C, Bq. rewrite EQ in Fw |- *. clear EQ.
    set (q := Z.pos M / 2 ^ (E - ez)) in *.
    assert (0 < 2 ^ (E - ez)) as Pn by (apply Z.pow_pos_nonneg; lia).
    assert (2 ^ 52 <= q) as Hq.
    { pose proof (digits2_pos_bounds M) as [Bl Bu].
      assert (E = Z.pos (digits2_pos M) + ez - 53)
        by (unfold E, fexp, emin, prec, emax in *; lia).
      unfold q. apply Z.div_le_lower_bound; [assumption|].
      rewrite <- Z.pow_add_r by lia.
      replace (E - ez + 52) with (Z.pos (digits2_pos M) - 1) by lia.
      exact Bl. }
    assert (q * 2 ^ (E + 1074) <= Z.pos M * 2 ^ (ez + 1074)) as Hfloor.
    { apply (scaled_le q (Z.pos M) E ez 1074); try lia.
      pose proof (Z.mul_div_le (Z.pos M) (2 ^ (E - ez)) Pn) as D.
      fold q in D. lia. }
    assert (0 < q) as Hq0
      by (change (2 ^ 52) with 4503599627370496 in Hq; lia).
    destruct C as [-> | ->].
    + (* rounded down *)
      replace (q <? 2 ^ 53) with true in * by (symmetry; apply Z.ltb_lt; lia).
      destruct q as [|qp|qp]; try lia.
      destruct (Fin qp E HE Fw) as [-> _]. left. exact Hfloor.
    + (* rounded up *)
      right. destruct (q + 1 <? 2 ^ 53) eqn:L.
      * apply Z.ltb_lt in L.
        destruct (q + 1) as [|q1|q1] eqn:Eq1; try lia.
        destruct (Fin q1 E HE Fw) as [-> Hmax].
        destruct (bounded_normal q E ltac:(lia) ltac:(lia)) as [Bd Id].
        exists (Z.to_pos q), E. rewrite Id. repeat split; auto. lia.
      * apply Z.ltb_ge in L. assert (q = 2 ^ 53 - 1) as Hq53 by lia.
        change (2 ^ 52) with (Z.pos 4503599627370496) in Fw |- *.
        assert (-1074 <= E + 1) as HE1 by lia.
        destruct (Fin 4503599627370496%positive (E + 1) HE1 Fw) as [-> Hmax].
        destruct (bounded_normal q E ltac:(lia) ltac:(lia)) as [Bd Id].
        exists (Z.to_pos q), E. rewrite Id. repeat split; auto.
        rewrite Hq53.
        replace (E + 1 + 1074) with (1 + (E + 1074)) by lia.
        rewrite Z.pow_add_r by lia.
        change (2 ^ 53 - 1 + 1) with (4503599627370496 * 2 ^ 1). lia.
Qed.

(** The same for the difference of two finite floats. *)
Lemma SFsub_round_cases (a b : spec_float) :
  valid_binary a = true -> valid_binary b = true ->
  SFfinite a = true -> SFfinite b = true ->
  SFvalue b <= SFvalue a ->
  SFfinite (SF64sub a b) = true ->
  SFvalue (SF64sub a b) <= SFvalue a - SFvalue b \/
  exists q E,
    bounded prec emax q E = true /\ 2 ^ 52 <= Z.pos q /\
    Z.pos q * 2 ^ (E + 1074) <= SFvalue a - SFvalue b /\
    SFvalue (SF64sub a b) = (Z.pos q + 1) * 2 ^ (E + 1074).
Proof.
  intros Va Vb Fa Fb Hab.
  destruct a as [sa|sa| |sa ma ea], b as [sb|sb| |sb mb eb];
    try discriminate.
  - intros _. left. unfold SF64sub, SFsub. now destruct sa, sb.
  - intros _. left. unfold SF64sub, SFsub. rewrite SFvalue_opp.
    cbn [SFvalue]. lia.
  - intros _. left. unfold SF64sub, SFsub. cbn [SFvalue]. lia.
  - destruct (SFsub_finite sa sb ma mb ea eb Va Vb) as (M & -> & EM & Hz).
    rewrite <- EM.
    assert (0 < 2 ^ (Z.min ea eb + 1074)) by (apply Z.pow_pos_nonneg; lia).
    destruct M as [|M|M]; cbn [binary_normalize]; try nia.
    + intros _. left. cbn [SFvalue]. lia.
    + apply binary_round_value. exact Hz.
Qed.


(** ** The affine map of [heater_init] *)

(** A float that is at least zero and below one is worth at most
    [1 - 2^-53]. *)
Lemma SFvalue_below_one (u : spec_float) :
  valid_binary u = true ->
  SFleb (S754_zero false) u = true -> SFltb u SFone = true ->
  SFfinite u = true /\ 0 <= SFvalue u <= (2 ^ 53 - 1) * 2 ^ 1021.
Proof.
  intros Vu H0 H1.
  destruct u as [su|su| |su mu eu]; try discriminate.
  - split; [reflexivity|]. cbn [SFvalue]. lia.
  - destruct su; discriminate.
  - destruct su; [discriminate|]. split; [reflexivity|].
    simpl in Vu. pose proof (bounded_mantissa _ _ Vu) as (Um & Lm & Rm).
    rewrite SFltb_value in H1 by auto. apply Z.ltb_lt in H1.
    cbn [SFvalue SFone cond_Zopp] in H1 |- *.
    change (4503599627370496 * 2 ^ (-52 + 1074)) with (2 ^ 1074) in H1.
    assert (0 < 2 ^ (eu + 1074)) by (apply Z.pow_pos_nonneg; lia).
    split; [lia|].
    destruct (Z.le_gt_cases (eu + 1074) 1021) as [Le|Gt].
    + assert (2 ^ (eu + 1074) <= 2 ^ 1021) by (apply Z.pow_le_mono_r; lia).
      assert (0 < 2 ^ 1021) by (apply Z.pow_pos_nonneg; lia).
      apply Z.le_trans with ((2 ^ 53 - 1) * 2 ^ (eu + 1074)).
      * apply Z.mul_le_mono_nonneg_r; lia.
      * apply Z.mul_le_mono_nonneg_l; [|assumption].
        change (2 ^ 53 - 1) with 9007199254740991. lia.
    + exfalso. specialize (Lm ltac:(lia)).
      assert (2 ^ 52 * 2 ^ (eu + 1074) <= Z.pos mu * 2 ^ (eu + 1074))
        by (apply Z.mul_le_mono_nonneg_r; lia).
      assert (2 ^ 1074 <= 2 ^ (52 + (eu + 1074)))
        by (apply Z.pow_le_mono_r; lia).
      rewrite Z.pow_add_r in * by lia. lia.
Qed.

(** The heart of the bound on the sites: for finite [xmin <= xmax] whose
    difference does not overflow, and [0 <= u < 1], the float computed for
    [xmin + u * (xmax - xmin)] lies between [xmin] and [xmax]. *)
Lemma SFaffine_in_interval (xmin xmax u : spec_float) :
  let w := SF64sub xmax xmin in
  let p := SF64mul u w in
  let x := SF64add xmin p in
  valid_binary xmin = true -> valid_binary xmax = true ->
  valid_binary u = true -> valid_binary w = true -> valid_binary p = true ->
  SFfinite xmin = true -> SFfinite xmax = true -> SFfinite w = true ->
  SFleb xmin xmax = true ->
  SFleb (S754_zero false) u = true -> SFltb u SFone = true ->
  SFleb xmin x = true /\ SFleb x xmax = true.
Proof.
  intros w p x Vmin Vmax Vu Vw Vp Fmin Fmax Fw Hle Hu0 Hu1.
  destruct (SFvalue_below_one u Vu Hu0 Hu1) as (Fu & Pu & Bu).
  rewrite SFleb_value in Hle by auto. apply Z.leb_le in Hle.
  set (W := SFvalue xmax - SFvalue xmin).
  assert (0 <= SFvalue w) as Pw.
  { assert (SFleb (S754_zero false) w = true) as H
      by (apply SFsub_value_ge; auto; cbn [SFvalue]; lia).
    rewrite SFleb_value in H by auto. apply Z.leb_le in H. exact H. }
  assert (0 < 2 ^ 1021) as P1021 by (apply Z.pow_pos_nonneg; lia).
  assert (2 ^ 1074 = 2 ^ 53 * 2 ^ 1021) as E1074
    by (rewrite <- Z.pow_add_r by lia; reflexivity).
  (* a finite float [t], worth at most [W], that bounds the product *)
  assert (exists t, valid_binary t = true /\ SFfinite t = true /\
                    SFvalue t <= W /\ SFleb p t = true)
    as (t & Vt & Ft & Ht & Hp).
  { destruct (SFsub_round_cases xmax xmin Vmax Vmin Fmax Fmin Hle Fw)
      as [Down|(q & E & Bq & Hq & Hfloor & Up)].
    - exists w. repeat split; auto.
      apply SFmul_value_le; auto. fold w. nia.
    - exists (S754_finite false q E). pose proof Bq as Bq'.
      apply bounded_mantissa in Bq' as (Uq & _ & Rq).
      split; [exact Bq|]. split; [reflexivity|]. split.
      + cbn [SFvalue cond_Zopp]. exact Hfloor.
      + apply SFmul_round_down; auto. fold w in Up |- *. rewrite Up.
        assert (0 < 2 ^ (E + 1074)) by (apply Z.pow_pos_nonneg; lia).
        replace (E + 2148) with (1074 + (E + 1074)) by lia.
        rewrite (Z.pow_add_r 2 1074 (E + 1074)) by lia. rewrite E1074.
        set (P := 2 ^ (E + 1074)) in *. set (T := 2 ^ 1021) in *.
        assert (2 * (SFvalue u * ((Z.pos q + 1) * P))
                <= 2 * ((2 ^ 53 - 1) * T * ((Z.pos q + 1) * P))) as S1.
        { apply Z.mul_le_mono_nonneg_l; [lia|].
          apply Z.mul_le_mono_nonneg_r; [|exact Bu].
          apply Z.mul_nonneg_nonneg; lia. }
        eapply Z.le_lt_trans; [exact S1|].
        replace (2 * ((2 ^ 53 - 1) * T * ((Z.pos q + 1) * P)))
          with ((2 * (2 ^ 53 - 1) * (Z.pos q + 1)) * (T * P)) by ring.
        replace ((2 * Z.pos q + 1) * (2 ^ 53 * T * P))
          with (((2 * Z.pos q + 1) * 2 ^ 53) * (T * P)) by ring.
        apply Z.mul_lt_mono_pos_r; [apply Z.mul_pos_pos; lia|].
        change (2 ^ 53) with 9007199254740992.
        change (2 ^ 52) with 4503599627370496 in Hq. lia. }
  (* the product is finite and at least zero *)
  assert (SFfinite p = true /\ 0 <= SFvalue p <= W) as (Fp & Pp & Bp).
  { assert (SFleb (S754_zero false) p = true) as H0.
    { destruct (SFmul_nonneg u w) as [N|H]; auto.
      - rewrite SFleb_value by auto. now apply Z.leb_le.
      - fold p in N. rewrite N in Hp. discriminate. }
    assert (SFfinite p = true) as Fp.
    { destruct p as [sp|sp| |sp mp ep]; try reflexivity; try discriminate.
      destruct sp; [discriminate|].
      destruct t as [st|st| |st mt et]; discriminate. }
    split; [exact Fp|].
    rewrite SFleb_value in H0, Hp by auto.
    apply Z.leb_le in H0, Hp. cbn [SFvalue] in H0. lia. }
  split.
  - apply SFadd_value_ge; auto. lia.
  - apply SFadd_value_le; auto. unfold W in *. lia.
Qed.

(** ** Subtracting a number that is not negative *)

(** A float that is at least zero has a value that is at least zero. *)
Lemma SFvalue_nonneg (d : spec_float) :
  valid_binary d = true -> SFleb (S754_zero false) d = true ->
  0 <= SFvalue d.
Proof.
  intros Vd Hd. destruct d as [sd|sd| |sd md ed]; cbn [SFvalue]; try lia.
  destruct sd; [discriminate|]. cbn [cond_Zopp].
  apply bounded_spec in Vd as [Vd _]. unfold fexp in Vd.
  apply Z.mul_nonneg_nonneg; [lia|apply Z.pow_nonneg; lia].
Qed.

(** Subtracting a float that is at least zero gives NaN (infinity minus
    infinity) or a float that is at most the minuend: rounding does not
    step over the minuend, which is a float. *)
Lemma SFsub_nonneg_le (r d : spec_float) :
  valid_binary r = true -> valid_binary d = true ->
  SFleb (S754_zero false) d = true ->
  SF64sub r d = S754_nan \/ SFleb (SF64sub r d) r = true.
Proof.
  intros Vr Vd Hd. pose proof (SFvalue_nonneg d Vd Hd) as Hv.
  destruct r as [sr|sr| |sr mr er]; [| |now left|].
  - right. destruct d as [sd|sd| |sd md ed]; try discriminate.
    + now destruct sr, sd.
    + now destruct sd.
    + now destruct sd.
  - destruct d as [sd|sd| |sd md ed]; try discriminate.
    + right. now destruct sr.
    + destruct sd; [discriminate|]. destruct sr; [now right|now left].
    + right. now destruct sr.
  - right. destruct d as [sd|sd| |sd md ed]; try discriminate.
    + apply SFleb_refl_finite.
    + now destruct sd.
    + apply SFsub_value_le; auto. lia.
Qed.

(** ** Results that are numbers *)

Lemma shr_record_of_loc_m (m : Z) (l : location) :
  shr_m (shr_record_of_loc m l) = m.
Proof. destruct l as [|[ | | ]]; reflexivity. Qed.

Lemma shr_fexp_nonneg (m e : Z) (l : location) :
  0 <= m -> 0 <= shr_m (fst (shr_fexp prec emax m e l)).
Proof.
  intros Hm. unfold shr_fexp, shr.
  destruct (fexp prec emax (Zdigits2 m + e) - e) as [|p|p]; cbn [fst];
    rewrite ?iter_pos_nat, ?shr_iter_m, shr_record_of_loc_m;
    rewrite ?shr_record_of_loc_m; try assumption.
  apply Z.div_pos; [assumption|apply Z.pow_pos_nonneg; lia].
Qed.

(** Rounding a mantissa that is not negative gives a number. *)
Lemma binary_round_aux_not_nan (s : bool) (m e : Z) (l : location) :
  0 <= m -> binary_round_aux prec emax s m e l <> S754_nan.
Proof.
  intros Hm. rewrite binary_round_aux_unfold.
  pose proof (shr_fexp_nonneg m e l Hm) as H1.
  destruct (shr_fexp prec emax m e l) as [mrs' e']. cbn [fst] in H1.
  set (m1 := round_nearest_even (shr_m mrs') (loc_of_shr_record mrs')).
  assert (0 <= m1) as H2
    by (unfold m1;
        destruct (round_nearest_even_cases (shr_m mrs')
                    (loc_of_shr_record mrs')) as [-> | ->]; lia).
  pose proof (shr_fexp_nonneg m1 e' loc_Exact H2) as H3.
  destruct (shr_fexp prec emax m1 e' loc_Exact) as [mrs'' e''].
  cbn [fst] in H3. unfold finish.
  destruct (shr_m mrs''); [discriminate| |lia].
  now destruct (e'' <=? emax - prec).
Qed.

Lemma binary_normalize_not_nan (M e : Z) (sz : bool) :
  binary_normalize prec emax M e sz <> S754_nan.
Proof.
  unfold binary_normalize. destruct M as [|p|p]; [discriminate| |].
  - pose proof (binary_round_signed false p e) as H.
    now destruct (binary_round prec emax false p e).
  - pose proof (binary_round_signed true p e) as H.
    now destruct (binary_round prec emax true p e).
Qed.

(** A difference of finite floats is a number. *)
Lemma SFsub_not_nan (r d : spec_float) :
  valid_binary r = true -> valid_binary d = true ->
  SFfinite r = true -> d <> S754_nan -> SF64sub r d <> S754_nan.
Proof.
  intros Vr Vd Fr Nd.
  destruct r as [sr|sr| |sr mr er]; try discriminate;
    destruct d as [sd|sd| |sd md ed]; try discriminate;
    try contradiction;
    try (destruct sr, sd; discriminate).
  destruct (SFsub_finite sr sd mr md er ed Vr Vd) as (M & -> & _).
  apply binary_normalize_not_nan.
Qed.

Lemma SFsub_finite_not_nan (a b : spec_float) :
  valid_binary a = true -> valid_binary b = true ->
  SFfinite a = true -> SFfinite b = true -> SF64sub a b <> S754_nan.
Proof.
  intros Va Vb Fa Fb. apply SFsub_not_nan; auto.
  intros ->. discriminate.
Qed.

(** A square of a number is a number of positive sign. *)
Lemma SFmul_self (x : spec_float) :
  valid_binary x = true -> x <> S754_nan -> SFpositive_sign (SF64mul x x).
Proof.
  intros Vx Nx. destruct x as [s|s| |s m e]; try contradiction.
  - now destruct s.
  - now destruct s.
  - destruct (SFmul_finite s s m m e e Vx Vx) as [-> _].
    pose proof (binary_round_signed (xorb s s) (m * m) (e + e)) as H.
    destruct (binary_round prec emax (xorb s s) (m * m) (e + e));
      try contradiction; cbn [SFpositive_sign]; rewrite H; now destruct s.
Qed.

(** A sum of two numbers of positive sign is one. *)
Lemma SFadd_positive_sign (a b : spec_float) :
  valid_binary a = true -> valid_binary b = true ->
  SFpositive_sign a -> SFpositive_sign b -> SFpositive_sign (SF64add a b).
Proof.
  intros Va Vb Ha Hb.
  destruct a as [sa|sa| |sa ma ea]; try contradiction;
    destruct b as [sb|sb| |sb mb eb]; try contradiction;
    cbn [SFpositive_sign] in Ha, Hb; subst; try reflexivity.
  destruct (SFadd_finite false false ma mb ea eb Va Vb) as (M & -> & EM & Hz).
  cbn [SFvalue cond_Zopp] in EM.
  apply bounded_spec in Va as [Ca _]. apply bounded_spec in Vb as [Cb _].
  unfold fexp in Ca, Cb.
  assert (0 < Z.pos ma * 2 ^ (ea + 1074))
    by (apply Z.mul_pos_pos; [lia|apply Z.pow_pos_nonneg; lia]).
  assert (0 < Z.pos mb * 2 ^ (eb + 1074))
    by (apply Z.mul_pos_pos; [lia|apply Z.pow_pos_nonneg; lia]).
  assert (0 < 2 ^ (Z.min ea eb + 1074)) by (apply Z.pow_pos_nonneg; lia).
  assert (0 < M) by nia.
  destruct M as [|p|p]; try lia. unfold binary_normalize.
  pose proof (binary_round_signed false p (Z.min ea eb)) as H3.
  now destruct (binary_round prec emax false p (Z.min ea eb)).
Qed.

(** The square root of a number of positive sign is one. *)
Lemma SFsqrt_positive_sign (v : spec_float) :
  SFpositive_sign v -> SFpositive_sign (SF64sqrt v).
Proof.
  intros Hv. destruct v as [s|s| |s m e]; try contradiction;
    cbn [SFpositive_sign] in Hv; subst; try reflexivity.
  unfold SF64sqrt, SFsqrt.
  destruct (SFsqrt_core_binary prec emax (Z.pos m) e) as [[mz ez] lz] eqn:E.
  assert (0 <= mz) as Hm.
  { unfold SFsqrt_core_binary in E.
    set (m' := match _ - _ with Z0 => _ | Z.pos _ => _ | Z.neg _ => _ end)
      in E.
    assert (0 <= m') as Hm'.
    { unfold m'. destruct (_ - _); try lia. apply Z.shiftl_nonneg. lia. }
    pose proof (Z.sqrtrem_spec m' Hm') as S.
    destruct (Z.sqrtrem m') as [q r]. injection E as <- _ _. lia. }
  pose proof (binary_round_aux_not_nan false mz ez lz Hm) as N.
  pose proof (binary_round_aux_sign false mz ez lz) as S.
  now destruct (binary_round_aux prec emax false mz ez lz).
Qed.

Lemma SFpositive_sign_not_nan (x : spec_float) :
  SFpositive_sign x -> x <> S754_nan.
Proof. now destruct x. Qed.

Lemma SFpositive_sign_leb (x : spec_float) :
  SFpositive_sign x -> SFleb (S754_zero false) x = true.
Proof. destruct x as [s|s| |s m e]; simpl; try intros ->; easy. Qed.

End rounding_facts.

(** * Binary64 arithmetic of the seeds and of the sites *)

Module arith_facts.

Import binary64 float_facts rounding_facts.

Lemma is_finite_SFfinite (x : float) :
  is_finite x = true -> SFfinite (Prim2SF x) = true.
Proof.
  intros H. apply is_finite_spec in H.
  now destruct (Prim2SF x).
Qed.

Lemma SFfinite_is_finite (x : float) :
  SFfinite (Prim2SF x) = true -> is_finite x = true.
Proof.
  intros H. unfold is_finite, is_infinity.
  apply negb_true_iff, orb_false_iff. split.
  - destruct (is_nan x) eqn:E; [|reflexivity].
    apply is_nan_spec in E. rewrite E in H. discriminate.
  - rewrite eqb_spec, abs_spec.
    change (Prim2SF infinity) with (S754_infinity false).
    now destruct (Prim2SF x).
Qed.

Lemma is_nan_false (x : float) :
  is_nan x = false <-> Prim2SF x <> S754_nan.
Proof.
  split.
  - intros H E. apply is_nan_spec in E. congruence.
  - intros H. destruct (is_nan x) eqn:E; [|reflexivity].
    apply is_nan_spec in E. contradiction.
Qed.

(** Subtracting a number that is not negative does not increase a float. *)
Lemma sub_nonneg_le (r d : float) :
  (0 <=? d) = true -> is_nan (r - d) = true \/ (r - d <=? r) = true.
Proof.
  rewrite is_nan_spec, !leb_spec, sub_spec.
  change (Prim2SF 0) with (S754_zero false).
  apply SFsub_nonneg_le; apply Prim2SF_valid.
Qed.

(** A difference is positive exactly when the subtrahend is below the
    minuend and negative exactly when it is above. *)
Lemma sub_sign (r d : float) :
  (0 <? r - d) = (d <? r) /\ (r - d <? 0) = (r <? d).
Proof.
  rewrite !ltb_spec, sub_spec.
  change (Prim2SF 0) with (S754_zero false).
  apply SFsub_sign; apply Prim2SF_valid.
Qed.

(** The affine map of a number of [[0, 1)] onto an interval of finite
    width stays in the interval. *)
Lemma affine_in_interval (xmin xmax u : float) :
  is_finite xmin = true -> is_finite xmax = true ->
  is_finite (xmax - xmin) = true ->
  (xmin <=? xmax) = true -> (0 <=? u) = true -> (u <? 1) = true ->
  in_interval xmin xmax (xmin + u * (xmax - xmin)) = true.
Proof.
  intros Fmin Fmax Fw Hle Hu0 Hu1. unfold in_interval.
  apply is_finite_SFfinite in Fmin, Fmax, Fw.
  rewrite leb_spec in Hle, Hu0. rewrite ltb_spec in Hu1.
  rewrite sub_spec in Fw.
  change (Prim2SF 0) with (S754_zero false) in Hu0.
  change (Prim2SF 1) with SFone in Hu1.
  rewrite !leb_spec, add_spec, mul_spec, sub_spec.
  apply andb_true_iff.
  apply (SFaffine_in_interval (Prim2SF xmin) (Prim2SF xmax) (Prim2SF u));
    try assumption; try apply Prim2SF_valid.
  - rewrite <- sub_spec. apply Prim2SF_valid.
  - rewrite <- sub_spec, <- mul_spec. apply Prim2SF_valid.
Qed.

(** The binary64 distance between two points of finite coordinates is a
    number of positive sign. *)
Lemma distance_positive_sign (x y cx cy : float) :
  is_finite x = true -> is_finite y = true ->
  is_finite cx = true -> is_finite cy = true ->
  SFpositive_sign
    (Prim2SF (sqrt (np.square (x - cx) + np.square (y - cy)))).
Proof.
  intros Fx Fy Fcx Fcy. apply is_finite_SFfinite in Fx, Fy, Fcx, Fcy.
  unfold np.square. rewrite sqrt_spec, add_spec, !mul_spec.
  apply SFsqrt_positive_sign.
  apply SFadd_positive_sign;
    try (rewrite <- mul_spec; apply Prim2SF_valid);
    apply SFmul_self; try apply Prim2SF_valid;
    rewrite sub_spec; apply SFsub_finite_not_nan;
    try assumption; apply Prim2SF_valid.
Qed.

(** The value of a seed of finite radius at a point of finite coordinates
    is a number. *)
Lemma seed_value_not_nan (seed_radius cx cy x y : float) :
  is_finite seed_radius = true ->
  is_finite x = true -> is_finite y = true ->
  is_finite cx = true -> is_finite cy = true ->
  is_nan (seed_value seed_radius cx cy x y) = false.
Proof.
  intros Fr Fx Fy Fcx Fcy. apply is_finite_SFfinite in Fr.
  pose proof (distance_positive_sign x y cx cy Fx Fy Fcx Fcy) as Hd.
  apply is_nan_false. unfold seed_value. rewrite sub_spec.
  apply SFsub_not_nan; try apply Prim2SF_valid; try assumption.
  now apply SFpositive_sign_not_nan.
Qed.

(** No value of a seed is above the radius. *)
Lemma seed_value_le (seed_radius cx cy x y : float) :
  let v := seed_value seed_radius cx cy x y in
  is_nan v = true \/ (v <=? seed_radius) = true.
Proof.
  unfold seed_value.
  destruct (sqrt_nonneg (np.square (x - cx) + np.square (y - cy)))
    as [N|P].
  - left. apply is_nan_nan in N. rewrite N.
    apply is_nan_spec. rewrite sub_spec.
    change (Prim2SF nan) with S754_nan.
    now destruct (Prim2SF seed_radius).
  - now apply sub_nonneg_le.
Qed.

(** Two numbers that are each at most the other are equal as numbers. *)
Lemma leb_antisym (a b : float) :
  (a <=? b) = true -> (b <=? a) = true -> (a =? b) = true.
Proof.
  rewrite !leb_spec, eqb_spec. unfold SFleb, SFeqb.
  rewrite (SFcompare_antisym (Prim2SF a) (Prim2SF b)).
  destruct (SFcompare (Prim2SF a) (Prim2SF b)) as [[ | | ]|]; simpl;
    congruence.
Qed.

End arith_facts.

(** * Facts about the array operations *)

Module array_facts.

Import np_facts.

Lemma amap2_ext (f g : float -> float -> float) (a b : np.array2) :
  (forall x y, f x y = g x y) -> np.amap2 f a b = np.amap2 g a b.
Proof.
  intros H. unfold np.amap2. apply zip_with_ext.
  intros r1 r2. now apply zip_with_ext.
Qed.

Lemma amap_amap2 (f : float -> float) (g : float -> float -> float) a b :
  np.amap f (np.amap2 g a b) = np.amap2 (fun x y => f (g x y)) a b.
Proof.
  unfold np.amap, np.amap2. rewrite map_zip_with.
  apply zip_with_ext. intros r1 r2. apply map_zip_with.
Qed.

Lemma amap2_amap (f : float -> float -> float) (g h : float -> float) a b :
  np.amap2 f (np.amap g a) (np.amap h b)
  = np.amap2 (fun x y => f (g x) (h y)) a b.
Proof.
  unfold np.amap, np.amap2. rewrite zip_with_map.
  apply zip_with_ext. intros r1 r2. apply zip_with_map.
Qed.

Lemma amap_amap (f g : float -> float) a :
  np.amap f (np.amap g a) = np.amap (fun x => f (g x)) a.
Proof.
  unfold np.amap. rewrite map_map. apply map_ext. intros r. apply map_map.
Qed.

Lemma amap2_amap2 (f g h : float -> float -> float) a b :
  np.amap2 f (np.amap2 g a b) (np.amap2 h a b)
  = np.amap2 (fun x y => f (g x y) (h x y)) a b.
Proof.
  unfold np.amap2. rewrite zip_with_zip_with.
  apply zip_with_ext. intros r1 r2. apply zip_with_zip_with.
Qed.

(** On arrays of one shape a unary operation is a binary one that ignores
    its second argument. *)
Lemma amap_as_amap2 (f : float -> float) (a b : np.array2) :
  shape a = shape b -> np.amap f a = np.amap2 (fun x _ => f x) a b.
Proof.
  unfold shape, np.amap, np.amap2. revert b.
  induction a as [|r a IH]; intros [|r' b]; simpl; try discriminate; auto.
  intros [= Hr H]. rewrite (IH b H). f_equal.
  now apply map_as_zip_with.
Qed.

Lemma shape_amap (f : float -> float) (a : np.array2) :
  shape (np.amap f a) = shape a.
Proof.
  unfold shape, np.amap. rewrite map_map. apply map_ext.
  intros r. apply length_map.
Qed.

Lemma shape_amap2 (f : float -> float -> float) (a b : np.array2) :
  shape a = shape b -> shape (np.amap2 f a b) = shape a.
Proof.
  unfold shape, np.amap2. revert b.
  induction a as [|r a IH]; intros [|r' b]; simpl; try discriminate; auto.
  intros [= Hr H]. rewrite (IH b H). f_equal.
  rewrite length_zip_with, Hr. apply Nat.min_id.
Qed.

Lemma at2_amap2 (f : float -> float -> float) (a b : np.array2) r c x y :
  at2 a r c = Some x -> at2 b r c = Some y ->
  at2 (np.amap2 f a b) r c = Some (f x y).
Proof.
  unfold at2. intros Ha Hb.
  apply bind_some in Ha as (ra & Ha & Hx).
  apply bind_some in Hb as (rb & Hb & Hy).
  unfold np.amap2.
  rewrite (nth_error_zip_with _ a b r ra rb Ha Hb). simpl.
  now apply nth_error_zip_with.
Qed.

Lemma at2_amap (f : float -> float) (a : np.array2) r c x :
  at2 a r c = Some x -> at2 (np.amap f a) r c = Some (f x).
Proof.
  unfold at2, np.amap. intros Ha.
  apply bind_some in Ha as (ra & Ha & Hx).
  rewrite nth_error_map, Ha. simpl.
  now rewrite nth_error_map, Hx.
Qed.

(** An entry of an array is among its values. *)
Lemma at2_In (a : np.array2) r c v :
  at2 a r c = Some v -> In v (concat a).
Proof.
  unfold at2. intros H. apply bind_some in H as (row & Hr & Hv).
  apply in_concat. exists row.
  split; eapply nth_error_In; eassumption.
Qed.

Lemma zip_with_In {A B C : Type} (f : A -> B -> C) (a : list A)
    (b : list B) (v : C) :
  In v (np.zip_with f a b) -> exists x y, In x a /\ In y b /\ v = f x y.
Proof.
  revert b. induction a as [|x a IH]; intros [|y b] H;
    try contradiction.
  destruct H as [<- | H].
  - exists x, y. repeat split; now left.
  - destruct (IH b H) as (x' & y' & Hx & Hy & E).
    exists x', y'. repeat split; auto; now right.
Qed.

(** A value of an elementwise combination comes from a value of each
    array. *)
Lemma concat_amap2_In (f : float -> float -> float) (a b : np.array2) v :
  In v (concat (np.amap2 f a b)) ->
  exists x y, In x (concat a) /\ In y (concat b) /\ v = f x y.
Proof.
  intros H. apply in_concat in H as (row & Hrow & Hv).
  apply zip_with_In in Hrow as (ra & rb & Ha & Hb & ->).
  apply zip_with_In in Hv as (x & y & Hx & Hy & ->).
  exists x, y. repeat split; auto; apply in_concat; eauto.
Qed.

End array_facts.

(** * Facts about [np.maximum] *)

Module maximum_facts.

Import float_facts.

(** Minus infinity is neutral on the left: the start value of [dfun_init]
    disappears at the first seed. *)
Lemma maximum_neg_infinity_l (c : float) : np.maximum neg_infinity c = c.
Proof.
  unfold np.maximum. change (is_nan neg_infinity) with false.
  rewrite orb_false_r.
  destruct (c <=? neg_infinity) eqn:E; [|reflexivity].
  symmetry. now apply leb_neg_infinity.
Qed.

Lemma maximum_nan_l (b : float) : np.maximum nan b = nan.
Proof.
  unfold np.maximum. change (is_nan nan) with true.
  now rewrite orb_true_r.
Qed.

Lemma maximum_nan_r (a : float) : np.maximum a nan = nan.
Proof.
  unfold np.maximum.
  destruct (nan <=? a) eqn:E.
  - apply leb_not_nan in E as [E _]. discriminate E.
  - simpl. destruct (is_nan a) eqn:Ha; [|reflexivity].
    now apply is_nan_nan.
Qed.

(** On two numbers [np.maximum] returns one of them, above the other. *)
Lemma maximum_cases (a b : float) :
  is_nan a = false -> is_nan b = false ->
  (np.maximum a b = a /\ (b <=? a) = true) \/
  (np.maximum a b = b /\ (a <=? b) = true).
Proof.
  intros Ha Hb. unfold np.maximum. rewrite Ha, orb_false_r.
  destruct (b <=? a) eqn:E; [now left|right].
  split; [reflexivity|]. now apply leb_total.
Qed.

(** The running maximum of numbers is a number, at least the start value
    and every element, and it is the start value or one of the elements. *)
Lemma max_over_spec (vs : list float) (start : float) :
  is_nan start = false ->
  Forall (fun v => is_nan v = false) vs ->
  is_nan (max_over start vs) = false /\
  (start <=? max_over start vs) = true /\
  Forall (fun v => (v <=? max_over start vs) = true) vs /\
  (max_over start vs = start \/ In (max_over start vs) vs).
Proof.
  revert start. induction vs as [|v vs IH]; intros start Hs Hvs.
  - simpl. repeat split; auto. now apply leb_refl.
  - inversion Hvs as [|v' vs' Hv Hvs']; subst.
    change (max_over start (v :: vs))
      with (max_over (np.maximum start v) vs).
    destruct (maximum_cases start v Hs Hv) as [[E L]|[E L]]; rewrite E.
    + destruct (IH start Hs Hvs') as (N & S & A & I).
      repeat split; auto.
      * constructor; auto. now apply leb_trans with start.
      * destruct I; [now left|right; now right].
    + destruct (IH v Hv Hvs') as (N & S & A & I).
      repeat split; auto.
      * now apply leb_trans with v.
      * destruct I as [I|I]; right; [left; now rewrite I|now right].
Qed.

(** A NaN among the values, or as start value, makes the result NaN. *)
Lemma max_over_nan_start (vs : list float) : max_over nan vs = nan.
Proof.
  induction vs as [|v vs IH]; [reflexivity|].
  change (max_over nan (v :: vs)) with (max_over (np.maximum nan v) vs).
  now rewrite maximum_nan_l.
Qed.

Lemma max_over_nan (vs : list float) (start : float) :
  Exists (fun v => is_nan v = true) vs -> max_over start vs = nan.
Proof.
  intros H. revert start. induction H as [v vs Hv|v vs H IH]; intros start.
  - change (max_over start (v :: vs))
      with (max_over (np.maximum start v) vs).
    apply is_nan_nan in Hv. subst v.
    rewrite maximum_nan_r. apply max_over_nan_start.
  - apply IH.
Qed.

End maximum_facts.

(** * dfun_init *)

Module dfun_init_facts.

Import np_facts float_facts arith_facts array_facts maximum_facts.

Section with_cos.

Variable np_cos : float -> float.

(** The array expression of line 52 computes [seed_value] at every grid
    point. *)
Lemma interim_dfun_pointwise x_grid y_grid seed_x seed_y seed_radius :
  interim_dfun x_grid y_grid seed_x seed_y seed_radius
  = np.amap2 (seed_value seed_radius seed_x seed_y) x_grid y_grid.
Proof.
  unfold interim_dfun. rewrite !amap_amap, amap2_amap, !amap_amap2.
  reflexivity.
Qed.

Lemma fold_left_ext {A B : Type} (f g : A -> B -> A) (l : list B) (a : A) :
  (forall x y, f x y = g x y) -> fold_left f l a = fold_left g l a.
Proof.
  intros H. revert a. induction l as [|y l IH]; intros a; simpl; auto.
  now rewrite H, IH.
Qed.

(** Max-composing, site after site, arrays that are given pointwise yields
    the pointwise running maximum. *)
Lemma fold_maximum_pointwise {S : Type} x_grid y_grid
    (G : S -> float -> float -> float) (sites : list S)
    (F : float -> float -> float) :
  fold_left
    (fun dfun site =>
       np.amap2 np.maximum dfun (np.amap2 (G site) x_grid y_grid))
    sites (np.amap2 F x_grid y_grid)
  = np.amap2 (fun x y => max_over (F x y) (map (fun site => G site x y) sites))
      x_grid y_grid.
Proof.
  revert F. induction sites as [|site sites IH]; intros F.
  - reflexivity.
  - simpl fold_left. rewrite amap2_amap2, IH. reflexivity.
Qed.

(** The field of [dfun_init] in pointwise form: at the grid point [(x, y)]
    the running [np.maximum], from minus infinity, of the seed values of the
    sites in their order. *)
Lemma dfun_init_pointwise x_grid y_grid x_sites y_sites seed_radius :
  shape x_grid = shape y_grid ->
  dfun_init np_cos x_grid y_grid x_sites y_sites seed_radius
  = np.amap2
      (fun x y =>
         max_over neg_infinity
           (seed_values seed_radius (seed_height np_cos seed_radius)
                        (combine x_sites y_sites) x y))
      x_grid y_grid.
Proof.
  intros Hs. unfold dfun_init, np.zeros_like. rewrite amap_amap.
  rewrite (amap_as_amap2 _ x_grid y_grid Hs).
  rewrite (fold_left_ext _
             (fun dfun site =>
                np.amap2 np.maximum dfun
                  (np.amap2
                     (fun x y =>
                        seed_value seed_radius (fst site)
                          (snd site + seed_height np_cos seed_radius) x y)
                     x_grid y_grid)))
    by (intros; now rewrite interim_dfun_pointwise).
  apply (fold_maximum_pointwise x_grid y_grid
           (fun site x y =>
              seed_value seed_radius (fst site)
                (snd site + seed_height np_cos seed_radius) x y)).
Qed.

(** C4: [dfun_init] returns a field of the shape of the grid whose value at
    every grid point is the maximum over all sites of
    [seed_radius - distance(grid point, (x_site, y_site + seed_radius*cos 45))],
    taken by [np.maximum] from minus infinity.  When no seed value is NaN
    that value is at least every seed value and is one of them; a NaN seed
    value makes it NaN.  With no site every entry is minus infinity. *)
Theorem C4_dfun_init_max_over_sites
    x_grid y_grid x_sites y_sites seed_radius :
  shape x_grid = shape y_grid ->
  let sites := combine x_sites y_sites in
  let sh := seed_height np_cos seed_radius in
  let dfun := dfun_init np_cos x_grid y_grid x_sites y_sites seed_radius in
  shape dfun = shape x_grid /\
  (forall r c x y,
      at2 x_grid r c = Some x -> at2 y_grid r c = Some y ->
      let vs := seed_values seed_radius sh sites x y in
      at2 dfun r c = Some (max_over neg_infinity vs) /\
      (Forall (fun v => is_nan v = false) vs ->
       Forall (fun v => (v <=? max_over neg_infinity vs) = true) vs /\
       (vs = [] \/ In (max_over neg_infinity vs) vs)) /\
      (Exists (fun v => is_nan v = true) vs ->
       max_over neg_infinity vs = nan)) /\
  (sites = [] -> dfun = np.amap (fun _ => neg_infinity) x_grid).
Proof.
  intros Hs sites sh dfun. split; [|split].
  - unfold dfun. rewrite dfun_init_pointwise by assumption.
    now apply shape_amap2.
  - intros r c x y Hx Hy vs. split; [|split].
    + unfold dfun. rewrite dfun_init_pointwise by assumption.
      now rewrite (at2_amap2 _ x_grid y_grid r c x y Hx Hy).
    + intros Hv.
      destruct (max_over_spec vs neg_infinity eq_refl Hv) as (_ & _ & A & I).
      split; [assumption|].
      destruct I as [I|I]; [|now right].
      destruct vs as [|v vs']; [now left|right].
      inversion A as [|v0 vs0 Lv _]; subst.
      rewrite I in Lv. apply leb_neg_infinity in Lv.
      left. now rewrite I.
    + apply max_over_nan.
  - intros E. unfold dfun, dfun_init. fold sites. rewrite E. simpl.
    unfold np.zeros_like. now rewrite amap_amap.
Qed.

(** C6, as amended: for a single site every entry of the field of
    [dfun_init] is the radius minus the binary64 distance from its grid
    point to the seed centre [(x_site, y_site + seed_radius*cos 45)]; no
    entry is above the radius; an entry is positive exactly where the
    distance is below the radius and negative exactly where it is above,
    so the field changes sign across the circle of that radius around the
    centre; a grid point with finite coordinates that is the seed centre
    holds exactly the radius.  On a grid of finite coordinates that has
    the seed centre among its points, the largest entry of the field
    equals the radius. *)
Theorem C6_single_seed_field x_grid y_grid x_site y_site seed_radius :
  shape x_grid = shape y_grid ->
  let cy := y_site + seed_height np_cos seed_radius in
  let dfun := dfun_init np_cos x_grid y_grid [x_site] [y_site] seed_radius in
  (forall r c x y,
     at2 x_grid r c = Some x -> at2 y_grid r c = Some y ->
     let d := sqrt (np.square (x - x_site) + np.square (y - cy)) in
     let v := seed_radius - d in
     at2 dfun r c = Some v /\
     (is_nan v = true \/ (v <=? seed_radius) = true) /\
     (0 <? v) = (d <? seed_radius) /\
     (v <? 0) = (seed_radius <? d) /\
     (x = x_site -> y = cy -> is_finite x = true -> is_finite y = true ->
      v = seed_radius)) /\
  (finite_array x_grid -> finite_array y_grid ->
   is_finite x_site = true -> is_finite cy = true ->
   is_finite seed_radius = true ->
   (exists r c, at2 x_grid r c = Some x_site /\ at2 y_grid r c = Some cy) ->
   (array_max dfun =? seed_radius) = true).
Proof.
  intros Hs cy dfun.
  assert (dfun = np.amap2 (seed_value seed_radius x_site cy) x_grid y_grid)
    as Hdfun.
  { unfold dfun. rewrite dfun_init_pointwise by assumption.
    apply amap2_ext. intros x y. unfold seed_values, max_over. simpl.
    apply maximum_neg_infinity_l. }
  assert (forall x y, x = x_site -> y = cy ->
            is_finite x = true -> is_finite y = true ->
            seed_value seed_radius x_site cy x y = seed_radius) as Hcentre.
  { intros x y Ex Ey Fx Fy. unfold seed_value.
    rewrite <- Ex, <- Ey, !sub_diag by assumption.
    change (sqrt (np.square 0 + np.square 0)) with 0.
    apply sub_zero. }
  split.
  - intros r c x y Hx Hy d v.
    split; [|split; [|split; [|split]]].
    + rewrite Hdfun.
      now rewrite (at2_amap2 _ x_grid y_grid r c x y Hx Hy).
    + apply (seed_value_le seed_radius x_site cy x y).
    + apply sub_sign.
    + apply sub_sign.
    + apply Hcentre.
  - intros Fxg Fyg Fx Fcy Fr (r & c & Hx & Hy).
    unfold finite_array in Fxg, Fyg. rewrite Forall_forall in Fxg, Fyg.
    assert (Forall (fun v => is_nan v = false) (concat dfun)) as Hnum.
    { apply Forall_forall. intros v Hv. rewrite Hdfun in Hv.
      apply concat_amap2_In in Hv as (x & y & Ix & Iy & ->).
      apply seed_value_not_nan; auto. }
    assert (In seed_radius (concat dfun)) as Hin.
    { apply (at2_In dfun r c). rewrite Hdfun.
      rewrite (at2_amap2 _ x_grid y_grid r c x_site cy Hx Hy).
      f_equal. now apply Hcentre. }
    assert (is_nan seed_radius = false) as Nr.
    { rewrite Forall_forall in Hnum. now apply Hnum. }
    unfold array_max.
    destruct (max_over_spec (concat dfun) neg_infinity eq_refl Hnum)
      as (N & _ & A & I).
    rewrite Forall_forall in A.
    apply leb_antisym; [|now apply A].
    destruct I as [-> | I]; [now apply neg_infinity_leb|].
    set (m := max_over neg_infinity (concat dfun)) in *.
    rewrite Hdfun in I.
    apply concat_amap2_In in I as (x & y & _ & _ & E).
    destruct (seed_value_le seed_radius x_site cy x y) as [B|B];
      rewrite <- E in B; [congruence|exact B].
Qed.

(** C7: the field of two sites is the pointwise [np.maximum] of the two
    fields of the single sites, on the same grid and radius. *)
Theorem C7_dfun_init_union x_grid y_grid x1 y1 x2 y2 seed_radius :
  shape x_grid = shape y_grid ->
  dfun_init np_cos x_grid y_grid [x1; x2] [y1; y2] seed_radius
  = np.amap2 np.maximum
      (dfun_init np_cos x_grid y_grid [x1] [y1] seed_radius)
      (dfun_init np_cos x_grid y_grid [x2] [y2] seed_radius).
Proof.
  intros Hs. rewrite !dfun_init_pointwise by assumption.
  rewrite amap2_amap2. apply amap2_ext. intros x y.
  unfold seed_values, max_over. simpl.
  now rewrite !maximum_neg_infinity_l.
Qed.

End with_cos.

End dfun_init_facts.

(** The theorems on [dfun_init], evaluated on the example mesh. *)

Lemma C4_dfun_init_max_over_sites_witness :
  shape Example.x_grid = shape Example.y_grid /\
  shape (dfun_init Example.cos Example.x_grid Example.y_grid
                   [0; 1] [1e-13; 1e-13] 0.2)
  = shape Example.x_grid.
Proof.
  split; [reflexivity|].
  apply (dfun_init_facts.C4_dfun_init_max_over_sites Example.cos
           Example.x_grid Example.y_grid [0; 1] [1e-13; 1e-13] 0.2).
  reflexivity.
Defined.

Lemma C6_single_seed_field_witness :
  shape Example.centre_x_grid = shape Example.centre_y_grid /\
  finite_array Example.centre_x_grid /\
  finite_array Example.centre_y_grid /\
  (array_max (dfun_init Example.cos Example.centre_x_grid
                Example.centre_y_grid [0] [1e-13] 0.2) =? 0.2) = true.
Proof.
  assert (finite_array Example.centre_x_grid) as Fx
    by (repeat constructor).
  assert (finite_array Example.centre_y_grid) as Fy
    by (repeat constructor).
  split; [reflexivity|]. split; [exact Fx|]. split; [exact Fy|].
  apply (dfun_init_facts.C6_single_seed_field Example.cos
           Example.centre_x_grid Example.centre_y_grid 0 1e-13 0.2
           eq_refl); try assumption; try reflexivity.
  exists 0%nat, 0%nat. split; reflexivity.
Defined.

(** C6 as the specification states it fails on a grid that misses the seed
    centre: on the example mesh the largest entry of the single-seed field
    is negative, not the radius [0.2]. *)
Lemma C6_counterexample :
  array_max (dfun_init Example.cos Example.x_grid Example.y_grid
                       [0] [1e-13] 0.2) <> 0.2.
Proof.
  intros H.
  apply (f_equal (fun v => v <? 0)) in H.
  vm_compute in H. discriminate H.
Qed.

Lemma C7_dfun_init_union_witness :
  shape Example.x_grid = shape Example.y_grid /\
  dfun_init Example.cos Example.x_grid Example.y_grid
            [-1; 1] [1e-13; 1e-13] 0.2
  = np.amap2 np.maximum
      (dfun_init Example.cos Example.x_grid Example.y_grid [-1] [1e-13] 0.2)
      (dfun_init Example.cos Example.x_grid Example.y_grid [1] [1e-13] 0.2).
Proof.
  split; [reflexivity|].
  apply (dfun_init_facts.C7_dfun_init_union Example.cos
           Example.x_grid Example.y_grid (-1) 1e-13 1 1e-13 0.2).
  reflexivity.
Defined.

(** * np.searchsorted *)

Module searchsorted_facts.

Lemma midpoint_bounds (lo hi : nat) :
  (lo < hi)%nat ->
  (lo <= lo + Nat.div2 (hi - lo) < hi)%nat.
Proof.
  intros H.
  assert (Nat.div2 (hi - lo) < hi - lo)%nat by (apply Nat.lt_div2; lia).
  generalize dependent (Nat.div2 (hi - lo)). intros d Hd. lia.
Qed.

(** The search stays between its bounds. *)
Lemma binsearch_bounds (fuel : nat) arr key (lo hi : nat) :
  (lo <= hi)%nat ->
  (lo <= np.binsearch fuel arr key lo hi <= hi)%nat.
Proof.
  revert lo hi. induction fuel as [|fuel IH]; intros lo hi H; simpl.
  - lia.
  - destruct (lo <? hi)%nat eqn:E; [|lia].
    apply Nat.ltb_lt in E.
    pose proof (midpoint_bounds lo hi E) as M.
    set (mid := (lo + Nat.div2 (hi - lo))%nat) in *. clearbody mid.
    destruct (np.less _ key).
    + specialize (IH (S mid) hi). lia.
    + specialize (IH lo mid). lia.
Qed.

(** Once the fuel covers the interval, more fuel changes nothing: the loop
    of the source has ended. *)
Lemma binsearch_fuel (fuel fuel' : nat) arr key (lo hi : nat) :
  (hi - lo <= fuel)%nat -> (hi - lo <= fuel')%nat ->
  np.binsearch fuel arr key lo hi = np.binsearch fuel' arr key lo hi.
Proof.
  revert fuel' lo hi.
  induction fuel as [|fuel IH]; intros [|fuel'] lo hi H H'; simpl.
  - reflexivity.
  - replace (lo <? hi)%nat with false; [reflexivity|].
    symmetry. apply Nat.ltb_ge. lia.
  - replace (lo <? hi)%nat with false; [reflexivity|].
    symmetry. apply Nat.ltb_ge. lia.
  - destruct (lo <? hi)%nat eqn:E; [|reflexivity].
    apply Nat.ltb_lt in E.
    pose proof (midpoint_bounds lo hi E) as M.
    set (mid := (lo + Nat.div2 (hi - lo))%nat) in *. clearbody mid.
    destruct (np.less _ key); apply IH; lia.
Qed.

(** When the loop ends the two bounds have met, at the position returned. *)
Lemma binsearch_partition (fuel : nat) arr key (lo hi : nat) :
  (lo <= hi)%nat -> (hi - lo <= fuel)%nat ->
  (forall i j, (i <= j)%nat ->
     np.less (nth j arr nan) key = true ->
     np.less (nth i arr nan) key = true) ->
  (forall i, (i < lo)%nat -> np.less (nth i arr nan) key = true) ->
  (forall i, (hi <= i)%nat -> (i < length arr)%nat ->
     np.less (nth i arr nan) key = false) ->
  let k := np.binsearch fuel arr key lo hi in
  (forall i, (i < k)%nat -> np.less (nth i arr nan) key = true) /\
  (forall i, (k <= i)%nat -> (i < length arr)%nat ->
     np.less (nth i arr nan) key = false).
Proof.
  intros Hle Hfuel Hmono. revert lo hi Hle Hfuel.
  induction fuel as [|fuel IH]; intros lo hi Hle Hfuel Hlo Hhi; simpl.
  - split; [assumption|]. intros i Hi. apply Hhi. lia.
  - destruct (lo <? hi)%nat eqn:E.
    + apply Nat.ltb_lt in E.
      pose proof (midpoint_bounds lo hi E) as M.
      set (mid := (lo + Nat.div2 (hi - lo))%nat) in *. clearbody mid.
      destruct (np.less (nth mid arr nan) key) eqn:L.
      * apply IH; try lia; [|assumption].
        intros i Hi. apply (Hmono i mid); [lia|assumption].
      * apply IH; try lia; [assumption|].
        intros i Hi Hlen.
        destruct (np.less (nth i arr nan) key) eqn:Li; [|reflexivity].
        rewrite (Hmono mid i Hi Li) in L.
        discriminate L.
    + apply Nat.ltb_ge in E. split; [assumption|].
      intros i Hi. apply Hhi. lia.
Qed.

(** [np.searchsorted] returns an insertion position of the axis. *)
Lemma searchsorted_bounds arr key :
  (0 <= np.searchsorted arr key <= Z.of_nat (length arr))%Z.
Proof.
  unfold np.searchsorted.
  pose proof (binsearch_bounds (length arr) arr key 0 (length arr)).
  lia.
Qed.

(** On an axis that the comparison of [np.searchsorted] orders, the entries
    before the returned position are below the key and the others are
    not: the position of [side='left']. *)
Lemma searchsorted_left arr key :
  (forall i j, (i <= j)%nat ->
     np.less (nth j arr nan) key = true ->
     np.less (nth i arr nan) key = true) ->
  let k := Z.to_nat (np.searchsorted arr key) in
  (forall i, (i < k)%nat -> np.less (nth i arr nan) key = true) /\
  (forall i, (k <= i)%nat -> (i < length arr)%nat ->
     np.less (nth i arr nan) key = false).
Proof.
  intros Hmono. unfold np.searchsorted. rewrite Nat2Z.id.
  apply binsearch_partition; try lia; auto.
Qed.

End searchsorted_facts.

(** * tag_renucleation *)

Module tag_facts.

Import np_facts searchsorted_facts.

Lemma nth_error_combine {A B : Type} (l : list A) (l' : list B) i x y :
  nth_error l i = Some x -> nth_error l' i = Some y ->
  nth_error (combine l l') i = Some (x, y).
Proof.
  revert l' i. induction l as [|a l IH]; intros [|b l'] [|i]; simpl;
    try discriminate.
  - now intros [= ->] [= ->].
  - intros Hx Hy. now apply IH.
Qed.

Lemma nth_error_Some_lt {A : Type} (l : list A) i x :
  nth_error l i = Some x -> (i < length l)%nat.
Proof. intros H. apply nth_error_Some. congruence. Qed.

(** A row of a rectangular array, and an entry of it. *)
Lemma rectangular_row dfun ny nx r :
  rectangular dfun ny nx -> (r < ny)%nat ->
  exists row, nth_error dfun r = Some row /\ length row = nx.
Proof.
  intros [Hlen Hrows] Hr.
  destruct (nth_error dfun r) as [row|] eqn:E.
  - exists row. split; [reflexivity|].
    rewrite Forall_forall in Hrows. apply Hrows.
    now apply nth_error_In with r.
  - apply nth_error_None in E. lia.
Qed.

Lemma rectangular_at2 dfun ny nx r c :
  rectangular dfun ny nx -> (r < ny)%nat -> (c < nx)%nat ->
  exists v, at2 dfun r c = Some v.
Proof.
  intros Hrect Hr Hc.
  destruct (rectangular_row dfun ny nx r Hrect Hr) as (row & E & L).
  unfold at2. rewrite E. simpl.
  destruct (nth_error row c) as [v|] eqn:Ev; [now exists v|].
  apply nth_error_None in Ev. lia.
Qed.

(** [dfun[i, j]] on a rectangular array reads the entry at the positions
    the two indices are normalised to. *)
Lemma getitem2_rectangular dfun ny nx i j r c :
  rectangular dfun ny nx ->
  np.norm_index ny i = Some r -> np.norm_index nx j = Some c ->
  np.getitem2 dfun i j = at2 dfun r c /\ at2 dfun r c <> None.
Proof.
  intros Hrect Hi Hj.
  pose proof (norm_index_bound _ _ _ Hi) as Hr.
  pose proof (norm_index_bound _ _ _ Hj) as Hc.
  destruct (rectangular_row dfun ny nx r Hrect Hr) as (row & E & L).
  destruct (rectangular_at2 dfun ny nx r c Hrect Hr Hc) as (v & Ev).
  split; [|congruence].
  unfold np.getitem2, np.getitem, at2.
  destruct Hrect as [Hlen _]. rewrite Hlen, Hi. simpl.
  rewrite E. simpl. now rewrite L, Hj.
Qed.

(** An index that is at least [-1] and below the length of a non-empty
    axis is accepted. *)
Lemma norm_index_from_minus_one (n : nat) (i : Z) :
  (0 < n)%nat -> (-1 <= i < Z.of_nat n)%Z ->
  exists k, np.norm_index n i = Some k.
Proof.
  intros Hn H. destruct (Z.eq_dec i (-1)) as [->|N].
  - exists (n - 1)%nat. apply norm_index_minus_one. lia.
  - exists (Z.to_nat i). apply norm_index_inside. lia.
Qed.

Section with_field.

Variables (dfun : np.array2) (coordx coordy : np.array1) (sh : float).

Let x_index (site : float * float) : Z := np.searchsorted coordx (fst site).
Let y_index (site : float * float) : Z :=
  np.searchsorted coordy (snd site + sh).

(** The sample of a site, once its four reads succeed. *)
Lemma sample_site_some site v11 v01 v10 v00 :
  np.getitem2 dfun (y_index site) (x_index site) = Some v11 ->
  np.getitem2 dfun (y_index site - 1) (x_index site) = Some v01 ->
  np.getitem2 dfun (y_index site) (x_index site - 1) = Some v10 ->
  np.getitem2 dfun (y_index site - 1) (x_index site - 1) = Some v00 ->
  sample_site dfun coordx coordy sh site
  = Some ((v11 + v01 + v10 + v00) / 4).
Proof.
  intros H1 H2 H3 H4. unfold sample_site.
  fold (x_index site). fold (y_index site).
  now rewrite H1, H2, H3, H4.
Qed.

(** A sample that exists is the mean of four successful reads. *)
Lemma sample_site_inv site m :
  sample_site dfun coordx coordy sh site = Some m ->
  exists v11 v01 v10 v00,
    np.getitem2 dfun (y_index site) (x_index site) = Some v11 /\
    np.getitem2 dfun (y_index site - 1) (x_index site) = Some v01 /\
    np.getitem2 dfun (y_index site) (x_index site - 1) = Some v10 /\
    np.getitem2 dfun (y_index site - 1) (x_index site - 1) = Some v00 /\
    m = (v11 + v01 + v10 + v00) / 4.
Proof.
  unfold sample_site. fold (x_index site). fold (y_index site).
  intros H.
  apply bind_some in H as (v11 & H1 & H).
  apply bind_some in H as (v01 & H2 & H).
  apply bind_some in H as (v10 & H3 & H).
  apply bind_some in H as (v00 & H4 & H).
  injection H as <-. now exists v11, v01, v10, v00.
Qed.

(** The counter update of one site. *)
Lemma tag_counter_some iters i m c :
  nth_error iters i = Some c ->
  tag_counter iters i m = Some (np.update iters i (tagged_count m c)).
Proof.
  intros Hc. pose proof (nth_error_Some_lt _ _ _ Hc) as Hi.
  unfold tag_counter, tagged_count.
  destruct (m <? 0).
  - rewrite getitem_nat, Hc. simpl. now apply setitem_nat.
  - now apply setitem_nat.
Qed.

(** The loop over the sites: every site numbered [i] or more gets its
    sample and its counter update, every other entry is left as it was. *)
Lemma tag_loop_spec sites ms :
  Forall2 (fun site m => sample_site dfun coordx coordy sh site = Some m)
          sites ms ->
  forall i dfun_sites iters,
    (i + length sites <= length dfun_sites)%nat ->
    (i + length sites <= length iters)%nat ->
    exists dfun_sites' iters',
      tag_loop dfun coordx coordy sh i sites dfun_sites iters
      = Some (dfun_sites', iters') /\
      length dfun_sites' = length dfun_sites /\
      length iters' = length iters /\
      (forall j m, nth_error ms j = Some m ->
         nth_error dfun_sites' (i + j) = Some m /\
         exists c, nth_error iters (i + j) = Some c /\
                   nth_error iters' (i + j) = Some (tagged_count m c)) /\
      (forall j, (j < i \/ i + length sites <= j)%nat ->
         nth_error dfun_sites' j = nth_error dfun_sites j /\
         nth_error iters' j = nth_error iters j).
Proof.
  induction 1 as [|site m sites ms Hm Hrest IH];
    intros i dfun_sites iters Hd Hi; simpl in *.
  - exists dfun_sites, iters. repeat split; auto;
      destruct j; discriminate.
  - rewrite Hm. simpl.
    rewrite setitem_nat by lia. simpl.
    destruct (nth_error iters i) as [c|] eqn:Ec;
      [|apply nth_error_None in Ec; lia].
    rewrite (tag_counter_some iters i m c Ec). simpl.
    destruct (IH (S i) (np.update dfun_sites i m)
                 (np.update iters i (tagged_count m c)))
      as (ds' & it' & E & Ld & Li & Hin & Hout);
      rewrite ?length_update; try lia.
    exists ds', it'. rewrite length_update in Ld, Li.
    split; [assumption|]. split; [assumption|]. split; [assumption|].
    split.
    + intros [|j] m' Hj; simpl in Hj.
      * injection Hj as <-. rewrite Nat.add_0_r.
        destruct (Hout i) as [Hd' Hi']; [lia|].
        rewrite Hd', Hi', !nth_error_update_same by lia.
        split; [reflexivity|]. now exists c.
      * destruct (Hin j m' Hj) as (Hd' & c' & Hc' & Hi').
        replace (i + S j)%nat with (S i + j)%nat by lia.
        split; [assumption|]. exists c'. split; [|assumption].
        rewrite nth_error_update_other in Hc' by lia. assumption.
    + intros j Hj. destruct (Hout j) as [Hd' Hi']; [lia|].
      rewrite Hd', Hi', !nth_error_update_other by lia. now split.
Qed.

End with_field.

Lemma Forall_some_Forall2 {A B : Type} (f : A -> option B) (l : list A) :
  Forall (fun a => f a <> None) l ->
  exists ms, Forall2 (fun a m => f a = Some m) l ms.
Proof.
  induction 1 as [|a l Ha _ (ms & IH)].
  - exists []. constructor.
  - destruct (f a) as [m|] eqn:E; [|congruence].
    exists (m :: ms). now constructor.
Qed.

Lemma Forall2_nth_error {A B : Type} (R : A -> B -> Prop) l ms i a :
  Forall2 R l ms -> nth_error l i = Some a ->
  exists m, nth_error ms i = Some m /\ R a m.
Proof.
  intros H. revert i. induction H as [|a' m' l ms Hr _ IH]; intros [|i];
    simpl; try discriminate.
  - intros [= <-]. now exists m'.
  - apply IH.
Qed.

Section with_cos.

Variable np_cos : float -> float.

(** What [tag_renucleation] returns when no read of the field raises. *)
Lemma tag_renucleation_spec
    x_sites y_sites dfun coordx coordy seed_radius iters :
  let sh := seed_height np_cos seed_radius in
  Forall (fun site => sample_site dfun coordx coordy sh site <> None)
         (combine x_sites y_sites) ->
  (length (combine x_sites y_sites) <= length iters)%nat ->
  exists dfun_sites iters',
    tag_renucleation np_cos x_sites y_sites dfun coordx coordy seed_radius
                     iters
    = Some (dfun_sites, iters') /\
    length dfun_sites = length x_sites /\
    length iters' = length iters /\
    (forall i site c,
        nth_error (combine x_sites y_sites) i = Some site ->
        nth_error iters i = Some c ->
        exists m,
          sample_site dfun coordx coordy sh site = Some m /\
          nth_error dfun_sites i = Some m /\
          nth_error iters' i = Some (tagged_count m c)) /\
    (forall i, (length (combine x_sites y_sites) <= i)%nat ->
        nth_error iters' i = nth_error iters i).
Proof.
  intros sh Hs Hi.
  destruct (Forall_some_Forall2 _ _ Hs) as (ms & Hms).
  unfold tag_renucleation. fold sh.
  destruct (tag_loop_spec dfun coordx coordy sh _ ms Hms 0%nat
              (np.zeros_like1 x_sites) iters)
    as (ds' & it' & E & Ld & Li & Hin & Hout).
  { unfold np.zeros_like1. rewrite length_map, length_combine. simpl. lia. }
  { simpl. lia. }
  exists ds', it'. split; [assumption|].
  split; [unfold np.zeros_like1 in Ld; now rewrite length_map in Ld|].
  split; [assumption|]. split.
  - intros i site c Hsite Hc.
    destruct (Forall2_nth_error _ _ _ _ _ Hms Hsite) as (m & Hm & Sm).
    destruct (Hin i m Hm) as (Hd & c' & Hc' & Hi').
    simpl in Hd, Hc', Hi'. exists m.
    split; [assumption|]. split; [assumption|]. congruence.
  - intros i Hlen. apply (Hout i). simpl. lia.
Qed.

(** C3: for every site [i], with [x_i] and [y_i] the positions
    [np.searchsorted(..., side='left')] finds for the site's x and for its y
    plus [seed_radius*cos 45], [tag_renucleation] returns in [dfun_sites[i]]
    the mean [(dfun[y_i, x_i] + dfun[y_i-1, x_i] + dfun[y_i, x_i-1] +
    dfun[y_i-1, x_i-1]) / 4] and sets the counter to its old value plus one
    when that mean is negative and to zero otherwise.  The function returns
    whenever no read of the field raises. *)
Theorem C3_tag_renucleation_samples_and_counts
    x_sites y_sites dfun coordx coordy seed_radius iters :
  let sh := seed_height np_cos seed_radius in
  Forall (fun site => sample_site dfun coordx coordy sh site <> None)
         (combine x_sites y_sites) ->
  (length (combine x_sites y_sites) <= length iters)%nat ->
  exists dfun_sites iters',
    tag_renucleation np_cos x_sites y_sites dfun coordx coordy seed_radius
                     iters
    = Some (dfun_sites, iters') /\
    forall i sx sy c,
      nth_error x_sites i = Some sx -> nth_error y_sites i = Some sy ->
      nth_error iters i = Some c ->
      let x_i := np.searchsorted coordx sx in
      let y_i := np.searchsorted coordy (sy + sh) in
      exists v11 v01 v10 v00,
        np.getitem2 dfun y_i x_i = Some v11 /\
        np.getitem2 dfun (y_i - 1) x_i = Some v01 /\
        np.getitem2 dfun y_i (x_i - 1) = Some v10 /\
        np.getitem2 dfun (y_i - 1) (x_i - 1) = Some v00 /\
        let mean := (v11 + v01 + v10 + v00) / 4 in
        nth_error dfun_sites i = Some mean /\
        nth_error iters' i = Some (if mean <? 0 then c + 1 else 0).
Proof.
  intros sh Hs Hi.
  destruct (tag_renucleation_spec x_sites y_sites dfun coordx coordy
              seed_radius iters Hs Hi)
    as (ds' & it' & E & _ & _ & Hin & _).
  exists ds', it'. split; [assumption|].
  intros i sx sy c Hx Hy Hc x_i y_i.
  destruct (Hin i (sx, sy) c (nth_error_combine _ _ _ _ _ Hx Hy) Hc)
    as (m & Sm & Hd & Hi').
  destruct (sample_site_inv dfun coordx coordy sh (sx, sy) m Sm)
    as (v11 & v01 & v10 & v00 & H1 & H2 & H3 & H4 & ->).
  exists v11, v01, v10, v00. repeat split; assumption.
Qed.

(** A site whose two positions are below the last position of their axes
    is sampled without error: the reads at [x_i - 1] and [y_i - 1] are
    accepted even when the position is 0. *)
Lemma sample_site_no_error dfun coordx coordy sh site :
  rectangular dfun (length coordy) (length coordx) ->
  (np.searchsorted coordx (fst site) <= Z.of_nat (length coordx) - 1)%Z ->
  (np.searchsorted coordy (snd site + sh) <= Z.of_nat (length coordy) - 1)%Z ->
  sample_site dfun coordx coordy sh site <> None.
Proof.
  intros Hrect Hx Hy.
  pose proof (searchsorted_bounds coordx (fst site)) as Bx.
  pose proof (searchsorted_bounds coordy (snd site + sh)) as By.
  set (x_i := np.searchsorted coordx (fst site)) in *.
  set (y_i := np.searchsorted coordy (snd site + sh)) in *.
  destruct (norm_index_from_minus_one (length coordx) x_i) as (c1 & C1);
    try lia.
  destruct (norm_index_from_minus_one (length coordx) (x_i - 1))
    as (c0 & C0); try lia.
  destruct (norm_index_from_minus_one (length coordy) y_i) as (r1 & R1);
    try lia.
  destruct (norm_index_from_minus_one (length coordy) (y_i - 1))
    as (r0 & R0); try lia.
  destruct (getitem2_rectangular dfun _ _ _ _ _ _ Hrect R1 C1) as [E11 N11].
  destruct (getitem2_rectangular dfun _ _ _ _ _ _ Hrect R0 C1) as [E01 N01].
  destruct (getitem2_rectangular dfun _ _ _ _ _ _ Hrect R1 C0) as [E10 N10].
  destruct (getitem2_rectangular dfun _ _ _ _ _ _ Hrect R0 C0) as [E00 N00].
  destruct (at2 dfun r1 c1) as [v11|] eqn:A11; [|congruence].
  destruct (at2 dfun r0 c1) as [v01|] eqn:A01; [|congruence].
  destruct (at2 dfun r1 c0) as [v10|] eqn:A10; [|congruence].
  destruct (at2 dfun r0 c0) as [v00|] eqn:A00; [|congruence].
  rewrite (sample_site_some dfun coordx coordy sh site v11 v01 v10 v00);
    auto; discriminate.
Qed.

(** C8: on a field of the shape of the axes, a site whose positions satisfy
    [1 <= x_i <= len(coordx)-1] and [1 <= y_i <= len(coordy)-1] has its
    four corners read in bounds, at the positions themselves.  When a search
    lands at position 0 of a non-empty axis nothing is validated and nothing
    is raised: the corner index [-1] reads the last entry along that axis.
    Whenever every site's positions are at most the last position of their
    axes,
    [tag_renucleation] returns without error. *)
Theorem C8_corner_reads
    x_sites y_sites dfun coordx coordy seed_radius iters :
  let sh := seed_height np_cos seed_radius in
  let nx := length coordx in
  let ny := length coordy in
  let x_index (site : float * float) := np.searchsorted coordx (fst site) in
  let y_index (site : float * float) :=
    np.searchsorted coordy (snd site + sh) in
  rectangular dfun ny nx ->
  (length (combine x_sites y_sites) <= length iters)%nat ->
  (forall site,
      (1 <= x_index site <= Z.of_nat nx - 1)%Z ->
      (1 <= y_index site <= Z.of_nat ny - 1)%Z ->
      forall a b : bool,
        np.getitem2 dfun (y_index site - Z.b2z a) (x_index site - Z.b2z b)
        = at2 dfun (Z.to_nat (y_index site - Z.b2z a))
                   (Z.to_nat (x_index site - Z.b2z b)) /\
        at2 dfun (Z.to_nat (y_index site - Z.b2z a))
                 (Z.to_nat (x_index site - Z.b2z b)) <> None) /\
  (forall site,
      x_index site = 0%Z -> (0 < nx)%nat ->
      (y_index site <= Z.of_nat ny - 1)%Z ->
      sample_site dfun coordx coordy sh site <> None /\
      np.getitem2 dfun (y_index site) (x_index site - 1)
      = at2 dfun (Z.to_nat (y_index site)) (nx - 1)) /\
  (forall site,
      y_index site = 0%Z -> (0 < ny)%nat ->
      (x_index site <= Z.of_nat nx - 1)%Z ->
      sample_site dfun coordx coordy sh site <> None /\
      np.getitem2 dfun (y_index site - 1) (x_index site)
      = at2 dfun (ny - 1) (Z.to_nat (x_index site))) /\
  (Forall (fun site => (x_index site <= Z.of_nat nx - 1)%Z /\
                       (y_index site <= Z.of_nat ny - 1)%Z)
          (combine x_sites y_sites) ->
   tag_renucleation np_cos x_sites y_sites dfun coordx coordy seed_radius
                    iters <> None).
Proof.
  intros sh nx ny x_index y_index Hrect Hlen.
  subst nx ny x_index y_index. cbv beta.
  split; [|split; [|split]].
  - intros site Hx Hy a b.
    apply (getitem2_rectangular dfun (length coordy) (length coordx)); auto;
      apply norm_index_inside; destruct a, b; simpl; lia.
  - intros site Hx Hn Hy.
    pose proof (searchsorted_bounds coordx (fst site)) as Bx.
    pose proof (searchsorted_bounds coordy (snd site + sh)) as By.
    split.
    + apply sample_site_no_error; auto. lia.
    + apply (getitem2_rectangular dfun (length coordy) (length coordx));
        auto.
      * apply norm_index_inside. lia.
      * rewrite Hx. apply norm_index_minus_one. lia.
  - intros site Hy Hn Hx.
    pose proof (searchsorted_bounds coordx (fst site)) as Bx.
    pose proof (searchsorted_bounds coordy (snd site + sh)) as By.
    split.
    + apply sample_site_no_error; auto. lia.
    + apply (getitem2_rectangular dfun (length coordy) (length coordx));
        auto.
      * rewrite Hy. apply norm_index_minus_one. lia.
      * apply norm_index_inside. lia.
  - intros Hall.
    destruct (tag_renucleation_spec x_sites y_sites dfun coordx coordy
                seed_radius iters) as (ds' & it' & E & _); auto.
    + fold sh. eapply Forall_impl; [|exact Hall].
      intros site [Hx Hy]. now apply sample_site_no_error.
    + rewrite E. discriminate.
Qed.

End with_cos.

End tag_facts.

(** * renucleate *)

Module renucleate_facts.

Import np_facts float_facts array_facts maximum_facts tag_facts.

(** The test of line 110 on two arrays that hold entry [i]. *)
Lemma trigger_eval dfun_sites iters i :
  (i < length dfun_sites)%nat -> (i < length iters)%nat ->
  trigger dfun_sites iters i = Some (trigger_at dfun_sites iters i).
Proof.
  intros Hd Hc. unfold trigger, trigger_at. rewrite !getitem_nat.
  destruct (nth_error dfun_sites i) as [d|] eqn:Ed;
    [|apply nth_error_None in Ed; lia].
  destruct (nth_error iters i) as [c|] eqn:Ec;
    [|apply nth_error_None in Ec; lia].
  simpl. now destruct (d <? 0).
Qed.

(** The test looks at entry [i] of the counters only. *)
Lemma trigger_at_ext dfun_sites iters iters' i :
  nth_error iters' i = nth_error iters i ->
  trigger_at dfun_sites iters' i = trigger_at dfun_sites iters i.
Proof. intros H. unfold trigger_at. now rewrite H. Qed.

Lemma triggered_ext dfun_sites iters iters' sites i :
  (forall j, (i <= j)%nat -> nth_error iters' j = nth_error iters j) ->
  triggered dfun_sites iters' i sites = triggered dfun_sites iters i sites.
Proof.
  revert i. induction sites as [|site sites IH]; intros i H; simpl.
  - reflexivity.
  - rewrite (trigger_at_ext dfun_sites iters iters' i) by (apply H; lia).
    rewrite (IH (S i)) by (intros j Hj; apply H; lia).
    reflexivity.
Qed.

Lemma triggered_none dfun_sites iters sites i :
  (forall j, (i <= j < i + length sites)%nat ->
     trigger_at dfun_sites iters j = false) ->
  triggered dfun_sites iters i sites = [].
Proof.
  revert i. induction sites as [|site sites IH]; intros i H; simpl.
  - reflexivity.
  - rewrite H by (simpl; lia). apply IH.
    intros j Hj. apply H. simpl. lia.
Qed.

(** A site that meets the condition is among the triggered ones. *)
Lemma triggered_In dfun_sites iters sites i j site :
  nth_error sites j = Some site ->
  trigger_at dfun_sites iters (i + j) = true ->
  In site (triggered dfun_sites iters i sites).
Proof.
  revert i j. induction sites as [|s sites IH]; intros i [|j]; simpl;
    try discriminate.
  - intros [= ->]. rewrite Nat.add_0_r. intros ->. now left.
  - intros Hs Ht.
    replace (i + S j)%nat with (S i + j)%nat in Ht by lia.
    specialize (IH (S i) j Hs Ht).
    destruct (trigger_at dfun_sites iters i); [now right|assumption].
Qed.

(** A value that is at least zero is not negative, and a counter below 4
    has not reached 4. *)
Lemma trigger_at_false dfun_sites iters i d c :
  nth_error dfun_sites i = Some d -> nth_error iters i = Some c ->
  (0 <=? d) = true \/ (c <? 4) = true ->
  trigger_at dfun_sites iters i = false.
Proof.
  intros Hd Hc H. unfold trigger_at. rewrite Hd, Hc.
  destruct H as [H|H].
  - now rewrite (leb_ltb_false _ _ H).
  - rewrite (ltb_leb_false _ _ H). apply andb_false_r.
Qed.

Lemma trigger_at_true dfun_sites iters i d c :
  nth_error dfun_sites i = Some d -> nth_error iters i = Some c ->
  (d <? 0) = true -> (4 <=? c) = true ->
  trigger_at dfun_sites iters i = true.
Proof.
  intros Hd Hc H1 H2. unfold trigger_at. now rewrite Hd, Hc, H1, H2.
Qed.

Section with_grid.

Variables (x_grid y_grid : np.array2) (dfun_sites : np.array1).
Variables (sh dfun_scale seed_radius : float).

Let compose := max_compose x_grid y_grid sh dfun_scale seed_radius.

(** The loop of [renucleate]: the seeds of the triggering sites are
    max-composed into the field, their counters become zero, every other
    counter stays. *)
Lemma renucleate_loop_spec sites :
  forall i curr_dfun iters,
    (i + length sites <= length dfun_sites)%nat ->
    (i + length sites <= length iters)%nat ->
    exists iters',
      renucleate_loop x_grid y_grid dfun_sites sh dfun_scale seed_radius
                      i sites curr_dfun iters
      = Some (compose (triggered dfun_sites iters i sites) curr_dfun, iters')
      /\ length iters' = length iters
      /\ (forall j, (i <= j < i + length sites)%nat ->
            trigger_at dfun_sites iters j = true ->
            nth_error iters' j = Some 0)
      /\ (forall j, (j < i)%nat \/ (i + length sites <= j)%nat \/
                    trigger_at dfun_sites iters j = false ->
            nth_error iters' j = nth_error iters j).
Proof.
  induction sites as [|site sites IH]; intros i curr_dfun iters Hd Hi;
    simpl in *.
  - exists iters. repeat split; auto. intros j Hj. lia.
  - rewrite trigger_eval by lia. simpl.
    destruct (trigger_at dfun_sites iters i) eqn:T.
    + rewrite setitem_nat by lia. simpl.
      destruct (IH (S i)
                  (np.amap2 np.maximum curr_dfun
                     (scaled_seed x_grid y_grid sh dfun_scale seed_radius
                                  site))
                  (np.update iters i 0))
        as (it' & E & L & Hin & Hout); rewrite ?length_update; try lia.
      rewrite (triggered_ext dfun_sites iters (np.update iters i 0)) in E
        by (intros j Hj; apply nth_error_update_other; lia).
      exists it'. rewrite length_update in L.
      split; [exact E|]. split; [exact L|]. split.
      * intros j Hj Tj. destruct (Nat.eq_dec j i) as [->|N].
        -- rewrite Hout by lia. apply nth_error_update_same. lia.
        -- apply Hin; [lia|].
           rewrite (trigger_at_ext dfun_sites iters); [assumption|].
           apply nth_error_update_other. lia.
      * intros j Hj.
        assert (j <> i) as N by (destruct Hj as [|[|]]; [lia|lia|congruence]).
        rewrite Hout.
        -- apply nth_error_update_other. assumption.
        -- destruct Hj as [|[|Tj]]; [lia|lia|].
           right. right.
           rewrite (trigger_at_ext dfun_sites iters); [assumption|].
           apply nth_error_update_other. assumption.
    + destruct (IH (S i) curr_dfun iters) as (it' & E & L & Hin & Hout);
        try lia.
      exists it'. split; [exact E|]. split; [exact L|]. split.
      * intros j Hj Tj. apply Hin; [|assumption].
        destruct (Nat.eq_dec j i) as [->|N]; [congruence|lia].
      * intros j Hj. apply Hout.
        destruct (Nat.eq_dec j i) as [->|N]; [now right; right|].
        destruct Hj as [|[|]]; [lia|lia|now right; right].
Qed.

(** The composed field at one grid point: the running [np.maximum], from
    the value the field had there, of the scaled seed values. *)
Lemma compose_at l : forall curr_dfun r c x y v0,
  at2 x_grid r c = Some x -> at2 y_grid r c = Some y ->
  at2 curr_dfun r c = Some v0 ->
  at2 (compose l curr_dfun) r c
  = Some (max_over v0
            (map (fun v => v / dfun_scale) (seed_values seed_radius sh l x y))).
Proof.
  induction l as [|site l IH]; intros curr_dfun r c x y v0 Hx Hy Hv.
  - exact Hv.
  - change (compose (site :: l) curr_dfun)
      with (compose l
              (np.amap2 np.maximum curr_dfun
                 (scaled_seed x_grid y_grid sh dfun_scale seed_radius site))).
    apply (IH _ r c x y
             (np.maximum v0
                (seed_value seed_radius (fst site) (snd site + sh) x y
                 / dfun_scale))); auto.
    apply at2_amap2; [assumption|].
    unfold scaled_seed.
    rewrite dfun_init_facts.interim_dfun_pointwise.
    apply (at2_amap (fun v => v / dfun_scale)). now apply at2_amap2.
Qed.

End with_grid.

Section with_cos.

Variable np_cos : float -> float.

(** What [renucleate] returns on arrays that hold an entry for every
    site. *)
Lemma renucleate_spec x_grid y_grid x_sites y_sites dfun_sites iters
    curr_dfun dfun_scale seed_radius :
  let sites := combine x_sites y_sites in
  let sh := seed_height np_cos seed_radius in
  (length sites <= length dfun_sites)%nat ->
  (length sites <= length iters)%nat ->
  exists iters',
    renucleate np_cos x_grid y_grid x_sites y_sites dfun_sites iters
               curr_dfun dfun_scale seed_radius
    = Some (max_compose x_grid y_grid sh dfun_scale seed_radius
              (triggered dfun_sites iters 0 sites) curr_dfun, iters')
    /\ length iters' = length iters
    /\ (forall j, (j < length sites)%nat ->
          trigger_at dfun_sites iters j = true ->
          nth_error iters' j = Some 0)
    /\ (forall j, (length sites <= j)%nat \/
                  trigger_at dfun_sites iters j = false ->
          nth_error iters' j = nth_error iters j).
Proof.
  intros sites sh Hd Hi. unfold renucleate. fold sh. fold sites.
  destruct (renucleate_loop_spec x_grid y_grid dfun_sites sh dfun_scale
              seed_radius sites 0%nat curr_dfun iters Hd Hi)
    as (it' & E & L & Hin & Hout).
  exists it'. split; [exact E|]. split; [exact L|]. split.
  - intros j Hj. apply Hin. simpl. lia.
  - intros j Hj. apply Hout. simpl. tauto.
Qed.

(** C1: for every site [i], if [dfun_sites[i] < 0] and
    [liquid_cover_iters[i] >= 4] then [renucleate] max-composes into
    [curr_dfun] the seed of the site, [seed_radius - distance(grid point,
    (x_sites[i], y_sites[i] + seed_radius*cos 45))] divided by
    [dfun_scale], and resets the counter of the site to zero; a site with
    [dfun_sites[i] >= 0] or a counter below 4 does not meet the condition:
    its seed is not composed and its counter is not reset.  The returned
    field is, at every grid point, the running [np.maximum] of the input
    value and the scaled seed values of the sites that met the condition. *)
Theorem C1_renucleate_reseeds_triggered_sites
    x_grid y_grid x_sites y_sites dfun_sites iters curr_dfun
    dfun_scale seed_radius :
  let sites := combine x_sites y_sites in
  let sh := seed_height np_cos seed_radius in
  let fired := triggered dfun_sites iters 0 sites in
  shape x_grid = shape y_grid -> shape curr_dfun = shape x_grid ->
  (length sites <= length dfun_sites)%nat ->
  (length sites <= length iters)%nat ->
  exists curr_dfun' iters',
    renucleate np_cos x_grid y_grid x_sites y_sites dfun_sites iters
               curr_dfun dfun_scale seed_radius
    = Some (curr_dfun', iters') /\
    (forall r c x y v0,
        at2 x_grid r c = Some x -> at2 y_grid r c = Some y ->
        at2 curr_dfun r c = Some v0 ->
        at2 curr_dfun' r c
        = Some (max_over v0
                  (map (fun v => v / dfun_scale)
                       (seed_values seed_radius sh fired x y)))) /\
    (forall i site d c,
        nth_error sites i = Some site ->
        nth_error dfun_sites i = Some d -> nth_error iters i = Some c ->
        ((d <? 0) = true -> (4 <=? c) = true ->
         In site fired /\ nth_error iters' i = Some 0) /\
        ((0 <=? d) = true \/ (c <? 4) = true ->
         trigger_at dfun_sites iters i = false /\
         nth_error iters' i = Some c)).
Proof.
  intros sites sh fired _ _ Hd Hi.
  destruct (renucleate_spec x_grid y_grid x_sites y_sites dfun_sites iters
              curr_dfun dfun_scale seed_radius Hd Hi)
    as (it' & E & L & Hin & Hout).
  fold sites in E, Hin, Hout. fold sh in E. fold fired in E.
  eexists. exists it'. split; [exact E|]. split.
  - intros r c x y v0 Hx Hy Hv. now apply compose_at.
  - intros i site d c Hs Hdi Hci.
    pose proof (nth_error_Some_lt _ _ _ Hs) as Hlt. split.
    + intros H1 H2.
      pose proof (trigger_at_true _ _ _ _ _ Hdi Hci H1 H2) as T.
      split; [|now apply Hin].
      now apply (triggered_In dfun_sites iters sites 0%nat i).
    + intros H.
      pose proof (trigger_at_false _ _ _ _ _ Hdi Hci H) as T.
      split; [assumption|]. rewrite Hout by now right. assumption.
Qed.

(** C5: if no site [i] satisfies [dfun_sites[i] < 0] and
    [liquid_cover_iters[i] >= 4], [renucleate] returns the input field and
    the input counters unchanged; and in every call the counter of a site
    that does not satisfy the condition is unchanged. *)
Theorem C5_renucleate_frame
    x_grid y_grid x_sites y_sites dfun_sites iters curr_dfun
    dfun_scale seed_radius :
  let sites := combine x_sites y_sites in
  (length sites <= length dfun_sites)%nat ->
  (length sites <= length iters)%nat ->
  ((forall i, (i < length sites)%nat ->
      trigger_at dfun_sites iters i = false) ->
   renucleate np_cos x_grid y_grid x_sites y_sites dfun_sites iters
              curr_dfun dfun_scale seed_radius
   = Some (curr_dfun, iters)) /\
  (exists curr_dfun' iters',
      renucleate np_cos x_grid y_grid x_sites y_sites dfun_sites iters
                 curr_dfun dfun_scale seed_radius
      = Some (curr_dfun', iters') /\
      forall i, trigger_at dfun_sites iters i = false ->
                nth_error iters' i = nth_error iters i).
Proof.
  intros sites Hd Hi.
  destruct (renucleate_spec x_grid y_grid x_sites y_sites dfun_sites iters
              curr_dfun dfun_scale seed_radius Hd Hi)
    as (it' & E & L & Hin & Hout).
  fold sites in E, Hin, Hout. split.
  - intros Hnone. rewrite E.
    rewrite triggered_none by (intros j Hj; apply Hnone; simpl in Hj; lia).
    simpl. do 2 f_equal. apply nth_error_ext. intros j.
    apply Hout. destruct (Nat.lt_ge_cases j (length sites)) as [Hj|Hj].
    + right. now apply Hnone.
    + now left.
  - eexists. exists it'. split; [exact E|].
    intros i T. apply Hout. now right.
Qed.

End with_cos.

End renucleate_facts.

(** * The Tagger and the Trigger over several steps *)

Module simulate_facts.

Section with_cos.

Variable np_cos : float -> float.

(** One step for a single site that the field covers with liquid: the
    counter [c] becomes [c + 1], and the Trigger fires exactly when that
    reaches 4. *)
Lemma simulate_step_covered x_grid y_grid sx sy coordx coordy
    dfun_scale seed_radius dfun c m :
  let sh := seed_height np_cos seed_radius in
  sample_site dfun coordx coordy sh (sx, sy) = Some m ->
  (m <? 0) = true ->
  simulate_step np_cos x_grid y_grid [sx] [sy] coordx coordy
                dfun_scale seed_radius dfun [c]
  = Some (if 4 <=? c + 1
          then mk_step [c + 1] [true]
                 (np.amap2 np.maximum dfun
                    (scaled_seed x_grid y_grid sh dfun_scale seed_radius
                                 (sx, sy)))
                 [0]
          else mk_step [c + 1] [false] dfun [c + 1]).
Proof.
  intros sh Hs Hm.
  unfold simulate_step, tag_renucleation, renucleate. fold sh.
  cbn [combine np.zeros_like1 map tag_loop length].
  rewrite Hs.
  cbn [bind np.setitem np.norm_index length Z.of_nat].
  unfold tag_counter. rewrite Hm.
  cbn. rewrite Hm.
  destruct (4 <=? c + 1); reflexivity.
Qed.

(** C2: one site, its counter at 0, and a field that is negative at the
    site in each of five steps of Tagger then Trigger.  The counter after
    the Tagger is 1, 2, 3, 4, 1; the Trigger fires in the fourth step only
    (not while the counter is 3), where it max-composes the scaled seed into
    the field, and leaves the field as it is in the other steps; the counter
    after each step is 1, 2, 3, 0, 1. *)
Theorem C2_trigger_fires_once_on_fourth_step
    x_grid y_grid sx sy coordx coordy dfun_scale seed_radius
    f1 f2 f3 f4 f5 :
  let sh := seed_height np_cos seed_radius in
  Forall (fun dfun =>
            exists m, sample_site dfun coordx coordy sh (sx, sy) = Some m /\
                      (m <? 0) = true)
         [f1; f2; f3; f4; f5] ->
  simulate np_cos x_grid y_grid [sx] [sy] coordx coordy
           dfun_scale seed_radius [f1; f2; f3; f4; f5] [0]
  = Some [mk_step [1] [false] f1 [1];
          mk_step [2] [false] f2 [2];
          mk_step [3] [false] f3 [3];
          mk_step [4] [true]
            (np.amap2 np.maximum f4
               (scaled_seed x_grid y_grid sh dfun_scale seed_radius (sx, sy)))
            [0];
          mk_step [1] [false] f5 [1]].
Proof.
  intros sh H.
  repeat match goal with
         | H : Forall _ (_ :: _) |- _ =>
             let m := fresh "m" in
             let Hs := fresh "Hs" in
             let Hm := fresh "Hm" in
             let Hrest := fresh "Hrest" in
             inversion H as [|? ? (m & Hs & Hm) Hrest]; subst; clear H
         end.
  unfold simulate.
  rewrite (simulate_step_covered x_grid y_grid sx sy coordx coordy
             dfun_scale seed_radius f1 0 m Hs Hm).
  cbn [bind out_iters].
  change (4 <=? 0 + 1) with false. cbv iota. cbn [bind out_iters].
  change (0 + 1) with 1.
  rewrite (simulate_step_covered x_grid y_grid sx sy coordx coordy
             dfun_scale seed_radius f2 1 m0 Hs0 Hm0).
  change (4 <=? 1 + 1) with false. cbv iota. cbn [bind out_iters].
  change (1 + 1) with 2.
  rewrite (simulate_step_covered x_grid y_grid sx sy coordx coordy
             dfun_scale seed_radius f3 2 m1 Hs1 Hm1).
  change (4 <=? 2 + 1) with false. cbv iota. cbn [bind out_iters].
  change (2 + 1) with 3.
  rewrite (simulate_step_covered x_grid y_grid sx sy coordx coordy
             dfun_scale seed_radius f4 3 m2 Hs2 Hm2).
  change (4 <=? 3 + 1) with true. cbv iota. cbn [bind out_iters].
  change (3 + 1) with 4.
  rewrite (simulate_step_covered x_grid y_grid sx sy coordx coordy
             dfun_scale seed_radius f5 0 m3 Hs3 Hm3).
  change (4 <=? 0 + 1) with false. cbv iota. cbn [bind out_iters].
  reflexivity.
Qed.

End with_cos.

End simulate_facts.

(** * heater_init *)

Module heater_facts.

Import np_facts float_facts arith_facts.

(** An infinite addend decides the sum with a finite number; the product of
    anything with infinity is infinite or NaN. *)
Lemma add_mul_infinity (x u : float) :
  is_finite x = true ->
  let v := x + u * infinity in
  v = infinity \/ v = neg_infinity \/ v = nan.
Proof.
  intros Hx v. apply is_finite_spec in Hx.
  assert (Prim2SF v = S754_infinity false \/
          Prim2SF v = S754_infinity true \/ Prim2SF v = S754_nan) as H.
  { unfold v. rewrite add_spec, mul_spec.
    change (Prim2SF infinity) with (S754_infinity false).
    destruct (Prim2SF x) as [sx|sx| |sx mx ex]; try contradiction;
      destruct (Prim2SF u) as [su|su| |su mu eu]; simpl; auto;
      destruct su; simpl; auto. }
  destruct H as [H|[H|H]]; [left|right; left|right; right];
    apply Prim2SF_inj; rewrite H; reflexivity.
Qed.

(** No infinity and no NaN lies between two finite numbers. *)
Lemma in_interval_finite (xmin xmax v : float) :
  is_finite xmin = true -> is_finite xmax = true ->
  v = infinity \/ v = neg_infinity \/ v = nan ->
  in_interval xmin xmax v = false.
Proof.
  intros Hmin Hmax H. apply is_finite_spec in Hmin, Hmax.
  unfold in_interval. rewrite !leb_spec. unfold SFleb.
  destruct H as [-> | [-> | ->]].
  - change (Prim2SF infinity) with (S754_infinity false).
    apply andb_false_iff. right.
    destruct (Prim2SF xmax) as [s|s| |s m e]; try contradiction; reflexivity.
  - change (Prim2SF neg_infinity) with (S754_infinity true).
    apply andb_false_iff. left.
    destruct (Prim2SF xmin) as [s|s| |s m e]; try contradiction; reflexivity.
  - change (Prim2SF nan) with S754_nan.
    apply andb_false_iff. left.
    destruct (Prim2SF xmin) as [s|s| |s m e]; reflexivity.
Qed.

Lemma nth_error_snoc {A : Type} (h : list A) (e : A) :
  nth_error (h ++ [e]) (length h) = Some e.
Proof.
  rewrite nth_error_app2 by lia. now rewrite Nat.sub_diag.
Qed.

Lemma update_snoc {A : Type} (h : list A) (e e' : A) :
  np.update (h ++ [e]) (length h) e' = h ++ [e'].
Proof. induction h as [|x h IH]; simpl; [reflexivity|now rewrite IH]. Qed.

(** Column 0 of rows that have an entry 0. *)
Lemma column_zero {A : Type} (f : A -> float) (g : A -> list float)
    (l : list A) :
  column (map (fun k => f k :: g k) l) 0 = Some (map f l).
Proof.
  induction l as [|k l IH]; simpl; [reflexivity|].
  now rewrite IH.
Qed.

Lemma assign_all_repeat (n : nat) (v : np.array1) :
  length v = n -> assign_all (np_ndarray n) v = v.
Proof.
  unfold assign_all, np_ndarray. revert v.
  induction n as [|n IH]; intros [|y v]; simpl; try discriminate; auto.
  intros [= H]. now rewrite IH.
Qed.

Lemma fill_repeat (n : nat) (c : float) : fill (np_ndarray n) c = repeat c n.
Proof.
  unfold fill, np_ndarray. induction n as [|n IH]; simpl; [reflexivity|].
  now rewrite IH.
Qed.

Section with_generator.

Variable halton_coord : Z -> nat -> nat -> nat -> float.

(** An engine hands out its points in order: a second draw from the same
    engine continues where the first one stopped. *)
Lemma qmc_random_advances (h : qmc.heap) (ref : nat) (e : qmc.engine)
    (n : nat) :
  nth_error h ref = Some e ->
  exists h',
    qmc_random halton_coord ref n h = Some (halton_points halton_coord e n, h')
    /\ nth_error h' ref
       = Some (qmc.mk_engine (qmc.eng_d e) (qmc.eng_seed e)
                             (qmc.num_generated e + n)).
Proof.
  intros H. unfold qmc_random. rewrite H. simpl.
  eexists. split; [reflexivity|].
  apply nth_error_update_same. now apply tag_facts.nth_error_Some_lt with e.
Qed.

(** [heater_init] in closed form: it always returns, and what it returns
    does not depend on the engines that exist already; it leaves behind the
    engine it made, advanced by [n] points. *)
Lemma heater_init_closed_form (xmin xmax : float) (n : nat) (h : qmc.heap) :
  heater_init halton_coord xmin xmax n h
  = Some ((heater_x_sites halton_coord xmin xmax n, repeat 1e-13 n),
          h ++ [qmc.mk_engine 2 1 n]).
Proof.
  unfold heater_init, qmc_Halton, qmc_random.
  rewrite nth_error_snoc. cbn [bind]. rewrite update_snoc.
  unfold halton_points. cbn [qmc.eng_d qmc.eng_seed qmc.num_generated seq map].
  rewrite (column_zero (fun k => halton_coord 1 2 k 0)
                       (fun k => [halton_coord 1 2 k 1])).
  cbn [bind]. rewrite fill_repeat, map_map.
  rewrite assign_all_repeat by now rewrite length_map, length_seq.
  reflexivity.
Qed.

(** C9, as amended: [heater_init] returns [n] sites; every y-site is the
    constant [1e-13], which is positive; x-site [k] is
    [xmin + u * (xmax - xmin)] in binary64, for the first coordinate [u] of
    point [k] of the Halton sequence.  For finite [xmin <= xmax] whose
    width [xmax - xmin] is finite, and first coordinates in [[0, 1)], every
    x-site lies in [[xmin, xmax]].  When [xmax - xmin] overflows to
    infinity, no x-site lies in [[xmin, xmax]], whatever the points are. *)
Theorem C9_heater_init_sites (xmin xmax : float) (n : nat) (h : qmc.heap) :
  exists x_sites y_sites h',
    heater_init halton_coord xmin xmax n h = Some ((x_sites, y_sites), h') /\
    length x_sites = n /\ length y_sites = n /\
    Forall (fun y => y = 1e-13 /\ (0 <? y) = true) y_sites /\
    (forall k, (k < n)%nat ->
       nth_error x_sites k
       = Some (xmin + halton_coord 1 2 k 0 * (xmax - xmin))) /\
    (is_finite xmin = true -> is_finite xmax = true ->
     (xmin <=? xmax) = true -> is_finite (xmax - xmin) = true ->
     (forall k, (k < n)%nat ->
        (0 <=? halton_coord 1 2 k 0) = true /\
        (halton_coord 1 2 k 0 <? 1) = true) ->
     Forall (fun x => in_interval xmin xmax x = true) x_sites) /\
    (is_finite xmin = true -> is_finite xmax = true ->
     xmax - xmin = infinity ->
     Forall (fun x => in_interval xmin xmax x = false) x_sites).
Proof.
  exists (heater_x_sites halton_coord xmin xmax n), (repeat 1e-13 n).
  eexists. split; [apply heater_init_closed_form|].
  unfold heater_x_sites.
  split; [now rewrite length_map, length_seq|].
  split; [apply repeat_length|]. split; [|split; [|split]].
  - apply Forall_forall. intros y Hy. apply repeat_spec in Hy.
    subst y. now split.
  - intros k Hk. rewrite nth_error_map, nth_error_seq.
    apply Nat.ltb_lt in Hk. now rewrite Hk.
  - intros Hmin Hmax Hle Hw Hu. apply Forall_forall. intros x Hx.
    apply in_map_iff in Hx as (k & <- & Hk). apply in_seq in Hk.
    destruct (Hu k) as [Hu0 Hu1]; [lia|].
    now apply affine_in_interval.
  - intros Hmin Hmax Hw. apply Forall_forall. intros x Hx.
    apply in_map_iff in Hx as (k & <- & _). rewrite Hw.
    apply in_interval_finite; auto. now apply add_mul_infinity.
Qed.

(** C10: two calls of [heater_init] with the same arguments return the same
    x-sites and y-sites, whatever engines exist when each call starts: every
    call builds its own engine from the seed 1 and draws the first [n]
    points from it. *)
Theorem C10_heater_init_deterministic (xmin xmax : float) (n : nat) :
  exists x_sites y_sites,
    forall h : qmc.heap,
      exists h',
        heater_init halton_coord xmin xmax n h
        = Some ((x_sites, y_sites), h') /\
        exists h'',
          heater_init halton_coord xmin xmax n h'
          = Some ((x_sites, y_sites), h'').
Proof.
  exists (heater_x_sites halton_coord xmin xmax n), (repeat 1e-13 n).
  intros h. eexists. split; [apply heater_init_closed_form|].
  eexists. apply heater_init_closed_form.
Qed.

End with_generator.

(** C9 as the specification states it fails for every point generator: on
    the heater from [-1e308] to [1e308] the width overflows and the site is
    not in the interval. *)
Lemma C9_counterexample : ~ exists hc, sites_within_heater hc.
Proof.
  intros (hc & H).
  destruct (H (-1e308) 1e308 1%nat [] _ _ _ eq_refl
              (heater_init_closed_form hc (-1e308) 1e308 1 [])) as [Hx _].
  inversion Hx as [|x xs Hin _]; subst.
  rewrite in_interval_finite in Hin; [discriminate| reflexivity..|].
  apply (add_mul_infinity (-1e308) (hc 1%Z 2%nat 0%nat 0%nat)). reflexivity.
Qed.

End heater_facts.

(** * The theorems evaluated on the example mesh *)

Lemma C1_renucleate_reseeds_triggered_sites_witness :
  shape Example.x_grid = shape Example.y_grid /\
  shape Example.wet = shape Example.x_grid /\
  Nat.le (length (combine [0] [1e-13])) (length [-1]) /\
  Nat.le (length (combine [0] [1e-13])) (length [4]) /\
  exists curr_dfun' iters',
    renucleate Example.cos Example.x_grid Example.y_grid [0] [1e-13]
               [-1] [4] Example.wet 1 0.2
    = Some (curr_dfun', iters') /\
    nth_error iters' 0 = Some 0.
Proof.
  split; [reflexivity|]. split; [reflexivity|].
  split; [apply le_n|]. split; [apply le_n|].
  destruct (renucleate_facts.C1_renucleate_reseeds_triggered_sites
              Example.cos Example.x_grid Example.y_grid [0] [1e-13]
              [-1] [4] Example.wet 1 0.2 eq_refl eq_refl (le_n 1) (le_n 1))
    as (curr_dfun' & iters' & E & _ & H).
  exists curr_dfun', iters'. split; [exact E|].
  apply (H 0%nat (0, 1e-13) (-1) 4 eq_refl eq_refl eq_refl); reflexivity.
Defined.

Lemma C2_trigger_fires_once_on_fourth_step_witness :
  Forall (fun dfun =>
            exists m,
              sample_site dfun Example.coordx Example.coordy
                          (seed_height Example.cos 0.2) (0, 1e-13) = Some m /\
              (m <? 0) = true)
         [Example.wet; Example.wet; Example.wet; Example.wet; Example.wet] /\
  option_map (map out_iters)
    (simulate Example.cos Example.x_grid Example.y_grid [0] [1e-13]
              Example.coordx Example.coordy 1 0.2
              [Example.wet; Example.wet; Example.wet; Example.wet;
               Example.wet] [0])
  = Some [[1]; [2]; [3]; [0]; [1]].
Proof.
  assert (Forall (fun dfun =>
            exists m,
              sample_site dfun Example.coordx Example.coordy
                          (seed_height Example.cos 0.2) (0, 1e-13) = Some m /\
              (m <? 0) = true)
         [Example.wet; Example.wet; Example.wet; Example.wet; Example.wet])
    as H by (repeat constructor; exists (-1); split; reflexivity).
  split; [exact H|].
  rewrite (simulate_facts.C2_trigger_fires_once_on_fourth_step
             Example.cos Example.x_grid Example.y_grid 0 1e-13
             Example.coordx Example.coordy 1 0.2
             Example.wet Example.wet Example.wet Example.wet Example.wet H).
  reflexivity.
Defined.

Lemma C3_tag_renucleation_samples_and_counts_witness :
  Forall (fun site =>
            sample_site Example.wet Example.coordx Example.coordy
                        (seed_height Example.cos 0.2) site <> None)
         (combine [0] [1e-13]) /\
  Nat.le (length (combine [0] [1e-13])) (length [2]) /\
  exists dfun_sites iters',
    tag_renucleation Example.cos [0] [1e-13] Example.wet
                     Example.coordx Example.coordy 0.2 [2]
    = Some (dfun_sites, iters').
Proof.
  assert (Forall (fun site =>
            sample_site Example.wet Example.coordx Example.coordy
                        (seed_height Example.cos 0.2) site <> None)
         (combine [0] [1e-13])) as H
    by (repeat constructor; discriminate).
  split; [exact H|]. split; [apply le_n|].
  destruct (tag_facts.C3_tag_renucleation_samples_and_counts
              Example.cos [0] [1e-13] Example.wet
              Example.coordx Example.coordy 0.2 [2] H (le_n 1))
    as (dfun_sites & iters' & E & _).
  now exists dfun_sites, iters'.
Defined.

Lemma C5_renucleate_frame_witness :
  Nat.le (length (combine [0] [1e-13])) (length [-1]) /\
  Nat.le (length (combine [0] [1e-13])) (length [3]) /\
  renucleate Example.cos Example.x_grid Example.y_grid [0] [1e-13]
             [-1] [3] Example.wet 1 0.2
  = Some (Example.wet, [3]).
Proof.
  split; [apply le_n|]. split; [apply le_n|].
  apply (renucleate_facts.C5_renucleate_frame
           Example.cos Example.x_grid Example.y_grid [0] [1e-13]
           [-1] [3] Example.wet 1 0.2 (le_n 1) (le_n 1)).
  intros [|i] Hi; [reflexivity|].
  exfalso. apply (Nat.nlt_0_r i). now apply Nat.succ_lt_mono.
Defined.

Lemma C8_corner_reads_witness :
  rectangular Example.wet (length Example.coordy) (length Example.coordx) /\
  Nat.le (length (combine [-2] [1e-13])) (length [0]) /\
  tag_renucleation Example.cos [-2] [1e-13] Example.wet
                   Example.coordx Example.coordy 0.2 [0] <> None.
Proof.
  assert (rectangular Example.wet (length Example.coordy)
                      (length Example.coordx)) as H
    by (split; [reflexivity|repeat constructor]).
  split; [exact H|]. split; [apply le_n|].
  apply (tag_facts.C8_corner_reads Example.cos [-2] [1e-13] Example.wet
           Example.coordx Example.coordy 0.2 [0] H (le_n 1)).
  repeat constructor; discriminate.
Defined.

Lemma C9_heater_init_sites_witness :
  (is_finite (-2.5) = true /\ is_finite 2.5 = true /\
   (-2.5 <=? 2.5) = true /\ is_finite (2.5 - (-2.5)) = true /\
   exists x_sites y_sites h',
     heater_init Example.halton (-2.5) 2.5 3 []
     = Some ((x_sites, y_sites), h') /\
     Forall (fun x => in_interval (-2.5) 2.5 x = true) x_sites) /\
  (is_finite (-1e308) = true /\ is_finite 1e308 = true /\
   1e308 - (-1e308) = infinity /\
   exists x_sites y_sites h',
     heater_init Example.halton (-1e308) 1e308 2 []
     = Some ((x_sites, y_sites), h') /\
     Forall (fun x => in_interval (-1e308) 1e308 x = false) x_sites).
Proof.
  split.
  - split; [reflexivity|]. split; [reflexivity|].
    split; [reflexivity|]. split; [reflexivity|].
    destruct (heater_facts.C9_heater_init_sites Example.halton
                (-2.5) 2.5 3 [])
      as (x_sites & y_sites & h' & E & _ & _ & _ & _ & H & _).
    exists x_sites, y_sites, h'. split; [exact E|].
    apply H; try reflexivity.
    intros [|[|[|k]]] Hk; try (split; reflexivity); lia.
  - split; [reflexivity|]. split; [reflexivity|]. split; [reflexivity|].
    destruct (heater_facts.C9_heater_init_sites Example.halton
                (-1e308) 1e308 2 [])
      as (x_sites & y_sites & h' & E & _ & _ & _ & _ & _ & H).
    exists x_sites, y_sites, h'. split; [exact E|].
    apply H; reflexivity.
Defined.

(** * Further properties of the routines *)

Module heater_props.

Import np_facts float_facts arith_facts heater_facts.

Lemma is_finite_not_nan (x : float) : is_finite x = true -> is_nan x = false.
Proof.
  unfold is_finite. intros H. apply negb_true_iff, orb_false_iff in H.
  tauto.
Qed.

Section with_generator.

Variable halton_coord : Z -> nat -> nat -> nat -> float.

(** X1: A heater of zero width puts every site at its one point: for a finite
    [xmin = xmax] and Halton coordinates in [[0, 1)], every x-site equals
    [xmin]. *)
Theorem X1_heater_init_zero_width (xmin : float) (n : nat) (h : qmc.heap) :
  is_finite xmin = true ->
  (forall k, (k < n)%nat ->
     (0 <=? halton_coord 1 2 k 0) = true /\
     (halton_coord 1 2 k 0 <? 1) = true) ->
  exists x_sites y_sites h',
    heater_init halton_coord xmin xmin n h = Some ((x_sites, y_sites), h') /\
    length x_sites = n /\
    Forall (fun x => (x =? xmin) = true) x_sites.
Proof.
  intros Fx Hu.
  exists (heater_x_sites halton_coord xmin xmin n), (repeat 1e-13 n).
  eexists. split; [apply heater_init_closed_form|].
  unfold heater_x_sites.
  split; [now rewrite length_map, length_seq|].
  apply Forall_forall. intros x Hx.
  apply in_map_iff in Hx as (k & <- & Hk). apply in_seq in Hk.
  destruct (Hu k) as [Hu0 Hu1]; [lia|].
  pose proof (is_finite_not_nan xmin Fx) as Nx.
  assert (in_interval xmin xmin
            (xmin + halton_coord 1 2 k 0 * (xmin - xmin)) = true) as H.
  { apply affine_in_interval; auto.
    - now rewrite sub_diag.
    - now apply leb_refl. }
  unfold in_interval in H. apply andb_true_iff in H as [H1 H2].
  now apply leb_antisym.
Qed.

End with_generator.

End heater_props.

Module order_facts.

Import float_facts arith_facts maximum_facts.

Lemma ltb_leb (a b : float) : (a <? b) = true -> (a <=? b) = true.
Proof.
  rewrite ltb_spec, leb_spec. unfold SFltb, SFleb.
  now destruct (SFcompare (Prim2SF a) (Prim2SF b)) as [[]|].
Qed.

Lemma ltb_not_nan (a b : float) :
  (a <? b) = true -> is_nan a = false /\ is_nan b = false.
Proof. intros H. apply leb_not_nan. now apply ltb_leb. Qed.

(** Of two numbers, one is below the other or the other is at most it. *)
Lemma leb_false_ltb (a b : float) :
  is_nan a = false -> is_nan b = false ->
  (a <=? b) = false -> (b <? a) = true.
Proof.
  intros Ha Hb. rewrite leb_spec, ltb_spec. unfold SFleb, SFltb.
  rewrite (SFcompare_antisym (Prim2SF a) (Prim2SF b)).
  destruct (SFcompare (Prim2SF a) (Prim2SF b)) as [[]|] eqn:E; simpl;
    try congruence.
  apply SFcompare_None in E as [E|E]; apply is_nan_spec in E; congruence.
Qed.

Lemma ltb_false_leb (a b : float) :
  is_nan a = false -> is_nan b = false ->
  (a <? b) = false -> (b <=? a) = true.
Proof.
  intros Ha Hb H. destruct (b <=? a) eqn:E; [reflexivity|].
  apply leb_false_ltb in E; auto. congruence.
Qed.

Lemma leb_ltb_trans (a b c : float) :
  (a <=? b) = true -> (b <? c) = true -> (a <? c) = true.
Proof.
  intros H1 H2.
  destruct (leb_not_nan _ _ H1) as [Na Nb].
  destruct (ltb_not_nan _ _ H2) as [_ Nc].
  destruct (a <? c) eqn:E; [reflexivity|].
  apply ltb_false_leb in E; auto.
  pose proof (leb_trans _ _ _ E H1) as H.
  apply ltb_leb_false in H2. congruence.
Qed.

Lemma ltb_leb_trans (a b c : float) :
  (a <? b) = true -> (b <=? c) = true -> (a <? c) = true.
Proof.
  intros H1 H2.
  destruct (ltb_not_nan _ _ H1) as [Na Nb].
  destruct (leb_not_nan _ _ H2) as [_ Nc].
  destruct (a <? c) eqn:E; [reflexivity|].
  apply ltb_false_leb in E; auto.
  pose proof (leb_trans _ _ _ H2 E) as H.
  apply ltb_leb_false in H1. congruence.
Qed.

(** ** NaN in the arithmetic of the sample *)

Lemma add_nan_l (b : float) : nan + b = nan.
Proof.
  apply Prim2SF_inj. rewrite add_spec.
  change (Prim2SF nan) with S754_nan. reflexivity.
Qed.

Lemma add_nan_r (a : float) : a + nan = nan.
Proof.
  apply Prim2SF_inj. rewrite add_spec.
  change (Prim2SF nan) with S754_nan. now destruct (Prim2SF a).
Qed.

Lemma div_nan_l (b : float) : nan / b = nan.
Proof.
  apply Prim2SF_inj. rewrite div_spec.
  change (Prim2SF nan) with S754_nan. reflexivity.
Qed.

Lemma sub_nan_l (b : float) : nan - b = nan.
Proof.
  apply Prim2SF_inj. rewrite sub_spec.
  change (Prim2SF nan) with S754_nan. reflexivity.
Qed.

Lemma sub_nan_r (a : float) : a - nan = nan.
Proof.
  apply Prim2SF_inj. rewrite sub_spec.
  change (Prim2SF nan) with S754_nan. now destruct (Prim2SF a).
Qed.

Lemma mul_nan_l (b : float) : nan * b = nan.
Proof.
  apply Prim2SF_inj. rewrite mul_spec.
  change (Prim2SF nan) with S754_nan. reflexivity.
Qed.

Lemma sqrt_nan : sqrt nan = nan.
Proof. reflexivity. Qed.

(** ** [np.maximum] as a lattice operation *)

Lemma maximum_neg_infinity_r (a : float) : np.maximum a neg_infinity = a.
Proof.
  unfold np.maximum. destruct (is_nan a) eqn:N.
  - now rewrite orb_true_r.
  - now rewrite neg_infinity_leb.
Qed.

(** The result of [np.maximum] is NaN or at least its first argument, and
    NaN or at least its second. *)
Lemma maximum_ge_l (a b : float) :
  is_nan (np.maximum a b) = true \/ (a <=? np.maximum a b) = true.
Proof.
  destruct (is_nan a) eqn:Na.
  - left. apply is_nan_nan in Na. subst a. now rewrite maximum_nan_l.
  - destruct (is_nan b) eqn:Nb.
    + left. apply is_nan_nan in Nb. subst b. now rewrite maximum_nan_r.
    + right. destruct (maximum_cases a b Na Nb) as [[-> _]|[-> L]];
        [now apply leb_refl|assumption].
Qed.

Lemma maximum_ge_r (a b : float) :
  is_nan (np.maximum a b) = true \/ (b <=? np.maximum a b) = true.
Proof.
  destruct (is_nan a) eqn:Na.
  - left. apply is_nan_nan in Na. subst a. now rewrite maximum_nan_l.
  - destruct (is_nan b) eqn:Nb.
    + left. apply is_nan_nan in Nb. subst b. now rewrite maximum_nan_r.
    + right. destruct (maximum_cases a b Na Nb) as [[-> L]|[-> _]];
        [assumption|now apply leb_refl].
Qed.

Lemma maximum_idem (a : float) : np.maximum a a = a.
Proof. unfold np.maximum. now destruct ((a <=? a) || is_nan a). Qed.

(** [np.maximum] is associative: both groupings return the first of the
    largest arguments, or NaN. *)
Lemma maximum_assoc (a b c : float) :
  np.maximum (np.maximum a b) c = np.maximum a (np.maximum b c).
Proof.
  destruct (is_nan a) eqn:Na;
    [apply is_nan_nan in Na; subst a; now rewrite !maximum_nan_l|].
  destruct (is_nan b) eqn:Nb;
    [apply is_nan_nan in Nb; subst b;
     now rewrite ?maximum_nan_l, ?maximum_nan_r, ?maximum_nan_l|].
  destruct (is_nan c) eqn:Nc;
    [apply is_nan_nan in Nc; subst c; now rewrite !maximum_nan_r|].
  unfold np.maximum. rewrite Na, Nb, !orb_false_r.
  destruct (b <=? a) eqn:Eba, (c <=? b) eqn:Ecb;
    rewrite ?Na, ?Nb, ?Nc, ?orb_false_r, ?Eba, ?Ecb; try reflexivity.
  - now rewrite (leb_trans _ _ _ Ecb Eba).
  - destruct (c <=? a) eqn:Eca; [|reflexivity].
    pose proof (leb_total _ _ Nb Na Eba) as Eab.
    pose proof (leb_trans _ _ _ Eca Eab). congruence.
Qed.

(** The running maximum from [start] is the maximum of [start] and the
    running maximum from minus infinity. *)
Lemma max_over_start (vs : list float) (start : float) :
  max_over start vs = np.maximum start (max_over neg_infinity vs).
Proof.
  revert start. induction vs as [|v vs IH]; intros start.
  - simpl. now rewrite maximum_neg_infinity_r.
  - change (max_over start (v :: vs))
      with (max_over (np.maximum start v) vs).
    change (max_over neg_infinity (v :: vs))
      with (max_over (np.maximum neg_infinity v) vs).
    rewrite maximum_neg_infinity_l, (IH (np.maximum start v)), (IH v).
    apply maximum_assoc.
Qed.

Lemma max_over_app (vs ws : list float) (start : float) :
  max_over start (vs ++ ws)
  = np.maximum (max_over start vs) (max_over neg_infinity ws).
Proof.
  unfold max_over at 1. rewrite fold_left_app.
  apply (max_over_start ws).
Qed.

(** The running maximum is NaN or at least its start value. *)
Lemma max_over_ge_start (vs : list float) (start : float) :
  is_nan (max_over start vs) = true \/ (start <=? max_over start vs) = true.
Proof.
  rewrite max_over_start. apply maximum_ge_l.
Qed.

End order_facts.

Module dfun_init_props.

Import np_facts float_facts arith_facts array_facts maximum_facts.
Import dfun_init_facts order_facts.

Lemma combine_app {A B : Type} (l1 l2 : list A) (l1' l2' : list B) :
  length l1 = length l1' ->
  combine (l1 ++ l2) (l1' ++ l2') = combine l1 l1' ++ combine l2 l2'.
Proof.
  revert l1'. induction l1 as [|a l1 IH]; intros [|b l1'] H;
    try discriminate; simpl; [reflexivity|].
  f_equal. apply IH. now injection H.
Qed.

Lemma nth_error_zip_with_inv {A B C : Type} (f : A -> B -> C) a b k z :
  nth_error (np.zip_with f a b) k = Some z ->
  exists x y, nth_error a k = Some x /\ nth_error b k = Some y /\ z = f x y.
Proof.
  revert b k. induction a as [|x0 a IH]; intros [|y0 b] [|k]; simpl;
    try discriminate.
  - intros [= <-]. now exists x0, y0.
  - apply IH.
Qed.

(** An entry of an elementwise combination comes from the entries of the
    two arrays at its position. *)
Lemma at2_amap2_inv (f : float -> float -> float) (a b : np.array2) r c v :
  at2 (np.amap2 f a b) r c = Some v ->
  exists x y, at2 a r c = Some x /\ at2 b r c = Some y /\ v = f x y.
Proof.
  unfold at2, np.amap2. intros H.
  apply bind_some in H as (row & Hrow & Hv).
  apply nth_error_zip_with_inv in Hrow as (ra & rb & Ha & Hb & ->).
  apply nth_error_zip_with_inv in Hv as (x & y & Hx & Hy & ->).
  exists x, y. rewrite Ha, Hb. simpl. auto.
Qed.

Lemma seed_value_distance (seed_radius cx cy x y : float) :
  seed_value seed_radius cx cy x y = seed_radius - distance x y cx cy.
Proof. reflexivity. Qed.

(** A NaN coordinate of the seed centre makes the seed value NaN. *)
Lemma seed_value_nan_centre (seed_radius cx cy x y : float) :
  is_nan cx = true \/ is_nan cy = true ->
  seed_value seed_radius cx cy x y = nan.
Proof.
  unfold seed_value, np.square.
  intros [H|H]; apply is_nan_nan in H; subst.
  - now rewrite sub_nan_r, mul_nan_l, add_nan_l, sqrt_nan, sub_nan_r.
  - now rewrite (sub_nan_r y), mul_nan_l, add_nan_r, sqrt_nan, sub_nan_r.
Qed.

(** The values of a list are all numbers or one of them is NaN. *)
Lemma numbers_or_nan (vs : list float) :
  Forall (fun v => is_nan v = false) vs \/
  Exists (fun v => is_nan v = true) vs.
Proof.
  induction vs as [|v vs [IH|IH]].
  - left. constructor.
  - destruct (is_nan v) eqn:E; [right; now left|left; now constructor].
  - right. now right.
Qed.

(** Every value of a running maximum is below it, unless it is NaN. *)
Lemma max_over_ge_In (vs : list float) (start w : float) :
  In w vs ->
  is_nan (max_over start vs) = true \/ (w <=? max_over start vs) = true.
Proof.
  intros Hin. destruct (is_nan start) eqn:Ns.
  - left. apply is_nan_nan in Ns. subst. now rewrite max_over_nan_start.
  - destruct (numbers_or_nan vs) as [Hv|Hn].
    + right. destruct (max_over_spec vs start Ns Hv) as (_ & _ & A & _).
      rewrite Forall_forall in A. now apply A.
    + left. now rewrite max_over_nan.
Qed.

(** The running maximum, from minus infinity, of values that are numbers
    is minus infinity for no value and one of the values otherwise. *)
Lemma max_over_In (vs : list float) :
  Forall (fun v => is_nan v = false) vs -> vs <> [] ->
  In (max_over neg_infinity vs) vs.
Proof.
  intros Hv Hne.
  destruct (max_over_spec vs neg_infinity eq_refl Hv) as (_ & _ & A & I).
  destruct I as [I|I]; [|assumption].
  destruct vs as [|v vs']; [contradiction|].
  inversion A as [|v0 vs0 Lv _]; subst.
  rewrite I in Lv. apply leb_neg_infinity in Lv.
  left. now rewrite I.
Qed.

(** A bound on every value bounds the running maximum. *)
Lemma max_over_le (vs : list float) (bound : float) :
  vs <> [] ->
  Forall (fun v => is_nan v = true \/ (v <=? bound) = true) vs ->
  is_nan (max_over neg_infinity vs) = true \/
  (max_over neg_infinity vs <=? bound) = true.
Proof.
  intros Hne Hb. destruct (numbers_or_nan vs) as [Hv|Hn].
  - pose proof (max_over_In vs Hv Hne) as I.
    rewrite Forall_forall in Hb. apply Hb, I.
  - left. now rewrite max_over_nan.
Qed.

Section with_cos.

Variable np_cos : float -> float.

(** X2: No entry of the field is above the radius: with at least one site,
    every entry of the field of [dfun_init] is NaN or at most
    [seed_radius]. *)
Theorem X2_dfun_init_at_most_radius
    x_grid y_grid x_sites y_sites seed_radius :
  shape x_grid = shape y_grid ->
  combine x_sites y_sites <> [] ->
  Forall (fun v => is_nan v = true \/ (v <=? seed_radius) = true)
         (concat (dfun_init np_cos x_grid y_grid x_sites y_sites
                            seed_radius)).
Proof.
  intros Hs Hne. rewrite dfun_init_pointwise by assumption.
  apply Forall_forall. intros v Hv.
  apply concat_amap2_In in Hv as (x & y & _ & _ & ->).
  apply max_over_le.
  - unfold seed_values. destruct (combine x_sites y_sites);
      [contradiction|discriminate].
  - apply Forall_forall. intros w Hw. unfold seed_values in Hw.
    apply in_map_iff in Hw as (site & <- & _).
    apply (seed_value_le seed_radius (fst site)
             (snd site + seed_height np_cos seed_radius) x y).
Qed.

(** X3: A site with a NaN coordinate makes every entry of the field NaN, not
    only the entries near it. *)
Theorem X3_dfun_init_nan_site
    x_grid y_grid x_sites y_sites seed_radius sx sy :
  shape x_grid = shape y_grid ->
  In (sx, sy) (combine x_sites y_sites) ->
  is_nan sx = true \/ is_nan sy = true ->
  Forall (fun v => v = nan)
         (concat (dfun_init np_cos x_grid y_grid x_sites y_sites
                            seed_radius)).
Proof.
  intros Hs Hin Hn. rewrite dfun_init_pointwise by assumption.
  apply Forall_forall. intros v Hv.
  apply concat_amap2_In in Hv as (x & y & _ & _ & ->).
  apply max_over_nan. apply Exists_exists.
  exists (seed_value seed_radius sx
            (sy + seed_height np_cos seed_radius) x y).
  split.
  - unfold seed_values. apply in_map_iff. now exists (sx, sy).
  - rewrite seed_value_nan_centre; [reflexivity|].
    destruct Hn as [Hn|Hn]; [now left|right].
    apply is_nan_nan in Hn. subst sy. now rewrite add_nan_l.
Qed.

(** X4: The field of two lists of sites, one after the other, is the pointwise
    [np.maximum] of the fields of the two lists. *)
Theorem X4_dfun_init_app
    x_grid y_grid xs1 ys1 xs2 ys2 seed_radius :
  shape x_grid = shape y_grid ->
  length xs1 = length ys1 ->
  dfun_init np_cos x_grid y_grid (xs1 ++ xs2) (ys1 ++ ys2) seed_radius
  = np.amap2 np.maximum
      (dfun_init np_cos x_grid y_grid xs1 ys1 seed_radius)
      (dfun_init np_cos x_grid y_grid xs2 ys2 seed_radius).
Proof.
  intros Hs Hl. rewrite !dfun_init_pointwise by assumption.
  rewrite amap2_amap2. apply amap2_ext. intros x y.
  rewrite combine_app by assumption.
  unfold seed_values. rewrite map_app. apply max_over_app.
Qed.

(** X5: Adding sites never lowers the field: every entry of the field of the
    longer list of sites is NaN or at least the entry of the field of the
    sites it starts with. *)
Theorem X5_dfun_init_more_sites
    x_grid y_grid xs1 ys1 xs2 ys2 seed_radius r c v :
  shape x_grid = shape y_grid ->
  length xs1 = length ys1 ->
  at2 (dfun_init np_cos x_grid y_grid xs1 ys1 seed_radius) r c = Some v ->
  exists v',
    at2 (dfun_init np_cos x_grid y_grid (xs1 ++ xs2) (ys1 ++ ys2)
                   seed_radius) r c = Some v' /\
    (is_nan v' = true \/ (v <=? v') = true).
Proof.
  intros Hs Hl Hv.
  rewrite dfun_init_pointwise in Hv |- * by assumption.
  apply at2_amap2_inv in Hv as (x & y & Hx & Hy & ->).
  eexists. split.
  - exact (at2_amap2 _ x_grid y_grid r c x y Hx Hy).
  - cbv beta. rewrite combine_app by assumption.
    unfold seed_values. rewrite map_app, max_over_app.
    apply maximum_ge_l.
Qed.

(** X6: The bubbles are the union of the discs: on finite data an entry of the
    field is positive exactly when the distance from its grid point to
    some seed centre is below the radius, and negative exactly when the
    distance to every seed centre is above the radius. *)
Theorem X6_dfun_init_sign_is_union_of_discs
    x_grid y_grid x_sites y_sites seed_radius r c x y :
  let sh := seed_height np_cos seed_radius in
  let sites := combine x_sites y_sites in
  shape x_grid = shape y_grid ->
  is_finite seed_radius = true ->
  Forall (fun s => is_finite (fst s) = true /\ is_finite (snd s + sh) = true)
         sites ->
  at2 x_grid r c = Some x -> at2 y_grid r c = Some y ->
  is_finite x = true -> is_finite y = true ->
  exists v,
    at2 (dfun_init np_cos x_grid y_grid x_sites y_sites seed_radius) r c
    = Some v /\
    ((0 <? v) = true <->
     exists s, In s sites /\
               (distance x y (fst s) (snd s + sh) <? seed_radius) = true) /\
    ((v <? 0) = true <->
     forall s, In s sites ->
               (seed_radius <? distance x y (fst s) (snd s + sh)) = true).
Proof.
  intros sh sites Hs Fr Fs Hx Hy Fx Fy.
  rewrite dfun_init_pointwise by assumption. fold sh. fold sites.
  eexists. split; [exact (at2_amap2 _ x_grid y_grid r c x y Hx Hy)|].
  cbv beta. set (vs := seed_values seed_radius sh sites x y).
  rewrite Forall_forall in Fs.
  assert (forall w, In w vs <->
            exists s, In s sites /\
              w = seed_radius - distance x y (fst s) (snd s + sh)) as Hvs.
  { intros w. unfold vs, seed_values. rewrite in_map_iff.
    split; intros (s & A & B); exists s; split; auto. }
  assert (Forall (fun v => is_nan v = false) vs) as Hnum.
  { apply Forall_forall. intros w Hw. apply Hvs in Hw as (s & Is & ->).
    destruct (Fs s Is) as [F1 F2].
    now apply (seed_value_not_nan seed_radius (fst s) (snd s + sh) x y). }
  destruct (max_over_spec vs neg_infinity eq_refl Hnum) as (N & _ & A & I).
  rewrite Forall_forall in A.
  set (m := max_over neg_infinity vs) in *. split; split.
  - intros Hpos.
    destruct I as [I|I]; [rewrite I in Hpos; discriminate Hpos|].
    apply Hvs in I as (s & Is & E). exists s. split; [assumption|].
    rewrite E in Hpos.
    now rewrite (proj1 (sub_sign seed_radius _)) in Hpos.
  - intros (s & Is & Hd).
    apply ltb_leb_trans
      with (seed_radius - distance x y (fst s) (snd s + sh)).
    + now rewrite (proj1 (sub_sign seed_radius _)).
    + apply A, Hvs. now exists s.
  - intros Hneg s Is.
    rewrite <- (proj2 (sub_sign seed_radius _)).
    apply leb_ltb_trans with m; [|assumption].
    apply A, Hvs. now exists s.
  - intros Hall.
    destruct I as [I|I]; [now rewrite I|].
    apply Hvs in I as (s & Is & E). rewrite E.
    rewrite (proj2 (sub_sign seed_radius _)). now apply Hall.
Qed.

(** X7: A grid point at the centre of a seed holds the radius, however many
    sites there are: on finite data, the entry of the field at a grid
    point that is the seed centre of one of the sites equals
    [seed_radius]. *)
Theorem X7_dfun_init_centre_holds_radius
    x_grid y_grid x_sites y_sites seed_radius r c s :
  let sh := seed_height np_cos seed_radius in
  let sites := combine x_sites y_sites in
  shape x_grid = shape y_grid ->
  is_finite seed_radius = true ->
  Forall (fun s => is_finite (fst s) = true /\ is_finite (snd s + sh) = true)
         sites ->
  finite_array x_grid -> finite_array y_grid ->
  In s sites ->
  at2 x_grid r c = Some (fst s) -> at2 y_grid r c = Some (snd s + sh) ->
  exists v,
    at2 (dfun_init np_cos x_grid y_grid x_sites y_sites seed_radius) r c
    = Some v /\
    (v =? seed_radius) = true.
Proof.
  intros sh sites Hs Fr Fs Fxg Fyg Is Hx Hy.
  rewrite dfun_init_pointwise by assumption. fold sh. fold sites.
  eexists. split; [exact (at2_amap2 _ x_grid y_grid r c _ _ Hx Hy)|].
  cbv beta.
  set (vs := seed_values seed_radius sh sites (fst s) (snd s + sh)).
  rewrite Forall_forall in Fs.
  unfold finite_array in Fxg, Fyg. rewrite Forall_forall in Fxg, Fyg.
  pose proof (Fxg _ (at2_In _ _ _ _ Hx)) as Fx.
  pose proof (Fyg _ (at2_In _ _ _ _ Hy)) as Fy.
  assert (Forall (fun v => is_nan v = false) vs) as Hnum.
  { apply Forall_forall. intros w Hw. unfold vs, seed_values in Hw.
    apply in_map_iff in Hw as (s' & <- & Is').
    destruct (Fs s' Is') as [F1 F2].
    now apply seed_value_not_nan. }
  assert (In seed_radius vs) as Hin.
  { unfold vs, seed_values. apply in_map_iff. exists s.
    split; [|assumption]. unfold seed_value.
    rewrite !sub_diag by assumption.
    change (sqrt (np.square 0 + np.square 0)) with 0.
    apply sub_zero. }
  assert (vs <> []) as Hne by (intros E; rewrite E in Hin; contradiction).
  destruct (max_over_spec vs neg_infinity eq_refl Hnum) as (N & _ & A & _).
  rewrite Forall_forall in A.
  apply leb_antisym; [|now apply A].
  pose proof (max_over_In vs Hnum Hne) as I.
  set (m := max_over neg_infinity vs) in *.
  unfold vs, seed_values in I. apply in_map_iff in I as (s' & E & _).
  destruct (seed_value_le seed_radius (fst s') (snd s' + sh)
              (fst s) (snd s + sh)) as [B|B];
    rewrite E in B; [congruence|exact B].
Qed.

End with_cos.

End dfun_init_props.

Module sample_arith.

Import binary64 float_facts rounding_facts arith_facts order_facts.

Local Open Scope Z_scope.

(** A sum of two floats that are at least zero is at least zero. *)
Lemma SFadd_nonneg (a b : spec_float) :
  valid_binary a = true -> valid_binary b = true ->
  SFleb (S754_zero false) a = true -> SFleb (S754_zero false) b = true ->
  SFleb (S754_zero false) (SF64add a b) = true.
Proof.
  intros Va Vb Ha Hb.
  destruct a as [sa|sa| |sa ma ea]; try discriminate;
    destruct b as [sb|sb| |sb mb eb]; try discriminate;
    try (destruct sa; try discriminate);
    try (destruct sb; try discriminate);
    try reflexivity.
  apply SFpositive_sign_leb. now apply SFadd_positive_sign.
Qed.

(** The quotient of a float that is at least zero by a positive float is
    at least zero. *)
Lemma SFdiv_nonneg (a : spec_float) (m : positive) (e : Z) :
  SFleb (S754_zero false) a = true ->
  SFleb (S754_zero false) (SF64div a (S754_finite false m e)) = true.
Proof.
  intros Ha.
  destruct a as [sa|sa| |sa ma ea]; try discriminate;
    try (destruct sa; try discriminate; reflexivity).
  destruct sa; [discriminate|].
  unfold SF64div, SFdiv.
  destruct (SFdiv_core_binary prec emax (Z.pos ma) ea (Z.pos m) e)
    as [[mz ez] lz] eqn:E.
  assert (0 <= mz) as Hm.
  { unfold SFdiv_core_binary in E.
    set (m' := match _ - _ - _ with Z0 => _ | Z.pos _ => _ | Z.neg _ => _ end)
      in E.
    assert (0 <= m') as Hm'.
    { unfold m'. destruct (_ - _ - _); try lia. apply Z.shiftl_nonneg. lia. }
    pose proof (Z_div_mod m' (Z.pos m) ltac:(lia)) as D.
    destruct (Z.div_eucl m' (Z.pos m)) as [q r]. injection E as <- _ _.
    destruct D as [D1 D2]. nia. }
  pose proof (binary_round_aux_not_nan false mz ez lz Hm) as N.
  pose proof (binary_round_aux_sign false mz ez lz) as S.
  cbn [xorb].
  destruct (binary_round_aux prec emax false mz ez lz); subst;
    try reflexivity; contradiction.
Qed.

Local Open Scope float_scope.

Lemma add_nonneg (a b : float) :
  (0 <=? a) = true -> (0 <=? b) = true -> (0 <=? a + b) = true.
Proof.
  rewrite !leb_spec, add_spec. change (Prim2SF 0) with (S754_zero false).
  apply SFadd_nonneg; apply Prim2SF_valid.
Qed.

(** The mean of four values that are at least zero is at least zero. *)
Lemma mean_nonneg (a b c d : float) :
  (0 <=? a) = true -> (0 <=? b) = true ->
  (0 <=? c) = true -> (0 <=? d) = true ->
  (0 <=? (a + b + c + d) / 4) = true.
Proof.
  intros Ha Hb Hc Hd.
  pose proof (add_nonneg _ _ (add_nonneg _ _ (add_nonneg _ _ Ha Hb) Hc) Hd)
    as H.
  rewrite leb_spec in H |- *. rewrite div_spec.
  change (Prim2SF 0) with (S754_zero false) in *.
  change (Prim2SF 4) with (S754_finite false 4503599627370496 (-50)).
  now apply SFdiv_nonneg.
Qed.

(** The mean of four values one of which is NaN is NaN. *)
Lemma mean_nan (a b c d : float) :
  In nan [a; b; c; d] -> (a + b + c + d) / 4 = nan.
Proof.
  intros [-> | [-> | [-> | [-> | []]]]];
    now rewrite ?add_nan_r, ?add_nan_l, div_nan_l.
Qed.

End sample_arith.

Module tag_props.

Import np_facts float_facts arith_facts order_facts searchsorted_facts.
Import tag_facts sample_arith.

(** ** Where [np.searchsorted] lands on an ascending axis *)

Lemma less_nan_l (key : float) : np.less nan key = false.
Proof.
  unfold np.less. rewrite ltb_spec.
  change (Prim2SF nan) with S754_nan. simpl.
  now rewrite andb_false_r.
Qed.

Lemma less_number (a key : float) :
  is_nan key = false -> np.less a key = (a <? key).
Proof. intros H. unfold np.less. rewrite H. apply orb_false_r. Qed.

(** A key above the first entry and at most the last one lands strictly
    inside the axis. *)
Lemma searchsorted_interior (arr : np.array1) (key : float) :
  ascending arr ->
  (nth 0 arr nan <? key) = true ->
  (key <=? nth (length arr - 1) arr nan) = true ->
  (1 <= np.searchsorted arr key <= Z.of_nat (length arr) - 1)%Z.
Proof.
  intros Hasc H0 Hl.
  destruct (ltb_not_nan _ _ H0) as [N0 Nk].
  assert (0 < length arr)%nat as Hn.
  { destruct arr; [discriminate N0|simpl; lia]. }
  pose proof (searchsorted_bounds arr key) as B.
  destruct (searchsorted_left arr key) as [Hlo Hhi].
  { intros i j Hij Hj.
    destruct (Nat.lt_ge_cases j (length arr)) as [Hlt|Hge].
    - rewrite less_number in Hj |- * by assumption.
      apply leb_ltb_trans with (nth j arr nan); [|assumption].
      apply Hasc. lia.
    - rewrite nth_overflow, less_nan_l in Hj by assumption. discriminate. }
  set (k := Z.to_nat (np.searchsorted arr key)) in *.
  assert (np.searchsorted arr key = Z.of_nat k) as -> by (unfold k; lia).
  assert (k <> 0)%nat.
  { intros E. specialize (Hhi 0%nat). rewrite E in Hhi.
    specialize (Hhi (Nat.le_refl 0) Hn).
    rewrite less_number in Hhi by assumption. congruence. }
  assert (k <= length arr - 1)%nat.
  { destruct (Nat.le_gt_cases k (length arr - 1)) as [|G]; [assumption|].
    specialize (Hlo (length arr - 1)%nat G).
    rewrite less_number in Hlo by assumption.
    apply leb_ltb_false in Hl. congruence. }
  lia.
Qed.

(** The position of a key that lands inside an ascending axis brackets
    the key: the entry before the position is below the key and the entry
    at the position is at least the key. *)
Lemma searchsorted_brackets (arr : np.array1) (key : float) :
  ascending arr ->
  (nth 0 arr nan <? key) = true ->
  (key <=? nth (length arr - 1) arr nan) = true ->
  let k := Z.to_nat (np.searchsorted arr key) in
  (nth (k - 1) arr nan <? key) = true /\ (key <=? nth k arr nan) = true.
Proof.
  intros Hasc H0 Hl k.
  pose proof (searchsorted_interior arr key Hasc H0 Hl) as B.
  destruct (ltb_not_nan _ _ H0) as [N0 Nk].
  destruct (searchsorted_left arr key) as [Hlo Hhi].
  { intros i j Hij Hj.
    destruct (Nat.lt_ge_cases j (length arr)) as [Hlt|Hge].
    - rewrite less_number in Hj |- * by assumption.
      apply leb_ltb_trans with (nth j arr nan); [|assumption].
      apply Hasc. lia.
    - rewrite nth_overflow, less_nan_l in Hj by assumption. discriminate. }
  fold k in Hlo, Hhi. split.
  - rewrite <- (less_number _ key Nk). apply Hlo. lia.
  - specialize (Hhi k (Nat.le_refl k) ltac:(lia)).
    rewrite less_number in Hhi by assumption.
    apply ltb_false_leb; [| assumption | assumption].
    assert ((nth k arr nan <=? nth k arr nan) = true) as R
      by (apply Hasc; lia).
    now destruct (leb_not_nan _ _ R).
Qed.

(** A key that every entry is below lands past the end of the axis. *)
Lemma searchsorted_past_end (arr : np.array1) (key : float) :
  Forall (fun v => np.less v key = true) arr ->
  np.searchsorted arr key = Z.of_nat (length arr).
Proof.
  intros Hall. rewrite Forall_forall in Hall.
  pose proof (searchsorted_bounds arr key) as B.
  destruct (searchsorted_left arr key) as [_ Hhi].
  { intros i j Hij Hj.
    destruct (Nat.lt_ge_cases j (length arr)) as [Hlt|Hge].
    - apply Hall, nth_In. lia.
    - rewrite nth_overflow, less_nan_l in Hj by assumption. discriminate. }
  set (k := Z.to_nat (np.searchsorted arr key)) in *.
  destruct (Nat.lt_ge_cases k (length arr)) as [Hlt|Hge]; [|lia].
  specialize (Hhi k (Nat.le_refl k) Hlt).
  rewrite Hall in Hhi by (apply nth_In; assumption). discriminate.
Qed.

(** A key at or before the first entry of an ascending axis lands at
    position 0. *)
Lemma searchsorted_at_start (arr : np.array1) (key : float) :
  ascending arr ->
  (key <=? nth 0 arr nan) = true ->
  np.searchsorted arr key = 0%Z.
Proof.
  intros Hasc H0.
  destruct (leb_not_nan _ _ H0) as [Nk N0].
  pose proof (searchsorted_bounds arr key) as B.
  destruct (searchsorted_left arr key) as [Hlo _].
  { intros i j Hij Hj.
    destruct (Nat.lt_ge_cases j (length arr)) as [Hlt|Hge].
    - rewrite less_number in Hj |- * by assumption.
      apply leb_ltb_trans with (nth j arr nan); [|assumption].
      apply Hasc. lia.
    - rewrite nth_overflow, less_nan_l in Hj by assumption. discriminate. }
  set (k := Z.to_nat (np.searchsorted arr key)) in *.
  destruct (Nat.eq_dec k 0) as [E|N]; [lia|].
  specialize (Hlo 0%nat ltac:(lia)).
  rewrite less_number in Hlo by assumption.
  apply leb_ltb_false in H0. congruence.
Qed.

(** ** When the loop of [tag_renucleation] returns *)

Lemma setitem_inv {A : Type} (a a' : list A) (i : nat) (v : A) :
  np.setitem a (Z.of_nat i) v = Some a' ->
  (i < length a)%nat /\ a' = np.update a i v.
Proof.
  intros H. destruct (Nat.lt_ge_cases i (length a)) as [Hlt|Hge].
  - rewrite setitem_nat in H by assumption. split; congruence.
  - unfold np.setitem in H. rewrite norm_index_nat_out in H by assumption.
    discriminate.
Qed.

Lemma tag_counter_inv iters iters' i m :
  tag_counter iters i m = Some iters' ->
  (i < length iters)%nat /\ length iters' = length iters.
Proof.
  unfold tag_counter. intros H.
  destruct (m <? 0).
  - apply bind_some in H as (c & _ & H).
    apply setitem_inv in H as [Hi ->]. now rewrite length_update.
  - apply setitem_inv in H as [Hi ->]. now rewrite length_update.
Qed.

Lemma tag_loop_inv dfun coordx coordy sh sites :
  forall i dfun_sites iters r,
    tag_loop dfun coordx coordy sh i sites dfun_sites iters = Some r ->
    Forall (fun site => sample_site dfun coordx coordy sh site <> None)
           sites /\
    (sites = [] \/ (i + length sites <= length iters)%nat).
Proof.
  induction sites as [|site sites IH]; intros i ds it r H; simpl in H.
  - split; [constructor|now left].
  - apply bind_some in H as (m & Hm & H).
    apply bind_some in H as (ds' & Hds & H).
    apply bind_some in H as (it' & Hit & H).
    apply tag_counter_inv in Hit as [Hi Hl].
    destruct (IH _ _ _ _ H) as [Hall Hlen]. split.
    + constructor; [congruence|assumption].
    + right. simpl. destruct Hlen as [-> | Hlen]; simpl; lia.
Qed.

Section with_cos.

Variable np_cos : float -> float.

Lemma tag_renucleation_inv
    x_sites y_sites dfun coordx coordy seed_radius iters r :
  let sh := seed_height np_cos seed_radius in
  tag_renucleation np_cos x_sites y_sites dfun coordx coordy seed_radius
                   iters = Some r ->
  Forall (fun site => sample_site dfun coordx coordy sh site <> None)
         (combine x_sites y_sites) /\
  (length (combine x_sites y_sites) <= length iters)%nat.
Proof.
  intros sh H. unfold tag_renucleation in H. fold sh in H.
  apply tag_loop_inv in H as [Hall Hlen]. split; [assumption|].
  destruct Hlen as [-> | Hlen]; simpl in *; lia.
Qed.

(** What [tag_renucleation] stores for one site, whenever it returns. *)
Lemma tag_renucleation_site
    x_sites y_sites dfun coordx coordy seed_radius iters dfun_sites iters'
    i site :
  let sh := seed_height np_cos seed_radius in
  tag_renucleation np_cos x_sites y_sites dfun coordx coordy seed_radius
                   iters = Some (dfun_sites, iters') ->
  nth_error (combine x_sites y_sites) i = Some site ->
  exists m c,
    sample_site dfun coordx coordy sh site = Some m /\
    nth_error iters i = Some c /\
    nth_error dfun_sites i = Some m /\
    nth_error iters' i = Some (tagged_count m c).
Proof.
  intros sh H Hsite.
  destruct (tag_renucleation_inv _ _ _ _ _ _ _ _ H) as [Hall Hlen].
  destruct (tag_renucleation_spec np_cos x_sites y_sites dfun coordx coordy
              seed_radius iters Hall Hlen)
    as (ds0 & it0 & E & _ & _ & Hin & _).
  rewrite H in E. injection E as <- <-.
  pose proof (nth_error_Some_lt _ _ _ Hsite) as Hi.
  destruct (nth_error iters i) as [c|] eqn:Ec;
    [|apply nth_error_None in Ec; lia].
  destruct (Hin i site c Hsite Ec) as (m & Sm & Hd & Hc).
  now exists m, c.
Qed.

(** X8: [tag_renucleation] returns exactly when the four corner reads of every
    site succeed and the counter array has an entry for every site; it
    raises [IndexError] otherwise. *)
Theorem X8_tag_renucleation_returns_iff
    x_sites y_sites dfun coordx coordy seed_radius iters :
  let sh := seed_height np_cos seed_radius in
  let sites := combine x_sites y_sites in
  tag_renucleation np_cos x_sites y_sites dfun coordx coordy seed_radius
                   iters <> None
  <->
  Forall (fun site =>
            Forall (fun read => read <> None)
                   (corner_reads dfun coordx coordy sh site)) sites /\
  (length sites <= length iters)%nat.
Proof.
  intros sh sites.
  assert (forall site,
            sample_site dfun coordx coordy sh site <> None <->
            Forall (fun read => read <> None)
                   (corner_reads dfun coordx coordy sh site)) as Hsample.
  { intros site. unfold sample_site, corner_reads. cbv zeta. split.
    - intros H.
      destruct (np.getitem2 dfun _ _) as [v11|]; [|now contradiction H].
      destruct (np.getitem2 dfun _ _) as [v01|]; [|now contradiction H].
      destruct (np.getitem2 dfun _ (_ - 1)) as [v10|];
        [|now contradiction H].
      destruct (np.getitem2 dfun _ _) as [v00|]; [|now contradiction H].
      repeat constructor; discriminate.
    - intros H.
      inversion H as [|? ? H1 H']; subst; clear H.
      inversion H' as [|? ? H2 H'']; subst; clear H'.
      inversion H'' as [|? ? H3 H']; subst; clear H''.
      inversion H' as [|? ? H4 _]; subst; clear H'.
      destruct (np.getitem2 dfun _ _) as [v11|]; [|congruence].
      destruct (np.getitem2 dfun _ _) as [v01|]; [|congruence].
      destruct (np.getitem2 dfun _ (_ - 1)) as [v10|]; [|congruence].
      destruct (np.getitem2 dfun _ _) as [v00|]; [|congruence].
      discriminate. }
  split.
  - intros H.
    destruct (tag_renucleation _ _ _ _ _ _ _ _) as [r|] eqn:E;
      [|congruence].
    apply tag_renucleation_inv in E as [Hall Hlen]. split; [|assumption].
    eapply Forall_impl; [|exact Hall]. intros site. apply Hsample.
  - intros [Hall Hlen].
    destruct (tag_renucleation_spec np_cos x_sites y_sites dfun coordx coordy
                seed_radius iters) as (ds & it & E & _); auto.
    + eapply Forall_impl; [|exact Hall]. intros site. apply Hsample.
    + rewrite E. discriminate.
Qed.

(** X9: Sites strictly inside the axes are sampled in bounds: on ascending
    axes, a site whose x is above the first and at most the last entry of
    [coordx], and whose shifted y is so in [coordy], has its positions
    between 1 and the last position of the axes, and [tag_renucleation]
    returns without error and without a wrapped index. *)
Theorem X9_tag_renucleation_inside_axes
    x_sites y_sites dfun coordx coordy seed_radius iters :
  let sh := seed_height np_cos seed_radius in
  let sites := combine x_sites y_sites in
  let nx := length coordx in
  let ny := length coordy in
  rectangular dfun ny nx ->
  ascending coordx -> ascending coordy ->
  (length sites <= length iters)%nat ->
  Forall (fun site =>
            (nth 0 coordx nan <? fst site) = true /\
            (fst site <=? nth (nx - 1) coordx nan) = true /\
            (nth 0 coordy nan <? snd site + sh) = true /\
            (snd site + sh <=? nth (ny - 1) coordy nan) = true) sites ->
  tag_renucleation np_cos x_sites y_sites dfun coordx coordy seed_radius
                   iters <> None /\
  Forall (fun site =>
            (1 <= np.searchsorted coordx (fst site) <= Z.of_nat nx - 1)%Z /\
            (1 <= np.searchsorted coordy (snd site + sh)
               <= Z.of_nat ny - 1)%Z) sites.
Proof.
  intros sh sites nx ny Hrect Hax Hay Hlen Hin.
  assert (Forall (fun site =>
            (1 <= np.searchsorted coordx (fst site) <= Z.of_nat nx - 1)%Z /\
            (1 <= np.searchsorted coordy (snd site + sh)
               <= Z.of_nat ny - 1)%Z) sites) as Hpos.
  { eapply Forall_impl; [|exact Hin].
    intros site (X0 & X1 & Y0 & Y1).
    split; now apply searchsorted_interior. }
  split; [|exact Hpos].
  destruct (tag_renucleation_spec np_cos x_sites y_sites dfun coordx coordy
              seed_radius iters) as (ds & it & E & _); auto.
  - fold sh. eapply Forall_impl; [|exact Hpos].
    intros site [Hx Hy]. apply sample_site_no_error; auto; lia.
  - rewrite E. discriminate.
Qed.

(** X10: The four corners are the corners of the grid cell that holds the
    seed centre: on ascending axes, for a site inside the axes, the
    columns [x_i - 1] and [x_i] bracket its x, [coordx[x_i-1] < x <=
    coordx[x_i]], and the rows [y_i - 1] and [y_i] bracket its shifted
    y. *)
Theorem X10_tag_sample_cell_holds_site
    coordx coordy seed_radius site :
  let sh := seed_height np_cos seed_radius in
  let x_i := Z.to_nat (np.searchsorted coordx (fst site)) in
  let y_i := Z.to_nat (np.searchsorted coordy (snd site + sh)) in
  ascending coordx -> ascending coordy ->
  (nth 0 coordx nan <? fst site) = true ->
  (fst site <=? nth (length coordx - 1) coordx nan) = true ->
  (nth 0 coordy nan <? snd site + sh) = true ->
  (snd site + sh <=? nth (length coordy - 1) coordy nan) = true ->
  ((nth (x_i - 1) coordx nan <? fst site) = true /\
   (fst site <=? nth x_i coordx nan) = true) /\
  ((nth (y_i - 1) coordy nan <? snd site + sh) = true /\
   (snd site + sh <=? nth y_i coordy nan) = true).
Proof.
  intros sh x_i y_i Hax Hay X0 X1 Y0 Y1.
  split; now apply searchsorted_brackets.
Qed.

(** X11: A site past the last entry of an axis raises [IndexError]: when every
    entry of [coordx] is below the x of some site (or every entry of
    [coordy] below its shifted y), [np.searchsorted] returns the length of
    the axis and [tag_renucleation] fails on the read at that index. *)
Theorem X11_tag_renucleation_past_axis
    x_sites y_sites dfun coordx coordy seed_radius iters site :
  let sh := seed_height np_cos seed_radius in
  rectangular dfun (length coordy) (length coordx) ->
  In site (combine x_sites y_sites) ->
  Forall (fun v => np.less v (fst site) = true) coordx \/
  Forall (fun v => np.less v (snd site + sh) = true) coordy ->
  tag_renucleation np_cos x_sites y_sites dfun coordx coordy seed_radius
                   iters = None.
Proof.
  intros sh [Hny Hrows] Hin Hpast.
  destruct (tag_renucleation _ _ _ _ _ _ _ _) as [r|] eqn:E;
    [|reflexivity].
  apply tag_renucleation_inv in E as [Hall _]. fold sh in Hall.
  rewrite Forall_forall in Hall. specialize (Hall site Hin).
  exfalso. apply Hall. unfold sample_site. cbv zeta.
  assert (np.getitem2 dfun (np.searchsorted coordy (snd site + sh))
            (np.searchsorted coordx (fst site)) = None) as ->;
    [|reflexivity].
  unfold np.getitem2. destruct Hpast as [Hx|Hy].
  - rewrite (searchsorted_past_end coordx _ Hx).
    destruct (np.getitem dfun _) as [row|] eqn:Erow; [|reflexivity].
    simpl. rewrite getitem_nat. apply nth_error_None.
    unfold np.getitem in Erow.
    apply bind_some in Erow as (k & _ & Hk). apply nth_error_In in Hk.
    rewrite Forall_forall in Hrows. rewrite (Hrows row Hk). lia.
  - rewrite (searchsorted_past_end coordy _ Hy).
    rewrite getitem_nat.
    assert (nth_error dfun (length coordy) = None) as ->
      by (apply nth_error_None; lia).
    reflexivity.
Qed.

(** X12: A site at or before the first x coordinate is sampled with a wrapped
    index: on an ascending [coordx] its x position is 0, so the sample is
    the mean of two cells of the first column and two cells of the last
    column of the field, and no error is raised. *)
Theorem X12_tag_sample_wraps_at_first_coordinate
    dfun coordx coordy seed_radius site :
  let sh := seed_height np_cos seed_radius in
  let nx := length coordx in
  let ny := length coordy in
  let y_i := Z.to_nat (np.searchsorted coordy (snd site + sh)) in
  rectangular dfun ny nx ->
  ascending coordx ->
  (fst site <=? nth 0 coordx nan) = true ->
  (1 <= y_i <= ny - 1)%nat ->
  np.searchsorted coordx (fst site) = 0%Z /\
  exists v11 v01 v10 v00,
    at2 dfun y_i 0 = Some v11 /\
    at2 dfun (y_i - 1) 0 = Some v01 /\
    at2 dfun y_i (nx - 1) = Some v10 /\
    at2 dfun (y_i - 1) (nx - 1) = Some v00 /\
    sample_site dfun coordx coordy sh site
    = Some ((v11 + v01 + v10 + v00) / 4).
Proof.
  intros sh nx ny y_i Hrect Hasc H0 Hy.
  pose proof (searchsorted_at_start coordx (fst site) Hasc H0) as Ex.
  split; [assumption|].
  assert (0 < nx)%nat as Hnx.
  { destruct (leb_not_nan _ _ H0) as [_ N0].
    unfold nx. destruct coordx; [discriminate N0|simpl; lia]. }
  pose proof (searchsorted_bounds coordy (snd site + sh)) as By.
  assert (np.searchsorted coordy (snd site + sh) = Z.of_nat y_i) as Ey
    by (unfold y_i; lia).
  destruct (getitem2_rectangular dfun ny nx (Z.of_nat y_i) 0 y_i 0%nat
              Hrect) as [E11 N11];
    [apply norm_index_nat; lia|apply (norm_index_nat nx 0); lia|].
  destruct (getitem2_rectangular dfun ny nx (Z.of_nat y_i - 1) 0
              (y_i - 1)%nat 0%nat Hrect) as [E01 N01];
    [replace (Z.of_nat y_i - 1)%Z with (Z.of_nat (y_i - 1)) by lia;
     apply norm_index_nat; lia
    |apply (norm_index_nat nx 0); lia|].
  destruct (getitem2_rectangular dfun ny nx (Z.of_nat y_i) (0 - 1) y_i
              (nx - 1)%nat Hrect) as [E10 N10];
    [apply norm_index_nat; lia|now apply norm_index_minus_one|].
  destruct (getitem2_rectangular dfun ny nx (Z.of_nat y_i - 1) (0 - 1)
              (y_i - 1)%nat (nx - 1)%nat Hrect) as [E00 N00];
    [replace (Z.of_nat y_i - 1)%Z with (Z.of_nat (y_i - 1)) by lia;
     apply norm_index_nat; lia
    |now apply norm_index_minus_one|].
  destruct (at2 dfun y_i 0) as [v11|] eqn:A11; [|congruence].
  destruct (at2 dfun (y_i - 1) 0) as [v01|] eqn:A01; [|congruence].
  destruct (at2 dfun y_i (nx - 1)) as [v10|] eqn:A10; [|congruence].
  destruct (at2 dfun (y_i - 1) (nx - 1)) as [v00|] eqn:A00; [|congruence].
  exists v11, v01, v10, v00. repeat split; try reflexivity.
  unfold sample_site. cbv zeta. fold sh. rewrite Ex, Ey.
  now rewrite E11, E01, E10, E00.
Qed.

(** X13: Whenever [tag_renucleation] returns, [dfun_sites] has the length of
    [x_sites] and the counters keep their length; past the sites that
    [zip] pairs, [dfun_sites] holds zeros and the counters are as they
    were. *)
Theorem X13_tag_renucleation_untouched_entries
    x_sites y_sites dfun coordx coordy seed_radius iters dfun_sites iters' :
  let n := length (combine x_sites y_sites) in
  tag_renucleation np_cos x_sites y_sites dfun coordx coordy seed_radius
                   iters = Some (dfun_sites, iters') ->
  length dfun_sites = length x_sites /\
  length iters' = length iters /\
  forall i, (n <= i)%nat ->
    nth_error iters' i = nth_error iters i /\
    ((i < length x_sites)%nat -> nth_error dfun_sites i = Some 0).
Proof.
  intros n H.
  destruct (tag_renucleation_inv _ _ _ _ _ _ _ _ H) as [Hall Hlen].
  destruct (Forall_some_Forall2 _ _ Hall) as (ms & Hms).
  unfold tag_renucleation in H.
  destruct (tag_loop_spec dfun coordx coordy
              (seed_height np_cos seed_radius) _ ms Hms 0%nat
              (np.zeros_like1 x_sites) iters)
    as (ds' & it' & E & Ld & Li & _ & Hout).
  { unfold np.zeros_like1. rewrite length_map, length_combine. simpl. lia. }
  { simpl. lia. }
  rewrite H in E. injection E as <- <-.
  unfold np.zeros_like1 in Ld, Hout. rewrite length_map in Ld.
  split; [assumption|]. split; [assumption|].
  intros i Hi. destruct (Hout i) as [Hd Hc]; [simpl; fold n; lia|].
  split; [assumption|]. intros Hx. rewrite Hd.
  rewrite nth_error_map.
  destruct (nth_error x_sites i) eqn:Ex; [reflexivity|].
  apply nth_error_None in Ex. lia.
Qed.

(** X14: A NaN in one of the four corner cells of a site makes the sample of
    the site NaN, and a NaN sample is not negative: the counter of the
    site is reset to zero. *)
Theorem X14_tag_renucleation_nan_corner
    x_sites y_sites dfun coordx coordy seed_radius iters dfun_sites iters'
    i site :
  let sh := seed_height np_cos seed_radius in
  tag_renucleation np_cos x_sites y_sites dfun coordx coordy seed_radius
                   iters = Some (dfun_sites, iters') ->
  nth_error (combine x_sites y_sites) i = Some site ->
  In (Some nan) (corner_reads dfun coordx coordy sh site) ->
  nth_error dfun_sites i = Some nan /\ nth_error iters' i = Some 0.
Proof.
  intros sh H Hsite Hnan.
  destruct (tag_renucleation_site _ _ _ _ _ _ _ _ _ _ _ H Hsite)
    as (m & c & Sm & Hc & Hd & Hi). fold sh in Sm.
  apply sample_site_inv in Sm
    as (v11 & v01 & v10 & v00 & H1 & H2 & H3 & H4 & Em).
  unfold corner_reads in Hnan. cbv zeta in Hnan.
  rewrite H1, H2, H3, H4 in Hnan.
  assert (m = nan) as ->.
  { rewrite Em. apply mean_nan.
    destruct Hnan as [E|[E|[E|[E|[]]]]]; injection E as ->;
      simpl; auto. }
  split; [assumption|]. exact Hi.
Qed.

(** X15: A site whose four corner cells are all at least zero gets a sample
    that is at least zero, and its counter is reset to zero, whatever it
    was. *)
Theorem X15_tag_renucleation_vapour_resets
    x_sites y_sites dfun coordx coordy seed_radius iters dfun_sites iters'
    i site :
  let sh := seed_height np_cos seed_radius in
  tag_renucleation np_cos x_sites y_sites dfun coordx coordy seed_radius
                   iters = Some (dfun_sites, iters') ->
  nth_error (combine x_sites y_sites) i = Some site ->
  Forall (fun read => exists v, read = Some v /\ (0 <=? v) = true)
         (corner_reads dfun coordx coordy sh site) ->
  (exists m, nth_error dfun_sites i = Some m /\ (0 <=? m) = true) /\
  nth_error iters' i = Some 0.
Proof.
  intros sh H Hsite Hpos.
  destruct (tag_renucleation_site _ _ _ _ _ _ _ _ _ _ _ H Hsite)
    as (m & c & Sm & Hc & Hd & Hi). fold sh in Sm.
  apply sample_site_inv in Sm
    as (v11 & v01 & v10 & v00 & H1 & H2 & H3 & H4 & Em).
  unfold corner_reads in Hpos. cbv zeta in Hpos.
  rewrite H1, H2, H3, H4 in Hpos.
  inversion Hpos as [|? ? (w1 & E1 & P1) Hp1]; subst; clear Hpos.
  inversion Hp1 as [|? ? (w2 & E2 & P2) Hp2]; subst; clear Hp1.
  inversion Hp2 as [|? ? (w3 & E3 & P3) Hp3]; subst; clear Hp2.
  inversion Hp3 as [|? ? (w4 & E4 & P4) _]; subst; clear Hp3.
  injection E1 as <-. injection E2 as <-.
  injection E3 as <-. injection E4 as <-.
  pose proof (mean_nonneg _ _ _ _ P1 P2 P3 P4) as Hm.
  split; [eexists; split; [exact Hd|exact Hm]|].
  rewrite Hi. unfold tagged_count.
  now rewrite (leb_ltb_false _ _ Hm).
Qed.

End with_cos.

End tag_props.

Module unit_scale.

Import binary64 float_facts rounding_facts arith_facts.

Local Open Scope Z_scope.

(** Dividing a canonical float by one: the quotient of the division core
    is the mantissa, or twice the mantissa one exponent lower, and it is
    exact. *)
Lemma SFdiv_core_one (m : positive) (e : Z) :
  bounded prec emax m e = true ->
  exists k,
    (k = 0 \/ k = 1) /\
    SFdiv_core_binary prec emax (Z.pos m) e (Z.pos 4503599627370496) (-52)
    = (Z.pos m * 2 ^ k, e - k, loc_Exact).
Proof.
  intros Hb. pose proof (bounded_mantissa m e Hb) as (Mu & Ml & Re).
  apply bounded_spec in Hb as [Hc _].
  pose proof (digits2_pos_bounds m) as [Dl Du].
  unfold SFdiv_core_binary.
  change (Zdigits2 (Z.pos m)) with (Z.pos (digits2_pos m)).
  change (Zdigits2 (Z.pos 4503599627370496)) with 53.
  change IntDef.Z.sub with Z.sub. change IntDef.Z.add with Z.add.
  change IntDef.Z.min with Z.min.
  set (d := Z.pos (digits2_pos m)) in *.
  unfold fexp in Hc |- *. unfold emin, emax, prec in Hc |- *.
  change IntDef.Z.sub with Z.sub in *. change IntDef.Z.add with Z.add in *.
  change IntDef.Z.max with Z.max in *.
  assert (d <= 53) as Hd.
  { destruct (Z.le_gt_cases d 53) as [|G]; [assumption|].
    assert (2 ^ 53 <= 2 ^ (d - 1)) by (apply Z.pow_le_mono_r; lia). lia. }
  set (e' := Z.min (Z.max (d + e - (53 + -52) - 53) (3 - 1024 - 53))
                   (e - -52)).
  assert (e' = e \/ e' = e - 1) as He' by (unfold e'; lia).
  assert (e - -52 - e' = 52 \/ e - -52 - e' = 53) as Hs by lia.
  exists (e - e'). split; [lia|].
  replace (e - (e - e')) with e' by lia.
  assert (Z.div_eucl (Z.shiftl (Z.pos m) (e - -52 - e'))
                     (Z.pos 4503599627370496)
          = (Z.pos m * 2 ^ (e - e'), 0)) as Hdiv.
  { rewrite Z.shiftl_mul_pow2 by lia.
    pose proof (Z_div_mod (Z.pos m * 2 ^ (e - -52 - e'))
                  (Z.pos 4503599627370496) ltac:(lia)) as D.
    destruct (Z.div_eucl _ _) as [q r]. destruct D as [D1 D2].
    change (Z.pos 4503599627370496) with (2 ^ 52) in *.
    replace (e - -52 - e') with ((e - e') + 52) in D1 by lia.
    rewrite Z.pow_add_r in D1 by lia.
    assert (r = 0 /\ q = Z.pos m * 2 ^ (e - e')) as [-> ->]; [|reflexivity].
    set (p := Z.pos m * 2 ^ (e - e')) in *.
    assert (p * 2 ^ 52 = 2 ^ 52 * q + r) as D1' by (unfold p; lia).
    clear D1. nia. }
  destruct Hs as [Hs|Hs]; rewrite Hs in *; cbv iota; rewrite Hdiv;
    reflexivity.
Qed.

(** Rounding a canonical mantissa, or twice it one exponent lower, gives
    the float itself. *)
Lemma binary_round_aux_canonical (s : bool) (m : positive) (e k : Z) :
  bounded prec emax m e = true -> k = 0 \/ k = 1 ->
  binary_round_aux prec emax s (Z.pos m * 2 ^ k) (e - k) loc_Exact
  = S754_finite s m e.
Proof.
  intros Hb Hk. pose proof (bounded_mantissa m e Hb) as (Mu & Ml & Re).
  apply bounded_spec in Hb as [Hc He].
  destruct Hk as [-> | ->].
  - rewrite Z.pow_0_r, Z.mul_1_r, Z.sub_0_r.
    rewrite binary_round_aux_noshift by lia.
    now apply finish_pos.
  - replace (Z.pos m * 2 ^ 1) with (Z.pos (m~0))
      by (change (2 ^ 1) with 2; lia).
    assert (Z.pos (digits2_pos m~0) + (e - 1) = Z.pos (digits2_pos m) + e)
      as Hd by (cbn [digits2_pos]; lia).
    destruct (binary_round_aux_shift s (m~0) (e - 1))
      as (m1 & E & _ & Hex & _ & _).
    { rewrite Hd, Hc. lia. }
    rewrite Hd, Hc in E, Hex.
    replace (e - (e - 1)) with 1 in Hex by lia.
    assert (Z.pos m~0 / 2 ^ 1 = Z.pos m) as Hq
      by (change (2 ^ 1) with 2; rewrite Pos2Z.inj_xO;
          rewrite Z.mul_comm; apply Z.div_mul; lia).
    rewrite Hq in Hex.
    rewrite (Hex ltac:(change (2 ^ 1) with 2; lia)) in E.
    rewrite E.
    replace (Z.pos m <? 2 ^ 53) with true by (symmetry; apply Z.ltb_lt; lia).
    now apply finish_pos.
Qed.

Lemma SFdiv_one (x : spec_float) :
  valid_binary x = true -> SF64div x SFone = x.
Proof.
  intros V. destruct x as [s|s| |s m e]; try (now destruct s);
    [reflexivity|].
  unfold SF64div, SFdiv, SFone.
  destruct (SFdiv_core_one m e V) as (k & Hk & ->).
  rewrite xorb_false_r. now apply binary_round_aux_canonical.
Qed.

Local Open Scope float_scope.

(** Dividing by one changes nothing, NaN and the sign of zero included. *)
Lemma div_one (x : float) : x / 1 = x.
Proof.
  apply Prim2SF_inj. rewrite div_spec.
  change (Prim2SF 1) with SFone. apply SFdiv_one, Prim2SF_valid.
Qed.

End unit_scale.

Module renucleate_props.

Import np_facts float_facts arith_facts array_facts maximum_facts.
Import order_facts tag_facts renucleate_facts dfun_init_facts.
Import dfun_init_props tag_props unit_scale.

(** Arrays of one shape have entries at the same positions. *)
Lemma shape_at2 (a b : np.array2) r c v :
  shape a = shape b -> at2 a r c = Some v -> exists w, at2 b r c = Some w.
Proof.
  unfold shape, at2. intros Hs H.
  apply bind_some in H as (ra & Ha & Hv).
  pose proof (f_equal (fun l => nth_error l r) Hs) as E. cbv beta in E.
  rewrite !nth_error_map, Ha in E. simpl in E.
  destruct (nth_error b r) as [rb|]; [|discriminate]. simpl in *.
  injection E as E.
  destruct (nth_error rb c) as [w|] eqn:Ew; [now exists w|].
  apply nth_error_None in Ew.
  pose proof (nth_error_Some_lt _ _ _ Hv). lia.
Qed.

Lemma combine_fst_snd {A B : Type} (l : list (A * B)) :
  combine (map fst l) (map snd l) = l.
Proof.
  induction l as [|[a b] l IH]; simpl; [reflexivity|now rewrite IH].
Qed.

Lemma readable_ext dfun_sites iters iters' i :
  length iters' = length iters ->
  readable dfun_sites iters i -> readable dfun_sites iters' i.
Proof. intros L (d & Hd & H). exists d. now rewrite L. Qed.

Lemma trigger_eval_lazy dfun_sites iters i :
  readable dfun_sites iters i ->
  trigger dfun_sites iters i = Some (trigger_at dfun_sites iters i).
Proof.
  intros (d & Hd & Hc). unfold trigger, trigger_at.
  rewrite !getitem_nat, Hd. simpl.
  destruct (d <? 0) eqn:E.
  - destruct (nth_error iters i) as [c|] eqn:Ec; [reflexivity|].
    apply nth_error_None in Ec. specialize (Hc eq_refl). lia.
  - now destruct (nth_error iters i).
Qed.

Lemma trigger_inv dfun_sites iters i t :
  trigger dfun_sites iters i = Some t -> readable dfun_sites iters i.
Proof.
  unfold trigger. rewrite !getitem_nat. intros H.
  apply bind_some in H as (d & Hd & H). exists d. split; [assumption|].
  intros E. rewrite E in H. apply bind_some in H as (c & Hc & _).
  now apply nth_error_Some_lt with c.
Qed.

Lemma trigger_at_length dfun_sites iters i :
  trigger_at dfun_sites iters i = true -> (i < length iters)%nat.
Proof.
  unfold trigger_at. destruct (nth_error dfun_sites i); [|discriminate].
  destruct (nth_error iters i) as [c|] eqn:E; [|discriminate].
  intros _. now apply nth_error_Some_lt with c.
Qed.

Section with_grid.

Variables (x_grid y_grid : np.array2) (dfun_sites : np.array1).
Variables (sh dfun_scale seed_radius : float).

(** The loop of [renucleate] on arrays that line 110 can read. *)
Lemma renucleate_loop_lazy sites :
  forall i curr_dfun iters,
    (forall j, (i <= j < i + length sites)%nat ->
       readable dfun_sites iters j) ->
    exists iters',
      renucleate_loop x_grid y_grid dfun_sites sh dfun_scale seed_radius
                      i sites curr_dfun iters
      = Some (max_compose x_grid y_grid sh dfun_scale seed_radius
                (triggered dfun_sites iters i sites) curr_dfun, iters')
      /\ length iters' = length iters
      /\ (forall j, (i <= j < i + length sites)%nat ->
            trigger_at dfun_sites iters j = true ->
            nth_error iters' j = Some 0)
      /\ (forall j, (j < i)%nat \/ (i + length sites <= j)%nat \/
                    trigger_at dfun_sites iters j = false ->
            nth_error iters' j = nth_error iters j).
Proof.
  induction sites as [|site sites IH]; intros i curr_dfun iters Hr;
    simpl in *.
  - exists iters. repeat split; auto. intros j Hj. lia.
  - rewrite trigger_eval_lazy by (apply Hr; lia). simpl.
    destruct (trigger_at dfun_sites iters i) eqn:T.
    + pose proof (trigger_at_length _ _ _ T) as Hi.
      rewrite setitem_nat by assumption. simpl.
      destruct (IH (S i)
                  (np.amap2 np.maximum curr_dfun
                     (scaled_seed x_grid y_grid sh dfun_scale seed_radius
                                  site))
                  (np.update iters i 0))
        as (it' & E & L & Hin & Hout).
      { intros j Hj. apply (readable_ext dfun_sites iters).
        - apply length_update.
        - apply Hr. lia. }
      rewrite (triggered_ext dfun_sites iters (np.update iters i 0)) in E
        by (intros j Hj; apply nth_error_update_other; lia).
      exists it'. rewrite length_update in L.
      split; [exact E|]. split; [exact L|]. split.
      * intros j Hj Tj. destruct (Nat.eq_dec j i) as [->|N].
        -- rewrite Hout by lia. now apply nth_error_update_same.
        -- apply Hin; [lia|].
           rewrite (trigger_at_ext dfun_sites iters); [assumption|].
           apply nth_error_update_other. lia.
      * intros j Hj.
        assert (j <> i) as N by (destruct Hj as [|[|]]; [lia|lia|congruence]).
        rewrite Hout.
        -- apply nth_error_update_other. assumption.
        -- destruct Hj as [|[|Tj]]; [lia|lia|].
           right. right.
           rewrite (trigger_at_ext dfun_sites iters); [assumption|].
           apply nth_error_update_other. assumption.
    + destruct (IH (S i) curr_dfun iters) as (it' & E & L & Hin & Hout).
      { intros j Hj. apply Hr. lia. }
      exists it'. split; [exact E|]. split; [exact L|]. split.
      * intros j Hj Tj. apply Hin; [|assumption].
        destruct (Nat.eq_dec j i) as [->|N]; [congruence|lia].
      * intros j Hj. apply Hout.
        destruct (Nat.eq_dec j i) as [->|N]; [now right; right|].
        destruct Hj as [|[|]]; [lia|lia|now right; right].
Qed.

(** When the loop returns, line 110 could be read for every site. *)
Lemma renucleate_loop_inv sites :
  forall i curr_dfun iters r,
    renucleate_loop x_grid y_grid dfun_sites sh dfun_scale seed_radius
                    i sites curr_dfun iters = Some r ->
    forall j, (i <= j < i + length sites)%nat ->
      readable dfun_sites iters j.
Proof.
  induction sites as [|site sites IH]; intros i curr_dfun iters r H j Hj;
    simpl in *; [lia|].
  apply bind_some in H as (t & Ht & H).
  pose proof (trigger_inv _ _ _ _ Ht) as Ri.
  destruct (Nat.eq_dec j i) as [->|N]; [assumption|].
  destruct t.
  - apply bind_some in H as (it' & Hit & H).
    apply setitem_inv in Hit as [_ ->].
    apply (readable_ext dfun_sites (np.update iters i 0)).
    + now rewrite length_update.
    + apply (IH _ _ _ _ H). lia.
  - apply (IH _ _ _ _ H). lia.
Qed.

End with_grid.

Section with_cos.

Variable np_cos : float -> float.

(** What [renucleate] returns, whenever it returns. *)
Lemma renucleate_some x_grid y_grid x_sites y_sites dfun_sites iters
    curr_dfun dfun_scale seed_radius curr_dfun' iters' :
  let sites := combine x_sites y_sites in
  let sh := seed_height np_cos seed_radius in
  renucleate np_cos x_grid y_grid x_sites y_sites dfun_sites iters
             curr_dfun dfun_scale seed_radius = Some (curr_dfun', iters') ->
  (forall j, (j < length sites)%nat -> readable dfun_sites iters j) /\
  curr_dfun' = max_compose x_grid y_grid sh dfun_scale seed_radius
                 (triggered dfun_sites iters 0 sites) curr_dfun /\
  length iters' = length iters /\
  (forall j, (j < length sites)%nat ->
     trigger_at dfun_sites iters j = true -> nth_error iters' j = Some 0) /\
  (forall j, (length sites <= j)%nat \/
             trigger_at dfun_sites iters j = false ->
     nth_error iters' j = nth_error iters j).
Proof.
  intros sites sh H. unfold renucleate in H. fold sh sites in H.
  assert (forall j, (j < length sites)%nat -> readable dfun_sites iters j)
    as Hr.
  { intros j Hj. apply (renucleate_loop_inv _ _ _ _ _ _ _ _ _ _ _ H).
    simpl. lia. }
  split; [exact Hr|].
  destruct (renucleate_loop_lazy x_grid y_grid dfun_sites sh dfun_scale
              seed_radius sites 0%nat curr_dfun iters)
    as (it' & E & L & Hin & Hout).
  { intros j Hj. apply Hr. simpl in Hj. lia. }
  rewrite H in E. injection E as -> ->.
  split; [reflexivity|]. split; [exact L|]. split.
  - intros j Hj. apply Hin. simpl. lia.
  - intros j Hj. apply Hout. simpl. tauto.
Qed.

(** X16: [renucleate] returns exactly when [dfun_sites] has an entry for every
    site and the counters have one for every site whose entry is negative;
    it raises [IndexError] otherwise.  The counter of a site whose entry is
    not negative is never read. *)
Theorem X16_renucleate_returns_iff
    x_grid y_grid x_sites y_sites dfun_sites iters curr_dfun
    dfun_scale seed_radius :
  let sites := combine x_sites y_sites in
  renucleate np_cos x_grid y_grid x_sites y_sites dfun_sites iters
             curr_dfun dfun_scale seed_radius <> None
  <->
  forall i, (i < length sites)%nat ->
    exists d, nth_error dfun_sites i = Some d /\
              ((d <? 0) = true -> (i < length iters)%nat).
Proof.
  intros sites. split.
  - intros H.
    destruct (renucleate _ _ _ _ _ _ _ _ _ _) as [[f it]|] eqn:E;
      [|congruence].
    apply renucleate_some in E as [Hr _]. exact Hr.
  - intros Hr. unfold renucleate. fold sites.
    destruct (renucleate_loop_lazy x_grid y_grid dfun_sites
                (seed_height np_cos seed_radius) dfun_scale seed_radius
                sites 0%nat curr_dfun iters)
      as (it' & E & _).
    + intros j Hj. apply Hr. simpl in Hj. lia.
    + rewrite E. discriminate.
Qed.

(** X17: [renucleate] never lowers the field: on a field of the shape of the
    grids, the returned field has the same shape and every entry of it is
    NaN or at least the entry it replaces. *)
Theorem X17_renucleate_never_lowers
    x_grid y_grid x_sites y_sites dfun_sites iters curr_dfun
    dfun_scale seed_radius curr_dfun' iters' :
  shape x_grid = shape y_grid -> shape curr_dfun = shape x_grid ->
  renucleate np_cos x_grid y_grid x_sites y_sites dfun_sites iters
             curr_dfun dfun_scale seed_radius = Some (curr_dfun', iters') ->
  shape curr_dfun' = shape curr_dfun /\
  forall r c v0,
    at2 curr_dfun r c = Some v0 ->
    exists v', at2 curr_dfun' r c = Some v' /\
               (is_nan v' = true \/ (v0 <=? v') = true).
Proof.
  intros Hxy Hc H.
  apply renucleate_some in H as (_ & -> & _).
  set (sh := seed_height np_cos seed_radius).
  set (fired := triggered dfun_sites iters 0 (combine x_sites y_sites)).
  split.
  - clearbody fired. revert curr_dfun Hc.
    induction fired as [|site l IH]; intros curr_dfun Hc; [reflexivity|].
    change (max_compose x_grid y_grid sh dfun_scale seed_radius (site :: l)
              curr_dfun)
      with (max_compose x_grid y_grid sh dfun_scale seed_radius l
              (np.amap2 np.maximum curr_dfun
                 (scaled_seed x_grid y_grid sh dfun_scale seed_radius site))).
    assert (shape (np.amap2 np.maximum curr_dfun
                     (scaled_seed x_grid y_grid sh dfun_scale seed_radius
                                  site)) = shape curr_dfun) as Hs.
    { apply shape_amap2. unfold scaled_seed.
      rewrite shape_amap, interim_dfun_pointwise, shape_amap2 by assumption.
      assumption. }
    rewrite IH by (now rewrite Hs). exact Hs.
  - intros r c v0 Hv.
    assert (exists x y, at2 x_grid r c = Some x /\ at2 y_grid r c = Some y)
      as (x & y & Hx & Hy).
    { destruct (shape_at2 curr_dfun x_grid r c v0 Hc Hv) as (x & Hx).
      destruct (shape_at2 x_grid y_grid r c x Hxy Hx) as (y & Hy).
      now exists x, y. }
    eexists. split.
    + apply (compose_at x_grid y_grid sh dfun_scale seed_radius fired
               curr_dfun r c x y v0 Hx Hy Hv).
    + apply max_over_ge_start.
Qed.

(** X18: [renucleate] plants the seed of every site it re-seeds: for a site
    with a negative sample and a counter of at least 4, every entry of the
    returned field is NaN or at least the scaled seed value of the site
    at that grid point. *)
Theorem X18_renucleate_plants_the_seed
    x_grid y_grid x_sites y_sites dfun_sites iters curr_dfun
    dfun_scale seed_radius curr_dfun' iters' i site d c :
  let sh := seed_height np_cos seed_radius in
  shape x_grid = shape y_grid -> shape curr_dfun = shape x_grid ->
  renucleate np_cos x_grid y_grid x_sites y_sites dfun_sites iters
             curr_dfun dfun_scale seed_radius = Some (curr_dfun', iters') ->
  nth_error (combine x_sites y_sites) i = Some site ->
  nth_error dfun_sites i = Some d -> nth_error iters i = Some c ->
  (d <? 0) = true -> (4 <=? c) = true ->
  forall r c0 x y,
    at2 x_grid r c0 = Some x -> at2 y_grid r c0 = Some y ->
    exists v',
      at2 curr_dfun' r c0 = Some v' /\
      (is_nan v' = true \/
       (seed_value seed_radius (fst site) (snd site + sh) x y / dfun_scale
        <=? v') = true).
Proof.
  intros sh Hxy Hc H Hs Hd Hi Hneg Hfour r c0 x y Hx Hy.
  apply renucleate_some in H as (_ & -> & _).
  destruct (shape_at2 x_grid curr_dfun r c0 x (eq_sym Hc) Hx) as (v0 & Hv).
  eexists. split.
  - apply (compose_at x_grid y_grid sh dfun_scale seed_radius _
             curr_dfun r c0 x y v0 Hx Hy Hv).
  - apply max_over_ge_In. apply in_map_iff.
    exists (seed_value seed_radius (fst site) (snd site + sh) x y).
    split; [reflexivity|]. unfold seed_values. apply in_map_iff.
    exists site. split; [reflexivity|].
    apply (triggered_In dfun_sites iters (combine x_sites y_sites) 0%nat i);
      [assumption|].
    now apply trigger_at_true with d c.
Qed.

(** X19: With [dfun_scale = 1] the Trigger adds exactly the seeds of
    [dfun_init]: every entry of the field [renucleate] returns is the
    [np.maximum] of the entry of [curr_dfun] and the entry of the field
    that [dfun_init] builds from the re-seeded sites. *)
Theorem X19_renucleate_unit_scale_is_dfun_init
    x_grid y_grid x_sites y_sites dfun_sites iters curr_dfun
    seed_radius curr_dfun' iters' r c v0 d :
  let fired := triggered dfun_sites iters 0 (combine x_sites y_sites) in
  shape x_grid = shape y_grid ->
  renucleate np_cos x_grid y_grid x_sites y_sites dfun_sites iters
             curr_dfun 1 seed_radius = Some (curr_dfun', iters') ->
  at2 curr_dfun r c = Some v0 ->
  at2 (dfun_init np_cos x_grid y_grid (map fst fired) (map snd fired)
                 seed_radius) r c = Some d ->
  at2 curr_dfun' r c = Some (np.maximum v0 d).
Proof.
  intros fired Hxy H Hv Hd.
  apply renucleate_some in H as (_ & -> & _). fold fired.
  rewrite dfun_init_pointwise in Hd by assumption.
  apply at2_amap2_inv in Hd as (x & y & Hx & Hy & ->).
  rewrite combine_fst_snd.
  rewrite (compose_at x_grid y_grid (seed_height np_cos seed_radius) 1
             seed_radius fired curr_dfun r c x y v0 Hx Hy Hv).
  f_equal.
  rewrite (map_ext (fun v => v / 1) (fun v => v)) by apply div_one.
  rewrite map_id. apply max_over_start.
Qed.

(** X20: [renucleate] is idempotent: called again on the field and the
    counters it returned, with the same samples, it returns them
    unchanged, since the counters of the sites it re-seeded are zero. *)
Theorem X20_renucleate_idempotent
    x_grid y_grid x_sites y_sites dfun_sites iters curr_dfun
    dfun_scale seed_radius curr_dfun' iters' :
  renucleate np_cos x_grid y_grid x_sites y_sites dfun_sites iters
             curr_dfun dfun_scale seed_radius = Some (curr_dfun', iters') ->
  renucleate np_cos x_grid y_grid x_sites y_sites dfun_sites iters'
             curr_dfun' dfun_scale seed_radius = Some (curr_dfun', iters').
Proof.
  intros H. apply renucleate_some in H as (Hr & _ & L & Hin & Hout).
  set (sites := combine x_sites y_sites) in *.
  assert (forall j, (j < length sites)%nat ->
            trigger_at dfun_sites iters' j = false) as Hnone.
  { intros j Hj. destruct (trigger_at dfun_sites iters j) eqn:T.
    - unfold trigger_at. rewrite (Hin j Hj T).
      destruct (nth_error dfun_sites j); [|reflexivity].
      apply andb_false_r.
    - rewrite (trigger_at_ext dfun_sites iters iters'); [assumption|].
      apply Hout. now right. }
  unfold renucleate. fold sites.
  destruct (renucleate_loop_lazy x_grid y_grid dfun_sites
              (seed_height np_cos seed_radius) dfun_scale seed_radius
              sites 0%nat curr_dfun' iters')
    as (it'' & E & _ & _ & Hout').
  { intros j Hj. apply (readable_ext dfun_sites iters); [assumption|].
    apply Hr. simpl in Hj. lia. }
  rewrite E.
  rewrite triggered_none by (intros j Hj; apply Hnone; simpl in Hj; lia).
  simpl. do 2 f_equal. apply nth_error_ext. intros j. apply Hout'.
  destruct (Nat.lt_ge_cases j (length sites)) as [Hj|Hj].
  - right. right. now apply Hnone.
  - right. left. simpl. lia.
Qed.

End with_cos.

End renucleate_props.

Module step_props.

Import binary64 np_facts float_facts rounding_facts arith_facts order_facts.
Import tag_facts renucleate_facts tag_props renucleate_props simulate_facts.

(** One more than a counter that is a number is a number. *)
Lemma add_one_not_nan (c : float) : is_nan c = false -> is_nan (c + 1) = false.
Proof.
  intros H. apply is_nan_false in H. apply is_nan_false.
  rewrite add_spec. change (Prim2SF 1) with SFone.
  pose proof (Prim2SF_valid c) as V.
  destruct (Prim2SF c) as [s|s| |s m e]; try contradiction; try discriminate.
  destruct (SFadd_finite s false m 4503599627370496 e (-52) V eq_refl)
    as (M & E & _).
  unfold SFone. rewrite E. apply binary_normalize_not_nan.
Qed.

Section with_cos.

Variable np_cos : float -> float.

(** X21: After the Tagger and then the Trigger, no counter has reached 4: the
    counter of every site, if it was a number, is zero or the old counter
    plus one, and it is below 4. *)
Theorem X21_step_keeps_counters_below_four
    x_grid y_grid x_sites y_sites coordx coordy dfun dfun_scale seed_radius
    iters dfun_sites iters1 dfun' iters2 i c :
  tag_renucleation np_cos x_sites y_sites dfun coordx coordy seed_radius
                   iters = Some (dfun_sites, iters1) ->
  renucleate np_cos x_grid y_grid x_sites y_sites dfun_sites iters1 dfun
             dfun_scale seed_radius = Some (dfun', iters2) ->
  (i < length (combine x_sites y_sites))%nat ->
  nth_error iters i = Some c -> is_nan c = false ->
  exists c2,
    nth_error iters2 i = Some c2 /\
    (c2 = 0 \/ c2 = c + 1) /\ (c2 <? 4) = true.
Proof.
  intros Ht Hr Hi Hc Nc.
  destruct (nth_error (combine x_sites y_sites) i) as [site|] eqn:Es;
    [|apply nth_error_None in Es; lia].
  destruct (tag_renucleation_site np_cos _ _ _ _ _ _ _ _ _ _ _ Ht Es)
    as (m & c' & _ & Hc' & Hd & H1).
  assert (c' = c) as -> by congruence.
  apply renucleate_some in Hr as (_ & _ & _ & Hin & Hout).
  destruct (trigger_at dfun_sites iters1 i) eqn:T.
  - exists 0. split; [now apply Hin|]. split; [now left|reflexivity].
  - exists (tagged_count m c).
    split; [rewrite Hout by (now right); assumption|].
    unfold trigger_at in T. rewrite Hd, H1 in T.
    unfold tagged_count in *. destruct (m <? 0).
    + simpl in T. split; [now right|].
      apply leb_false_ltb; auto. now apply add_one_not_nan.
    + split; [now left|reflexivity].
Qed.

(** The value of [covered_count] is one of 0, 1, 2 and 3, and what one
    more covered step makes of it. *)
Lemma covered_step x_grid y_grid sx sy coordx coordy dfun_scale seed_radius
    dfun m (k : nat) :
  let sh := seed_height np_cos seed_radius in
  sample_site dfun coordx coordy sh (sx, sy) = Some m ->
  (m <? 0) = true ->
  exists s,
    simulate_step np_cos x_grid y_grid [sx] [sy] coordx coordy
                  dfun_scale seed_radius dfun [covered_count k] = Some s /\
    fired s = [(S k mod 4 =? 0)%nat] /\
    out_iters s = [covered_count (S k)] /\
    out_dfun s
    = if (S k mod 4 =? 0)%nat
      then np.amap2 np.maximum dfun
             (scaled_seed x_grid y_grid sh dfun_scale seed_radius (sx, sy))
      else dfun.
Proof.
  intros sh Hs Hm.
  rewrite (simulate_step_covered np_cos x_grid y_grid sx sy coordx coordy
             dfun_scale seed_radius dfun (covered_count k) m Hs Hm).
  fold sh. unfold covered_count.
  replace (S k mod 4)%nat with (S (k mod 4) mod 4)%nat
    by (rewrite <- Nat.add_1_r, <- (Nat.add_1_r k);
        now rewrite Nat.Div0.add_mod_idemp_l).
  pose proof (Nat.mod_upper_bound k 4 ltac:(lia)) as B.
  destruct (k mod 4)%nat as [|[|[|[|j]]]]; try lia;
    eexists; (split; [reflexivity|]); repeat split.
Qed.

(** X22: A site that stays covered by liquid is re-seeded every fourth step:
    from a counter of zero, over any number of steps whose field is
    negative at the site, the Trigger fires in the steps 4, 8, 12, ... and
    in no other, and the counter after step [k] is [k mod 4]. *)
Theorem X22_covered_site_fires_every_fourth_step
    x_grid y_grid sx sy coordx coordy dfun_scale seed_radius fields :
  let sh := seed_height np_cos seed_radius in
  Forall (fun dfun =>
            exists m, sample_site dfun coordx coordy sh (sx, sy) = Some m /\
                      (m <? 0) = true) fields ->
  exists steps,
    simulate np_cos x_grid y_grid [sx] [sy] coordx coordy
             dfun_scale seed_radius fields [0] = Some steps /\
    length steps = length fields /\
    forall k s, nth_error steps k = Some s ->
      fired s = [(S k mod 4 =? 0)%nat] /\
      out_iters s = [covered_count (S k)].
Proof.
  intros sh Hall.
  change [0] with [covered_count 0].
  assert (forall j,
            exists steps,
              simulate np_cos x_grid y_grid [sx] [sy] coordx coordy
                       dfun_scale seed_radius fields [covered_count j]
              = Some steps /\
              length steps = length fields /\
              forall k s, nth_error steps k = Some s ->
                fired s = [(S (j + k) mod 4 =? 0)%nat] /\
                out_iters s = [covered_count (S (j + k))]) as G.
  { induction Hall as [|dfun fields (m & Hs & Hm) _ IH]; intros j.
    - exists []. split; [reflexivity|]. split; [reflexivity|].
      intros [|k] s0 Hn; discriminate.
    - destruct (covered_step x_grid y_grid sx sy coordx coordy dfun_scale
                  seed_radius dfun m j Hs Hm) as (s0 & E0 & F0 & O0 & _).
      destruct (IH (S j)) as (steps & E & L & Hk).
      exists (s0 :: steps). simpl. rewrite E0. simpl. rewrite O0, E. simpl.
      split; [reflexivity|]. split; [now rewrite L|].
      intros [|k] s1 Hn; simpl in Hn.
      + injection Hn as <-. now rewrite Nat.add_0_r.
      + replace (j + S k)%nat with (S j + k)%nat by lia. now apply Hk. }
  apply (G 0%nat).
Qed.

End with_cos.

End step_props.

(** * The further properties evaluated on the example mesh *)

Lemma X1_heater_init_zero_width_witness :
  is_finite 2.5 = true /\
  exists x_sites y_sites h',
    heater_init Example.halton 2.5 2.5 3 []
    = Some ((x_sites, y_sites), h') /\
    length x_sites = 3%nat /\
    Forall (fun x => (x =? 2.5) = true) x_sites.
Proof.
  split; [reflexivity|].
  apply (heater_props.X1_heater_init_zero_width Example.halton 2.5 3 []).
  - reflexivity.
  - intros [|[|[|k]]] Hk; try (split; reflexivity); lia.
Defined.

Lemma X2_dfun_init_at_most_radius_witness :
  shape Example.x_grid = shape Example.y_grid /\
  combine [0; 1] [1e-13; 1e-13] <> [] /\
  Forall (fun v => is_nan v = true \/ (v <=? 0.2) = true)
         (concat (dfun_init Example.cos Example.x_grid Example.y_grid
                            [0; 1] [1e-13; 1e-13] 0.2)).
Proof.
  split; [reflexivity|]. split; [discriminate|].
  apply (dfun_init_props.X2_dfun_init_at_most_radius Example.cos
           Example.x_grid Example.y_grid [0; 1] [1e-13; 1e-13] 0.2).
  - reflexivity.
  - discriminate.
Defined.

Lemma X3_dfun_init_nan_site_witness :
  shape Example.x_grid = shape Example.y_grid /\
  In (nan, 1e-13) (combine [0; nan] [1e-13; 1e-13]) /\
  Forall (fun v => v = nan)
         (concat (dfun_init Example.cos Example.x_grid Example.y_grid
                            [0; nan] [1e-13; 1e-13] 0.2)).
Proof.
  split; [reflexivity|]. split; [right; left; reflexivity|].
  apply (dfun_init_props.X3_dfun_init_nan_site Example.cos
           Example.x_grid Example.y_grid [0; nan] [1e-13; 1e-13] 0.2
           nan 1e-13).
  - reflexivity.
  - right; left; reflexivity.
  - left; reflexivity.
Defined.

Lemma X4_dfun_init_app_witness :
  shape Example.x_grid = shape Example.y_grid /\
  length [-1; 0] = length [1e-13; 1e-13] /\
  dfun_init Example.cos Example.x_grid Example.y_grid
            ([-1; 0] ++ [1]) ([1e-13; 1e-13] ++ [1e-13]) 0.2
  = np.amap2 np.maximum
      (dfun_init Example.cos Example.x_grid Example.y_grid
                 [-1; 0] [1e-13; 1e-13] 0.2)
      (dfun_init Example.cos Example.x_grid Example.y_grid [1] [1e-13] 0.2).
Proof.
  split; [reflexivity|]. split; [reflexivity|].
  apply (dfun_init_props.X4_dfun_init_app Example.cos
           Example.x_grid Example.y_grid [-1; 0] [1e-13; 1e-13]
           [1] [1e-13] 0.2); reflexivity.
Defined.

Lemma X5_dfun_init_more_sites_witness :
  shape Example.x_grid = shape Example.y_grid /\
  length [-1] = length [1e-13] /\
  exists v v',
    at2 (dfun_init Example.cos Example.x_grid Example.y_grid
                   [-1] [1e-13] 0.2) 0 2 = Some v /\
    at2 (dfun_init Example.cos Example.x_grid Example.y_grid
                   ([-1] ++ [1]) ([1e-13] ++ [1e-13]) 0.2) 0 2 = Some v' /\
    (is_nan v' = true \/ (v <=? v') = true).
Proof.
  split; [reflexivity|]. split; [reflexivity|].
  assert (exists v,
            at2 (dfun_init Example.cos Example.x_grid Example.y_grid
                           [-1] [1e-13] 0.2) 0 2 = Some v) as (v & Hv)
    by (eexists; vm_compute; reflexivity).
  exists v.
  destruct (dfun_init_props.X5_dfun_init_more_sites Example.cos
              Example.x_grid Example.y_grid [-1] [1e-13] [1] [1e-13] 0.2
              0%nat 2%nat v eq_refl eq_refl Hv) as (v' & Hv' & H).
  exists v'. split; [exact Hv|]. split; [exact Hv'|exact H].
Defined.

Lemma X6_dfun_init_sign_is_union_of_discs_witness :
  shape Example.x_grid = shape Example.y_grid /\
  is_finite 0.75 = true /\
  at2 Example.x_grid 1 2 = Some 0.5 /\ at2 Example.y_grid 1 2 = Some 0.25 /\
  exists v,
    at2 (dfun_init Example.cos Example.x_grid Example.y_grid
                   [0] [1e-13] 0.75) 1 2 = Some v /\
    ((0 <? v) = true <->
     exists s, In s (combine [0] [1e-13]) /\
               (distance 0.5 0.25 (fst s)
                         (snd s + seed_height Example.cos 0.75) <? 0.75)
               = true).
Proof.
  split; [reflexivity|]. split; [reflexivity|].
  split; [reflexivity|]. split; [reflexivity|].
  destruct (dfun_init_props.X6_dfun_init_sign_is_union_of_discs Example.cos
              Example.x_grid Example.y_grid [0] [1e-13] 0.75
              1%nat 2%nat 0.5 0.25)
    as (v & Hv & Hpos & _); try reflexivity.
  - repeat constructor.
  - exists v. split; [exact Hv|exact Hpos].
Defined.

Lemma X7_dfun_init_centre_holds_radius_witness :
  shape Example.centre_x_grid = shape Example.centre_y_grid /\
  finite_array Example.centre_x_grid /\
  finite_array Example.centre_y_grid /\
  In (0, 1e-13) (combine [0; 1] [1e-13; 1e-13]) /\
  exists v,
    at2 (dfun_init Example.cos Example.centre_x_grid Example.centre_y_grid
                   [0; 1] [1e-13; 1e-13] 0.2) 0 0 = Some v /\
    (v =? 0.2) = true.
Proof.
  assert (finite_array Example.centre_x_grid) as Fx
    by (repeat constructor).
  assert (finite_array Example.centre_y_grid) as Fy
    by (repeat constructor).
  split; [reflexivity|]. split; [exact Fx|]. split; [exact Fy|].
  split; [left; reflexivity|].
  apply (dfun_init_props.X7_dfun_init_centre_holds_radius Example.cos
           Example.centre_x_grid Example.centre_y_grid
           [0; 1] [1e-13; 1e-13] 0.2 0%nat 0%nat (0, 1e-13));
    try assumption; try reflexivity.
  - repeat constructor.
  - left; reflexivity.
Defined.

Lemma X8_tag_renucleation_returns_iff_witness :
  Forall (fun site =>
            Forall (fun read => read <> None)
                   (corner_reads Example.wet Example.coordx Example.coordy
                      (seed_height Example.cos 0.2) site))
         (combine [0] [1e-13]) /\
  tag_renucleation Example.cos [0] [1e-13] Example.wet
                   Example.coordx Example.coordy 0.2 [0] <> None.
Proof.
  assert (Forall (fun site =>
            Forall (fun read => read <> None)
                   (corner_reads Example.wet Example.coordx Example.coordy
                      (seed_height Example.cos 0.2) site))
            (combine [0] [1e-13])) as H
    by (repeat constructor; intros E; vm_compute in E; discriminate E).
  split; [exact H|].
  apply (proj2 (tag_props.X8_tag_renucleation_returns_iff Example.cos
                  [0] [1e-13] Example.wet Example.coordx Example.coordy
                  0.2 [0])).
  split; [exact H|simpl; lia].
Defined.

Lemma X9_tag_renucleation_inside_axes_witness :
  rectangular Example.wet (length Example.coordy) (length Example.coordx) /\
  ascending Example.coordx /\ ascending Example.coordy /\
  tag_renucleation Example.cos [0] [1e-13] Example.wet
                   Example.coordx Example.coordy 0.2 [0] <> None /\
  Forall (fun site =>
            (1 <= np.searchsorted Example.coordx (fst site)
               <= Z.of_nat (length Example.coordx) - 1)%Z /\
            (1 <= np.searchsorted Example.coordy
                    (snd site + seed_height Example.cos 0.2)
               <= Z.of_nat (length Example.coordy) - 1)%Z)
         (combine [0] [1e-13]).
Proof.
  assert (rectangular Example.wet (length Example.coordy)
                      (length Example.coordx)) as Hr
    by (split; [reflexivity|repeat constructor]).
  assert (ascending Example.coordx) as Hx
    by (intros [|[|[|[|i]]]] [|[|[|[|j]]]] [H1 H2]; simpl in *;
        try lia; reflexivity).
  assert (ascending Example.coordy) as Hy
    by (intros [|[|[|[|i]]]] [|[|[|[|j]]]] [H1 H2]; simpl in *;
        try lia; reflexivity).
  split; [exact Hr|]. split; [exact Hx|]. split; [exact Hy|].
  apply (tag_props.X9_tag_renucleation_inside_axes Example.cos
           [0] [1e-13] Example.wet Example.coordx Example.coordy 0.2 [0]
           Hr Hx Hy).
  - simpl. lia.
  - repeat constructor.
Defined.

Lemma X10_tag_sample_cell_holds_site_witness :
  ascending Example.coordx /\ ascending Example.coordy /\
  ((nth 1 Example.coordx nan <? 0) = true /\
   (0 <=? nth 2 Example.coordx nan) = true) /\
  ((nth 0 Example.coordy nan <? 1e-13 + seed_height Example.cos 0.2) = true /\
   (1e-13 + seed_height Example.cos 0.2 <=? nth 1 Example.coordy nan)
   = true).
Proof.
  assert (ascending Example.coordx) as Hx
    by (intros [|[|[|[|i]]]] [|[|[|[|j]]]] [H1 H2]; simpl in *;
        try lia; reflexivity).
  assert (ascending Example.coordy) as Hy
    by (intros [|[|[|[|i]]]] [|[|[|[|j]]]] [H1 H2]; simpl in *;
        try lia; reflexivity).
  split; [exact Hx|]. split; [exact Hy|].
  apply (tag_props.X10_tag_sample_cell_holds_site Example.cos
           Example.coordx Example.coordy 0.2 (0, 1e-13) Hx Hy);
    reflexivity.
Defined.

Lemma X11_tag_renucleation_past_axis_witness :
  In (2, 1e-13) (combine [0; 2] [1e-13; 1e-13]) /\
  Forall (fun v => np.less v 2 = true) Example.coordx /\
  tag_renucleation Example.cos [0; 2] [1e-13; 1e-13] Example.wet
                   Example.coordx Example.coordy 0.2 [0; 0] = None.
Proof.
  assert (Forall (fun v => np.less v 2 = true) Example.coordx) as H
    by (repeat constructor).
  split; [right; left; reflexivity|]. split; [exact H|].
  apply (tag_props.X11_tag_renucleation_past_axis Example.cos
           [0; 2] [1e-13; 1e-13] Example.wet Example.coordx Example.coordy
           0.2 [0; 0] (2, 1e-13)).
  - split; [reflexivity|repeat constructor].
  - right; left; reflexivity.
  - left. exact H.
Defined.

Lemma X12_tag_sample_wraps_at_first_coordinate_witness :
  ascending Example.coordx /\
  (-2 <=? nth 0 Example.coordx nan) = true /\
  np.searchsorted Example.coordx (fst (-2, 1e-13)) = 0%Z /\
  exists v11 v01 v10 v00,
    at2 Example.wet 1 0 = Some v11 /\
    at2 Example.wet 0 0 = Some v01 /\
    at2 Example.wet 1 3 = Some v10 /\
    at2 Example.wet 0 3 = Some v00 /\
    sample_site Example.wet Example.coordx Example.coordy
                (seed_height Example.cos 0.2) (-2, 1e-13)
    = Some ((v11 + v01 + v10 + v00) / 4).
Proof.
  assert (ascending Example.coordx) as Hx
    by (intros [|[|[|[|i]]]] [|[|[|[|j]]]] [H1 H2]; simpl in *;
        try lia; reflexivity).
  split; [exact Hx|]. split; [reflexivity|].
  apply (tag_props.X12_tag_sample_wraps_at_first_coordinate Example.cos
           Example.wet Example.coordx Example.coordy 0.2 (-2, 1e-13)).
  - split; [reflexivity|repeat constructor].
  - exact Hx.
  - reflexivity.
  - vm_compute. lia.
Defined.

Lemma X13_tag_renucleation_untouched_entries_witness :
  tag_renucleation Example.cos [0; 1] [1e-13] Example.wet
                   Example.coordx Example.coordy 0.2 [0; 7]
  = Some ([-1; 0], [1; 7]) /\
  length [-1; 0] = length [0; 1] /\
  length [1; 7] = length [0; 7] /\
  forall i, Nat.le (length (combine [0; 1] [1e-13])) i ->
    nth_error [1; 7] i = nth_error [0; 7] i /\
    (Nat.lt i (length [0; 1]) -> nth_error [-1; 0] i = Some 0).
Proof.
  split; [reflexivity|].
  apply (tag_props.X13_tag_renucleation_untouched_entries Example.cos
           [0; 1] [1e-13] Example.wet Example.coordx Example.coordy 0.2
           [0; 7] [-1; 0] [1; 7]).
  reflexivity.
Defined.

Lemma X14_tag_renucleation_nan_corner_witness :
  let field := np.amap (fun _ => nan) Example.x_grid in
  tag_renucleation Example.cos [0] [1e-13] field
                   Example.coordx Example.coordy 0.2 [3]
  = Some ([nan], [0]) /\
  In (Some nan)
     (corner_reads field Example.coordx Example.coordy
                   (seed_height Example.cos 0.2) (0, 1e-13)) /\
  nth_error [nan] 0 = Some nan /\ nth_error [0] 0 = Some 0.
Proof.
  intros field.
  assert (tag_renucleation Example.cos [0] [1e-13] field
            Example.coordx Example.coordy 0.2 [3] = Some ([nan], [0])) as E
    by reflexivity.
  assert (In (Some nan)
            (corner_reads field Example.coordx Example.coordy
               (seed_height Example.cos 0.2) (0, 1e-13))) as Hn
    by (left; reflexivity).
  split; [exact E|]. split; [exact Hn|].
  apply (tag_props.X14_tag_renucleation_nan_corner Example.cos
           [0] [1e-13] field Example.coordx Example.coordy 0.2 [3]
           [nan] [0] 0%nat (0, 1e-13) E eq_refl Hn).
Defined.

Lemma X15_tag_renucleation_vapour_resets_witness :
  let field := np.amap (fun _ => 1) Example.x_grid in
  tag_renucleation Example.cos [0] [1e-13] field
                   Example.coordx Example.coordy 0.2 [3]
  = Some ([1], [0]) /\
  (exists m, nth_error [1] 0 = Some m /\ (0 <=? m) = true) /\
  nth_error [0] 0 = Some 0.
Proof.
  intros field.
  assert (tag_renucleation Example.cos [0] [1e-13] field
            Example.coordx Example.coordy 0.2 [3] = Some ([1], [0])) as E
    by reflexivity.
  split; [exact E|].
  apply (tag_props.X15_tag_renucleation_vapour_resets Example.cos
           [0] [1e-13] field Example.coordx Example.coordy 0.2 [3]
           [1] [0] 0%nat (0, 1e-13) E eq_refl).
  repeat (constructor; [exists 1; split; reflexivity|]). constructor.
Defined.

Lemma X16_renucleate_returns_iff_witness :
  (forall i, Nat.lt i (length (combine [0] [1e-13])) ->
     exists d, nth_error [1] i = Some d /\
               ((d <? 0) = true -> Nat.lt i (length (@nil float)))) /\
  renucleate Example.cos Example.x_grid Example.y_grid [0] [1e-13]
             [1] [] Example.wet 1 0.2 <> None.
Proof.
  assert (forall i, Nat.lt i (length (combine [0] [1e-13])) ->
            exists d, nth_error [1] i = Some d /\
                      ((d <? 0) = true -> Nat.lt i (length (@nil float))))
    as H.
  { intros [|i] Hi; [|simpl in Hi; lia].
    exists 1. split; [reflexivity|]. intros E. discriminate E. }
  split; [exact H|].
  apply (proj2 (renucleate_props.X16_renucleate_returns_iff Example.cos
                  Example.x_grid Example.y_grid [0] [1e-13] [1] []
                  Example.wet 1 0.2)).
  exact H.
Defined.

Lemma X17_renucleate_never_lowers_witness :
  shape Example.x_grid = shape Example.y_grid /\
  shape Example.wet = shape Example.x_grid /\
  exists curr_dfun' iters',
    renucleate Example.cos Example.x_grid Example.y_grid [0] [1e-13]
               [-1] [4] Example.wet 1 0.2 = Some (curr_dfun', iters') /\
    shape curr_dfun' = shape Example.wet /\
    forall r c v0,
      at2 Example.wet r c = Some v0 ->
      exists v', at2 curr_dfun' r c = Some v' /\
                 (is_nan v' = true \/ (v0 <=? v') = true).
Proof.
  split; [reflexivity|]. split; [reflexivity|].
  destruct (renucleate Example.cos Example.x_grid Example.y_grid [0] [1e-13]
              [-1] [4] Example.wet 1 0.2) as [[f it]|] eqn:E;
    [|vm_compute in E; discriminate E].
  exists f, it. split; [reflexivity|].
  apply (renucleate_props.X17_renucleate_never_lowers Example.cos
           Example.x_grid Example.y_grid [0] [1e-13] [-1] [4] Example.wet
           1 0.2 f it eq_refl eq_refl E).
Defined.

Lemma X18_renucleate_plants_the_seed_witness :
  shape Example.x_grid = shape Example.y_grid /\
  shape Example.wet = shape Example.x_grid /\
  (-1 <? 0) = true /\ (4 <=? 4) = true /\
  exists curr_dfun' iters',
    renucleate Example.cos Example.x_grid Example.y_grid [0] [1e-13]
               [-1] [4] Example.wet 1 0.2 = Some (curr_dfun', iters') /\
    exists v',
      at2 curr_dfun' 1 2 = Some v' /\
      (is_nan v' = true \/
       (seed_value 0.2 0 (1e-13 + seed_height Example.cos 0.2) 0.5 0.25 / 1
        <=? v') = true).
Proof.
  split; [reflexivity|]. split; [reflexivity|].
  split; [reflexivity|]. split; [reflexivity|].
  destruct (renucleate Example.cos Example.x_grid Example.y_grid [0] [1e-13]
              [-1] [4] Example.wet 1 0.2) as [[f it]|] eqn:E;
    [|vm_compute in E; discriminate E].
  exists f, it. split; [reflexivity|].
  apply (renucleate_props.X18_renucleate_plants_the_seed Example.cos
           Example.x_grid Example.y_grid [0] [1e-13] [-1] [4] Example.wet
           1 0.2 f it 0%nat (0, 1e-13) (-1) 4 eq_refl eq_refl E
           eq_refl eq_refl eq_refl eq_refl eq_refl 1%nat 2%nat 0.5 0.25
           eq_refl eq_refl).
Defined.

Lemma X19_renucleate_unit_scale_is_dfun_init_witness :
  shape Example.x_grid = shape Example.y_grid /\
  exists curr_dfun' iters' d,
    renucleate Example.cos Example.x_grid Example.y_grid [0] [1e-13]
               [-1] [4] Example.wet 1 0.2 = Some (curr_dfun', iters') /\
    at2 (dfun_init Example.cos Example.x_grid Example.y_grid
                   (map fst (triggered [-1] [4] 0 (combine [0] [1e-13])))
                   (map snd (triggered [-1] [4] 0 (combine [0] [1e-13])))
                   0.2) 1 2 = Some d /\
    at2 curr_dfun' 1 2 = Some (np.maximum (-1) d).
Proof.
  split; [reflexivity|].
  destruct (renucleate Example.cos Example.x_grid Example.y_grid [0] [1e-13]
              [-1] [4] Example.wet 1 0.2) as [[f it]|] eqn:E;
    [|vm_compute in E; discriminate E].
  destruct (at2 (dfun_init Example.cos Example.x_grid Example.y_grid
                   (map fst (triggered [-1] [4] 0 (combine [0] [1e-13])))
                   (map snd (triggered [-1] [4] 0 (combine [0] [1e-13])))
                   0.2) 1 2) as [d|] eqn:Ed;
    [|vm_compute in Ed; discriminate Ed].
  exists f, it, d. split; [reflexivity|]. split; [reflexivity|].
  apply (renucleate_props.X19_renucleate_unit_scale_is_dfun_init Example.cos
           Example.x_grid Example.y_grid [0] [1e-13] [-1] [4] Example.wet
           0.2 f it 1%nat 2%nat (-1) d eq_refl E eq_refl Ed).
Defined.

Lemma X20_renucleate_idempotent_witness :
  exists curr_dfun' iters',
    renucleate Example.cos Example.x_grid Example.y_grid [0] [1e-13]
               [-1] [4] Example.wet 1 0.2 = Some (curr_dfun', iters') /\
    renucleate Example.cos Example.x_grid Example.y_grid [0] [1e-13]
               [-1] iters' curr_dfun' 1 0.2 = Some (curr_dfun', iters').
Proof.
  destruct (renucleate Example.cos Example.x_grid Example.y_grid [0] [1e-13]
              [-1] [4] Example.wet 1 0.2) as [[f it]|] eqn:E;
    [|vm_compute in E; discriminate E].
  exists f, it. split; [reflexivity|].
  apply (renucleate_props.X20_renucleate_idempotent Example.cos
           Example.x_grid Example.y_grid [0] [1e-13] [-1] [4] Example.wet
           1 0.2 f it E).
Defined.

Lemma X21_step_keeps_counters_below_four_witness :
  tag_renucleation Example.cos [0] [1e-13] Example.wet
                   Example.coordx Example.coordy 0.2 [3]
  = Some ([-1], [4]) /\
  is_nan 3 = false /\
  exists dfun' iters2 c2,
    renucleate Example.cos Example.x_grid Example.y_grid [0] [1e-13]
               [-1] [4] Example.wet 1 0.2 = Some (dfun', iters2) /\
    nth_error iters2 0 = Some c2 /\
    (c2 = 0 \/ c2 = 3 + 1) /\ (c2 <? 4) = true.
Proof.
  assert (tag_renucleation Example.cos [0] [1e-13] Example.wet
            Example.coordx Example.coordy 0.2 [3] = Some ([-1], [4])) as Et
    by reflexivity.
  split; [exact Et|]. split; [reflexivity|].
  destruct (renucleate Example.cos Example.x_grid Example.y_grid [0] [1e-13]
              [-1] [4] Example.wet 1 0.2) as [[f it]|] eqn:E;
    [|vm_compute in E; discriminate E].
  destruct (step_props.X21_step_keeps_counters_below_four Example.cos
              Example.x_grid Example.y_grid [0] [1e-13]
              Example.coordx Example.coordy Example.wet 1 0.2
              [3] [-1] [4] f it 0%nat 3 Et E)
    as (c2 & H1 & H2 & H3); try reflexivity.
  - simpl. lia.
  - exists f, it, c2. repeat split; assumption.
Defined.

Lemma X22_covered_site_fires_every_fourth_step_witness :
  let fields := repeat Example.wet 9 in
  Forall (fun dfun =>
            exists m,
              sample_site dfun Example.coordx Example.coordy
                          (seed_height Example.cos 0.2) (0, 1e-13) = Some m /\
              (m <? 0) = true) fields /\
  exists steps,
    simulate Example.cos Example.x_grid Example.y_grid [0] [1e-13]
             Example.coordx Example.coordy 1 0.2 fields [0] = Some steps /\
    length steps = length fields /\
    forall k s, nth_error steps k = Some s ->
      fired s = [(S k mod 4 =? 0)%nat] /\
      out_iters s = [covered_count (S k)].
Proof.
  intros fields.
  assert (Forall (fun dfun =>
            exists m,
              sample_site dfun Example.coordx Example.coordy
                          (seed_height Example.cos 0.2) (0, 1e-13) = Some m /\
              (m <? 0) = true) fields) as H
    by (repeat (constructor; [exists (-1); split; reflexivity|]);
        constructor).
  split; [exact H|].
  apply (step_props.X22_covered_site_fires_every_fourth_step Example.cos
           Example.x_grid Example.y_grid 0 1e-13
           Example.coordx Example.coordy 1 0.2 fields H).
Defined.
